(** * jsh: a pipe-capable interactive shell (shell.c)

    A shallow embedding of the argument parser ([makeProcesses],
    [makeProcess], [makeArgument], [endOfArg]), of the program execution
    functions ([execute], [runChild], [waitOnProcesses], [makePipes],
    [closeUnneededPipes]) and of the command loop ([main]), followed by the
    properties established about them.

    Conventions of the embedding.
    - A C [char] is the [Z] it promotes to in a comparison; the input buffer
      [char input[BUFFER_SIZE]] is a [list Z] read with [get], and the
      source never reads it at an index outside [0, BUFFER_SIZE).
    - An argument is the list of characters [makeArgument] stores before its
      terminating NUL; a stage is the list of its arguments (the array
      before its terminating NULL); a pipeline is the list of its stages.
    - Every [while] loop carries a fuel counter and answers [None] when it
      runs out; the loops are shown to finish within [FUEL] steps.
    - The operating system is a record of answers ([OS]); a process is a
      state ([proc]) threaded through a small state-and-exit monad.
    - What a process prints on standard output stays in the buffer of the
      stream ([stdout_out]): fork copies it to the child with the rest of
      the process, exit writes it out, [execvp] drops it. Standard error
      is not buffered. This is standard output when it is not a terminal;
      on a terminal the library may write the prompt out when [fgets]
      reads.
    - The parser is given twice: as the source computes when every store
      stays inside its block, and with the sizes of the blocks. *)

From Stdlib Require Import String Ascii ZArith List Bool Lia Permutation.
Import ListNotations.
Local Open Scope Z_scope.

(** ** Constants of shell.c *)

Definition BUFFER_SIZE : Z := 2048.
Definition MAX_PROCESSES : Z := 1000.
Definition MAX_WORDS : Z := 500.
Definition MAX_WORD_LENGTH : Z := 100.
Definition SIZE_OF_PIPE : Z := 2.

(** [EOF] of stdio.h and [EXIT_FAILURE] of stdlib.h. *)
Definition EOF : Z := -1.
Definition EXIT_FAILURE : Z := 1.

(** Character constants. *)
Definition ch_newline : Z := 10.
Definition ch_space : Z := 32.
Definition ch_pipe : Z := 124.
Definition ch_tab : Z := 9.

(** ** Argument parser *)

Definition arg := list Z.
Definition stage := list arg.
Definition pipeline := list stage.

(** [input[ind]]. *)
Definition get (input : list Z) (ind : Z) : Z :=
  nth (Z.to_nat ind) input 0.

(** Steps granted to each loop of the parser. *)
Definition FUEL : nat := Z.to_nat (BUFFER_SIZE + 2).

(** [endOfArg]: lines 381-385. *)
Definition endOfArg (input : list Z) (ind : Z) : bool :=
  (BUFFER_SIZE <=? ind)
  || (get input ind =? ch_newline)
  || (get input ind =? EOF)
  || (get input ind =? ch_pipe).

(** The loop of [makeArgument] (lines 362-365): the characters stored in
    [arg] and the index reached. *)
Fixpoint makeArgument_loop (fuel : nat) (input : list Z) (ind : Z)
  : option (arg * Z) :=
  match fuel with
  | O => None
  | S fuel' =>
      if negb (endOfArg input ind) && negb (get input ind =? ch_space)
      then match makeArgument_loop fuel' input (ind + 1) with
           | Some (a, ind') => Some (get input ind :: a, ind')
           | None => None
           end
      else Some ([], ind)
  end.

(** [makeArgument]: lines 354-369. *)
Definition makeArgument (input : list Z) (ind : Z) : option (arg * Z) :=
  makeArgument_loop FUEL input ind.

(** The inner loop of [makeProcess] that skips spaces (lines 324-326). *)
Fixpoint skipSpaces (fuel : nat) (input : list Z) (ind : Z) : option Z :=
  match fuel with
  | O => None
  | S fuel' =>
      if negb (endOfArg input ind) && (get input ind =? ch_space)
      then skipSpaces fuel' input (ind + 1)
      else Some ind
  end.

(** The outer loop of [makeProcess] (lines 321-333). *)
Fixpoint makeProcess_loop (fuel : nat) (input : list Z) (ind : Z)
  : option (stage * Z) :=
  match fuel with
  | O => None
  | S fuel' =>
      if negb (endOfArg input ind)
      then match skipSpaces FUEL input ind with
           | None => None
           | Some i1 =>
               if negb (endOfArg input i1)
               then match makeArgument input i1 with
                    | None => None
                    | Some (a, i2) =>
                        match makeProcess_loop fuel' input i2 with
                        | Some (args, i3) => Some (a :: args, i3)
                        | None => None
                        end
                    end
               else makeProcess_loop fuel' input i1
           end
      else Some ([], ind)
  end.

(** [makeProcess]: lines 313-342. *)
Definition makeProcess (input : list Z) (ind : Z) : option (stage * Z) :=
  match makeProcess_loop FUEL input ind with
  | None => None
  | Some (args, i) =>
      Some (args,
            if (i <? BUFFER_SIZE) && (get input i =? ch_pipe)
            then i + 1 else i)
  end.

(** The loop of [makeProcesses] (lines 292-297), started at index [ind]. *)
Fixpoint makeProcesses_from (fuel : nat) (input : list Z) (ind : Z)
  : option pipeline :=
  match fuel with
  | O => None
  | S fuel' =>
      match makeProcess input ind with
      | None => None
      | Some ([], _) => Some []
      | Some (currArgs, ind') =>
          match makeProcesses_from fuel' input ind' with
          | Some rest => Some (currArgs :: rest)
          | None => None
          end
      end
  end.

(** [makeProcesses]: lines 283-302. *)
Definition makeProcesses (input : list Z) : option pipeline :=
  makeProcesses_from FUEL input 0.

(** Characters of a Rocq string, and the buffer [fgets] fills for a line
    that fits: the line, its newline, the terminating NUL, and the bytes
    the array held before (here NUL), [BUFFER_SIZE] bytes in all. *)
Definition chars (s : string) : list Z :=
  map (fun a => Z.of_nat (nat_of_ascii a)) (list_ascii_of_string s).

Definition buffer_of (text : list Z) : list Z :=
  firstn (Z.to_nat BUFFER_SIZE)
         (text ++ 0 :: repeat 0 (Z.to_nat BUFFER_SIZE)).

Definition line (s : string) : list Z :=
  buffer_of (chars s ++ [ch_newline]).

(** The C string held in an array of characters: what [strcmp], [execvp]
    and the [%s] conversion see, the characters before the first NUL. *)
Fixpoint cstr (a : list Z) : list Z :=
  match a with
  | [] => []
  | c :: a' => if c =? 0 then [] else c :: cstr a'
  end.

(** ** The parser and the sizes of its blocks *)

(** The functions above give what the source computes as long as every
    store stays inside the block it goes to. The source allocates
    [MAX_WORD_LENGTH] bytes for an argument (line 357), [MAX_WORDS] slots
    for the arguments of a stage (line 317) and [MAX_PROCESSES] slots for
    the stages (line 286), and never tests an index against them. The
    functions below follow the same loops with the indices [argInd],
    [numWords] and [size] of the source, and stop with [Overflow] at the
    first store that leaves its block; what the program does from there
    on is not defined. *)
Inductive block := ArgumentBlock | StageArray | StagesArray.

Inductive parsed (A : Type) :=
| Parsed (a : A)
| Overflow (b : block)
| Unfinished.
Arguments Parsed {A} a.
Arguments Overflow {A} b.
Arguments Unfinished {A}.

(** The loop of [makeArgument] and the store of the NUL that follows it:
    lines 362-366. *)
Fixpoint makeArgumentC_loop (fuel : nat) (input : list Z) (ind argInd : Z)
  : parsed (arg * Z) :=
  match fuel with
  | O => Unfinished
  | S fuel' =>
      if negb (endOfArg input ind) && negb (get input ind =? ch_space)
      then if argInd <? MAX_WORD_LENGTH
           then match makeArgumentC_loop fuel' input (ind + 1) (argInd + 1) with
                | Parsed (a, ind') => Parsed (get input ind :: a, ind')
                | Overflow b => Overflow b
                | Unfinished => Unfinished
                end
           else Overflow ArgumentBlock
      else if argInd <? MAX_WORD_LENGTH
           then Parsed ([], ind)
           else Overflow ArgumentBlock
  end.

Definition makeArgumentC (input : list Z) (ind : Z) : parsed (arg * Z) :=
  makeArgumentC_loop FUEL input ind 0.

(** The outer loop of [makeProcess] and the store of the NULL that
    follows it: lines 321-334. *)
Fixpoint makeProcessC_loop (fuel : nat) (input : list Z) (ind numWords : Z)
  : parsed (stage * Z) :=
  match fuel with
  | O => Unfinished
  | S fuel' =>
      if negb (endOfArg input ind)
      then match skipSpaces FUEL input ind with
           | None => Unfinished
           | Some i1 =>
               if negb (endOfArg input i1)
               then match makeArgumentC input i1 with
                    | Parsed (a, i2) =>
                        if numWords <? MAX_WORDS
                        then match makeProcessC_loop fuel' input i2
                                                     (numWords + 1) with
                             | Parsed (args, i3) => Parsed (a :: args, i3)
                             | Overflow b => Overflow b
                             | Unfinished => Unfinished
                             end
                        else Overflow StageArray
                    | Overflow b => Overflow b
                    | Unfinished => Unfinished
                    end
               else makeProcessC_loop fuel' input i1 numWords
           end
      else if numWords <? MAX_WORDS
           then Parsed ([], ind)
           else Overflow StageArray
  end.

Definition makeProcessC (input : list Z) (ind : Z) : parsed (stage * Z) :=
  match makeProcessC_loop FUEL input ind 0 with
  | Parsed (args, i) =>
      Parsed (args,
              if (i <? BUFFER_SIZE) && (get input i =? ch_pipe)
              then i + 1 else i)
  | Overflow b => Overflow b
  | Unfinished => Unfinished
  end.

(** The loop of [makeProcesses]: lines 292-297. *)
Fixpoint makeProcessesC_from (fuel : nat) (input : list Z) (ind size : Z)
  : parsed pipeline :=
  match fuel with
  | O => Unfinished
  | S fuel' =>
      match makeProcessC input ind with
      | Parsed ([], _) => Parsed []
      | Parsed (currArgs, ind') =>
          if size <? MAX_PROCESSES
          then match makeProcessesC_from fuel' input ind' (size + 1) with
               | Parsed rest => Parsed (currArgs :: rest)
               | Overflow b => Overflow b
               | Unfinished => Unfinished
               end
          else Overflow StagesArray
      | Overflow b => Overflow b
      | Unfinished => Unfinished
      end
  end.

Definition makeProcessesC (input : list Z) : parsed pipeline :=
  makeProcessesC_from FUEL input 0 0.

(** A pipeline whose every part has room in its block: an argument and
    its NUL in [MAX_WORD_LENGTH] bytes, the arguments of a stage and
    their NULL in [MAX_WORDS] slots, the stages in [MAX_PROCESSES]
    slots. *)
Definition arg_fits (a : arg) : bool :=
  Z.of_nat (length a) <? MAX_WORD_LENGTH.

Definition stage_fits (st : stage) : bool :=
  forallb arg_fits st && (Z.of_nat (length st) <? MAX_WORDS).

Definition pipeline_fits (p : pipeline) : bool :=
  forallb stage_fits p && (Z.of_nat (length p) <=? MAX_PROCESSES).

(** ** Processes and the operating system *)

(** The two descriptors of a pipe: [pipes[i][0]] reads, [pipes[i][1]]
    writes. A descriptor of the pipe table is named by its place in it. *)
Inductive End := RD | WR.
Definition fd := (nat * End)%type.

Definition End_eqb (a b : End) : bool :=
  match a, b with
  | RD, RD | WR, WR => true
  | _, _ => false
  end.

Definition fd_eqb (a b : fd) : bool :=
  Nat.eqb (fst a) (fst b) && End_eqb (snd a) (snd b).

(** What a process wrote on standard error and on standard output. *)
Inductive message :=
| Msg (text : string)
| CommandNotFound (prog : list Z). (* jsh error: Command not found: %s *)

Inductive output :=
| Prompt                 (* jsh$ *)
| JshStatus (status : Z). (* jsh status: %d *)

Inductive who := Parent | Child (ind : nat).

Record proc := mkProc {
  self : who;
  open_fds : list fd;         (* pipe descriptors open in this process *)
  stdin_fd : option fd;       (* what dup2 put on STDIN_FILENO, if anything *)
  stdout_fd : option fd;      (* what dup2 put on STDOUT_FILENO, if anything *)
  stderr_out : list message;
  stdout_out : list output
}.

(** The answers of the operating system during one call of [execute]. *)
Record OS := mkOS {
  pipe_ok : nat -> bool;        (* the i-th call of pipe succeeds *)
  fork_ret : nat -> Z;          (* what the i-th fork returns to the parent *)
  close_ok : who -> fd -> bool; (* close of an open descriptor succeeds *)
  dup2_ok : who -> fd -> bool;  (* dup2 of an open descriptor succeeds *)
  execvp_ok : list Z -> bool;   (* the named program is found and runs *)
  program_status : nat -> Z;    (* wait status of stage i's program *)
  finish_order : list nat;      (* the children, in the order they end *)
  waitpid_ok : Z -> bool;       (* waitpid on that pid succeeds *)
  stack_garbage : Z             (* the uninitialised [int status] *)
}.

(** How a run of a process ends: it returns to its caller, calls
    [exit], has its image replaced by [execvp], or waits for ever. *)
Inductive outcome (A : Type) :=
| Ret (a : A) (p : proc)
| Exit (code : Z) (p : proc)
| Exec (prog : list Z) (argv : list (list Z)) (p : proc)
| Block (p : proc).
Arguments Ret {A} a p.
Arguments Exit {A} code p.
Arguments Exec {A} prog argv p.
Arguments Block {A} p.

Definition M (A : Type) : Type := proc -> outcome A.

Definition ret {A} (a : A) : M A := fun p => Ret a p.

Definition bind {A B} (m : M A) (k : A -> M B) : M B :=
  fun p =>
    match m p with
    | Ret a p' => k a p'
    | Exit code p' => Exit code p'
    | Exec prog argv p' => Exec prog argv p'
    | Block p' => Block p'
    end.

Notation "x <- m ;; k" := (bind m (fun x => k))
  (at level 61, m at next level, right associativity).
Notation "m ;;; k" := (bind m (fun _ => k))
  (at level 61, right associativity).

Definition exit {A} (code : Z) : M A := fun p => Exit code p.

Definition eprint (m : message) : M unit :=
  fun p => Ret tt (mkProc (self p) (open_fds p) (stdin_fd p) (stdout_fd p)
                          (stderr_out p ++ [m]) (stdout_out p)).

Definition print (o : output) : M unit :=
  fun p => Ret tt (mkProc (self p) (open_fds p) (stdin_fd p) (stdout_fd p)
                          (stderr_out p) (stdout_out p ++ [o])).

(** [for (int i = 0; i < n; ++i) body]. *)
Fixpoint for_from (i n : nat) (body : nat -> M unit) : M unit :=
  match n with
  | O => ret tt
  | S n' => body i ;;; for_from (S i) n' body
  end.

Definition for_upto (n : nat) (body : nat -> M unit) : M unit :=
  for_from 0 n body.

Definition is_open (d : fd) (p : proc) : bool :=
  existsb (fd_eqb d) (open_fds p).

(** System calls, answering what the C call returns. *)
Definition sys_pipe (os : OS) (i : nat) : M Z :=
  fun p =>
    if pipe_ok os i
    then Ret 0 (mkProc (self p) (open_fds p ++ [(i, RD); (i, WR)])
                       (stdin_fd p) (stdout_fd p)
                       (stderr_out p) (stdout_out p))
    else Ret (-1) p.

Definition sys_close (os : OS) (d : fd) : M Z :=
  fun p =>
    if is_open d p && close_ok os (self p) d
    then Ret 0 (mkProc (self p)
                       (filter (fun d' => negb (fd_eqb d d')) (open_fds p))
                       (stdin_fd p) (stdout_fd p)
                       (stderr_out p) (stdout_out p))
    else Ret (-1) p.

Definition sys_dup2_stdin (os : OS) (d : fd) : M Z :=
  fun p =>
    if is_open d p && dup2_ok os (self p) d
    then Ret 0 (mkProc (self p) (open_fds p) (Some d) (stdout_fd p)
                       (stderr_out p) (stdout_out p))
    else Ret (-1) p.

Definition sys_dup2_stdout (os : OS) (d : fd) : M Z :=
  fun p =>
    if is_open d p && dup2_ok os (self p) d
    then Ret 0 (mkProc (self p) (open_fds p) (stdin_fd p) (Some d)
                       (stderr_out p) (stdout_out p))
    else Ret (-1) p.

(** [execvp(argv[0], argv)]: returns only when it fails. *)
Definition sys_execvp (os : OS) (argv : stage) : M Z :=
  fun p =>
    match argv with
    | [] => Ret (-1) p
    | prog :: _ =>
        if execvp_ok os (cstr prog)
        then Exec (cstr prog) (map cstr argv) p
        else Ret (-1) p
    end.

(** Wait statuses as sys/wait.h encodes them. *)
Definition W_EXITCODE (code : Z) : Z := Z.shiftl (Z.land code 255) 8.
Definition WEXITSTATUS (status : Z) : Z :=
  Z.shiftr (Z.land status 65280) 8.

(** ** Program execution functions *)

(** The body of the loop of [closeUnneededPipes]: lines 258-265. *)
Definition close_step (os : OS) (ind i : nat) : M unit :=
  (if negb (Z.of_nat i =? Z.of_nat ind - 1)
   then r <- sys_close os (i, RD) ;;
        if r =? -1
        then eprint (Msg "Error closing file descriptor") ;;; exit 127
        else ret tt
   else ret tt) ;;;
  (if negb (Z.of_nat i =? Z.of_nat ind)
   then r <- sys_close os (i, WR) ;;
        if r =? -1
        then eprint (Msg "Error closing file descriptor") ;;; exit 127
        else ret tt
   else ret tt).

(** [closeUnneededPipes]: lines 255-267. *)
Definition closeUnneededPipes (os : OS) (size ind : nat) : M unit :=
  for_upto (size - 1) (close_step os ind).

(** [runChild]: lines 141-167. *)
Definition runChild (os : OS) (procs : pipeline) (ind : nat) : M Z :=
  let size := length procs in
  closeUnneededPipes os size ind ;;;
  (if negb (Z.of_nat ind =? 0)
   then r <- sys_dup2_stdin os ((ind - 1)%nat, RD) ;;
        if r =? -1
        then eprint (Msg "IO Duplication Error") ;;; exit 127
        else ret tt
   else ret tt) ;;;
  (if negb (Z.of_nat ind =? Z.of_nat size - 1)
   then r <- sys_dup2_stdout os (ind, WR) ;;
        if r =? -1
        then eprint (Msg "IO Duplication Error") ;;; exit 127
        else ret tt
   else ret tt) ;;;
  sys_execvp os (nth ind procs []) ;;;
  eprint (CommandNotFound (cstr (hd [] (nth ind procs [])))) ;;;
  ret (-1).

(** [makePipes]: lines 226-243. *)
Definition makePipes (os : OS) (size : nat) : M unit :=
  for_upto size (fun i =>
    r <- sys_pipe os i ;;
    if r =? -1
    then eprint (Msg "Pipe Error") ;;; exit EXIT_FAILURE
    else ret tt).

(** The branch of the loop of [execute] taken where [fork] returned 0
    (lines 114-117), in a process that starts as a copy of the parent. *)
Definition child_body (os : OS) (procs : pipeline) (ind : nat) : M unit :=
  r <- runChild os procs ind ;;
  if r =? -1 then exit 127 else ret tt.

Definition initial_proc : proc := mkProc Parent [] None None [] [].

(** What fork gives the child: the descriptors of the parent and the
    buffer of its standard output; what the child writes on standard
    error is counted from the fork. *)
Definition fork_copy (p : proc) (ind : nat) : proc :=
  mkProc (Child ind) (open_fds p) (stdin_fd p) (stdout_fd p)
         [] (stdout_out p).

(** The parent's side of the loop of [execute] (lines 112-122). *)
Definition spawn_all (os : OS) (size : nat) : M unit :=
  for_upto size (fun i =>
    if fork_ret os i <? 0
    then eprint (Msg "Fork Error") ;;; exit EXIT_FAILURE
    else ret tt).

(** The child of stage [ind]: it exists when the parent reached its fork
    and the fork succeeded, and starts from the parent's state there. *)
Definition child (os : OS) (procs : pipeline) (ind : nat)
  : option (outcome unit) :=
  match (makePipes os (length procs) ;;; spawn_all os (S ind)) initial_proc with
  | Ret _ p => Some (child_body os procs ind (fork_copy p ind))
  | _ => None
  end.

(** The wait status the parent collects for stage [ind]. *)
Definition child_status (os : OS) (procs : pipeline) (ind : nat) : Z :=
  match child os procs ind with
  | Some (Exit code _) => W_EXITCODE code
  | _ => program_status os ind
  end.

(** [waitpid(pid, &status, 0)]: [None] for -1, else the status stored. *)
Definition sys_waitpid (os : OS) (procs : pipeline) (pid : Z)
  : M (option Z) :=
  fun p =>
    if waitpid_ok os pid
    then match find (fun j => fork_ret os j =? pid) (finish_order os) with
         | Some j => Ret (Some (child_status os procs j)) p
         | None => Block p
         end
    else Ret None p.

(** The loop of [waitOnProcesses] (lines 183-195), carrying [status]. *)
Fixpoint waitOnProcesses_loop (os : OS) (procs : pipeline)
         (i n : nat) (status : Z) : M Z :=
  match n with
  | O => ret status
  | S n' =>
      r0 <- sys_close os (i, RD) ;;
      failed <- (if r0 =? -1 then ret true
                 else r1 <- sys_close os (i, WR) ;; ret (r1 =? -1)) ;;
      if (failed : bool)
      then eprint (Msg "Error closing file descriptor") ;;; exit EXIT_FAILURE
      else
        w <- sys_waitpid os procs (fork_ret os i) ;;
        match w with
        | None =>
            eprint (Msg "Error waiting for child process to run") ;;;
            exit EXIT_FAILURE
        | Some status' => waitOnProcesses_loop os procs (S i) n' status'
        end
  end.

(** [waitOnProcesses]: lines 179-197. *)
Definition waitOnProcesses (os : OS) (procs : pipeline) (size : nat) : M Z :=
  status <- waitOnProcesses_loop os procs 0 size (stack_garbage os) ;;
  ret (WEXITSTATUS status).

(** [execute], in the parent: lines 104-128. *)
Definition execute (os : OS) (procs : pipeline) : M unit :=
  let size := length procs in
  makePipes os size ;;;
  spawn_all os size ;;;
  status <- waitOnProcesses os procs size ;;
  print (JshStatus status).

(** ** Command loop *)

(** What one call of [fgets] on stdin gives. *)
Inductive fgets_result :=
| Line (input : list Z)
| EndOfInput
| ReadError.

(** What [main] does with the parsed line (lines 82-87); [DoCrash] is the
    read through the NULL first argument of an empty first stage. *)
Inductive action :=
| DoNothing
| DoExit
| DoExecute (procs : pipeline)
| DoCrash.

Definition dispatch (procs : pipeline) : action :=
  match procs with
  | [] => DoNothing
  | [] :: _ => DoCrash
  | (prog :: _) :: _ =>
      if list_eq_dec Z.eq_dec (cstr prog) (chars "exit")
      then DoExit
      else DoExecute procs
  end.

(** How a session ends. *)
Inductive session :=
| Exited (code : Z) (p : proc)
| Crashed (p : proc)
| Hung (p : proc).

(** [main]: lines 63-90. The [n]-th iteration of the loop meets the
    operating system [os_at n]; a stdin that has run out is at its end. *)
Fixpoint main_loop (os_at : nat -> OS) (n : nat)
         (stdin : list fgets_result) (p0 : proc) : session :=
  match print Prompt p0 with
  | Ret _ p =>
      match stdin with
      | [] | EndOfInput :: _ => Exited 1 p
      | ReadError :: _ =>
          match eprint (Msg "Error occured reading from stdin") p with
          | Ret _ p' => Exited 1 p'
          | _ => Hung p
          end
      | Line input :: rest =>
          match makeProcesses input with
          | None => Hung p
          | Some procs =>
              match dispatch procs with
              | DoExit => Exited 0 p
              | DoNothing => main_loop os_at (S n) rest p
              | DoCrash => Crashed p
              | DoExecute procs' =>
                  match execute (os_at n) procs' p with
                  | Ret _ p' => main_loop os_at (S n) rest p'
                  | Exit code p' => Exited code p'
                  | Exec _ _ p' => Hung p'
                  | Block p' => Hung p'
                  end
              end
          end
      end
  | _ => Hung p0
  end.

Definition main (os_at : nat -> OS) (stdin : list fgets_result) : session :=
  main_loop os_at 0 stdin initial_proc.

(** An operating system on which every call succeeds: stage [i] gets pid
    [100 + i], every program is found, and the children end in the order
    [order] with the wait statuses [status]. *)
Definition healthy_os (status : nat -> Z) (order : list nat) : OS :=
  mkOS (fun _ => true) (fun i => 100 + Z.of_nat i)
       (fun _ _ => true) (fun _ _ => true) (fun _ => true)
       status order (fun _ => true) 0.


(** ** Vocabulary of the properties *)

(** Where the source ends an argument: the test of line 362, that is
    [endOfArg] (line 383) or a space. *)
Definition arg_boundary (input : list Z) (p : Z) : Prop :=
  BUFFER_SIZE <= p
  \/ get input p = ch_space
  \/ get input p = ch_newline
  \/ get input p = ch_pipe
  \/ get input p = EOF.

(** Where the specification ends an argument: whitespace (the characters
    of [isspace]: space, tab, newline, vertical tab, form feed, carriage
    return), end of buffer, newline, or the pipe symbol. *)
Definition is_whitespace (c : Z) : bool :=
  (c =? ch_space) || ((9 <=? c) && (c <=? 13)).

Definition spec_arg_boundary (input : list Z) (p : Z) : Prop :=
  is_whitespace (get input p) = true
  \/ BUFFER_SIZE <= p
  \/ get input p = ch_newline
  \/ get input p = ch_pipe.

(** From index [ind] on, the buffer holds only spaces up to a place where
    [endOfArg] holds: the text of the stage that starts at [ind] has no
    argument. This is so at index 0 of a line that begins with a pipe
    symbol, after a pipe symbol that another one follows, and after the
    pipe symbol that ends a line. *)
Definition empty_stage_at (input : list Z) (ind : Z) : Prop :=
  exists e,
    ind <= e
    /\ (forall p, ind <= p < e -> p < BUFFER_SIZE /\ get input p = ch_space)
    /\ endOfArg input e = true.

(** [stages_reach input i pre k]: the calls of [makeProcess] that start at
    index [i] return, one after the other, the stages [pre], none of them
    empty, and leave the index at [k]. *)
Inductive stages_reach (input : list Z) : Z -> pipeline -> Z -> Prop :=
| reach_here : forall i, stages_reach input i [] i
| reach_next : forall i st j rest k,
    makeProcess input i = Some (st, j) ->
    st <> [] ->
    stages_reach input j rest k ->
    stages_reach input i (st :: rest) k.

(** The descriptors of the pipes 0 .. n-1, in the order [makePipes] opens
    them. *)
Definition all_fds (n : nat) : list fd :=
  flat_map (fun i => [(i, RD); (i, WR)]) (seq 0 n).

(** The descriptors stage [ind] uses: the read end of pipe [ind - 1] and
    the write end of pipe [ind]. *)
Definition needed (ind : nat) (d : fd) : bool :=
  ((Z.of_nat (fst d) =? Z.of_nat ind - 1) && End_eqb (snd d) RD)
  || (Nat.eqb (fst d) ind && End_eqb (snd d) WR).

(** The descriptors still open in the child of stage [ind] once the loop
    of [closeUnneededPipes] has passed the pipes below [k]. *)
Definition kept_from (k ind : nat) (d : fd) : bool :=
  Nat.leb k (fst d) || needed ind d.

(** The state in which the child of stage [ind], of [size] stages, calls
    [execvp] when every call before it succeeded. *)
Definition wired (size ind : nat) : proc :=
  mkProc (Child ind)
         (filter (kept_from (size - 1) ind) (all_fds size))
         (if Nat.eqb ind 0 then None else Some ((ind - 1)%nat, RD))
         (if Nat.eqb ind (size - 1) then None else Some (ind, WR))
         [] [].

(** Conditions on the answers of the operating system, for a pipeline of
    [size] stages. *)
Definition pipes_ok (os : OS) (size : nat) : Prop :=
  forall i, (i < size)%nat -> pipe_ok os i = true.

Definition forks_ok (os : OS) (size : nat) : Prop :=
  forall i, (i < size)%nat -> 0 < fork_ret os i.

Definition parent_closes_ok (os : OS) (size : nat) : Prop :=
  forall i e, (i < size)%nat -> close_ok os Parent (i, e) = true.

Definition waits_ok (os : OS) (size : nat) : Prop :=
  forall i, (i < size)%nat -> waitpid_ok os (fork_ret os i) = true.

Definition distinct_pids (os : OS) (size : nat) : Prop :=
  forall i j, (i < size)%nat -> (j < size)%nat ->
              fork_ret os i = fork_ret os j -> i = j.

Definition parent_healthy (os : OS) (size : nat) : Prop :=
  pipes_ok os size /\ forks_ok os size /\ parent_closes_ok os size
  /\ waits_ok os size /\ distinct_pids os size.

Definition child_healthy (os : OS) (ind : nat) : Prop :=
  (forall d, close_ok os (Child ind) d = true)
  /\ (forall d, dup2_ok os (Child ind) d = true).

(** Every child ends, in some order. *)
Definition all_finish (os : OS) (size : nat) : Prop :=
  forall i, (i < size)%nat -> In i (finish_order os).

(** Some call the parent makes for the pipeline is answered by a failure. *)
Definition parent_failure (os : OS) (size : nat) : Prop :=
  exists i, (i < size)%nat
    /\ (pipe_ok os i = false
        \/ fork_ret os i < 0
        \/ close_ok os Parent (i, RD) = false
        \/ close_ok os Parent (i, WR) = false
        \/ waitpid_ok os (fork_ret os i) = false).

(** Some close or dup2 the child of stage [ind] makes is answered by a
    failure. *)
Definition child_failure (os : OS) (size ind : nat) : Prop :=
  (exists i, (i < size - 1)%nat
     /\ (((i + 1)%nat <> ind /\ close_ok os (Child ind) (i, RD) = false)
         \/ (i <> ind /\ close_ok os (Child ind) (i, WR) = false)))
  \/ (ind <> 0%nat /\ dup2_ok os (Child ind) ((ind - 1)%nat, RD) = false)
  \/ (ind <> (size - 1)%nat /\ dup2_ok os (Child ind) (ind, WR) = false).

(** The status [waitpid] stores for the pid of stage [i]: that of the
    first child, in the order they end, that bears this pid. *)
Definition waited_status (os : OS) (procs : pipeline) (i : nat) : Z :=
  match find (fun j => fork_ret os j =? fork_ret os i) (finish_order os) with
  | Some j => child_status os procs j
  | None => 0
  end.

(** The parent between two rounds of the loop of [waitOnProcesses], the
    pipes below [i] closed. *)
Definition waiting (size i : nat) : proc :=
  mkProc Parent (filter (fun d => Nat.leb i (fst d)) (all_fds size))
         None None [] [].

(** The exit status of stage [ind]: what WEXITSTATUS takes from the wait
    status of its child. *)
Definition exit_status (os : OS) (procs : pipeline) (ind : nat) : Z :=
  WEXITSTATUS (child_status os procs ind).

(** The children that end are those of the stages 0 .. size-1. *)
Definition finish_complete (os : OS) (size : nat) : Prop :=
  forall i, In i (finish_order os) <-> (i < size)%nat.

(** The child of stage [ind] when [execute] is entered in the state
    [p0]; [child] is the case where the parent has nothing in the buffer
    of its standard output. *)
Definition child_of (p0 : proc) (os : OS) (procs : pipeline) (ind : nat)
  : option (outcome unit) :=
  match (makePipes os (length procs) ;;; spawn_all os (S ind)) p0 with
  | Ret _ p => Some (child_body os procs ind (fork_copy p ind))
  | _ => None
  end.

(** What a process writes as it ends, and where: exit writes out the
    buffer of standard output to the descriptor standard output then is
    ([None]: the one the shell was started with); a process whose image
    is replaced writes nothing, the buffer goes with the image. *)
Definition written_at_exit {A : Type} (out : outcome A)
  : option (option fd * list output) :=
  match out with
  | Exit _ p => Some (stdout_fd p, stdout_out p)
  | _ => None
  end.

(** The state of a process after it printed the prompt. *)
Definition prompted (p : proc) : proc :=
  mkProc (self p) (open_fds p) (stdin_fd p) (stdout_fd p)
         (stderr_out p) (stdout_out p ++ [Prompt]).

Definition nosuch_cat : pipeline :=
  [[chars "nosuchprog123"]; [chars "cat"]].

(** Inputs used below. *)
Definition ls_only : pipeline := [[chars "ls"]].

Definition ls_wc : pipeline := [[chars "ls"]; [chars "wc"]].

Definition printf_tr_rev : pipeline :=
  [[chars "printf"; chars "foo"];
   [chars "tr"; chars "a-z"; chars "A-Z"];
   [chars "rev"]].

Definition ls_nosuch_wc : pipeline :=
  [[chars "ls"]; [chars "nosuchprog123"]; [chars "wc"; chars "-l"]].

(** Every call succeeds but the dup2 calls of the child of stage 1. *)
Definition os_dup2_fails : OS :=
  mkOS (fun _ => true) (fun i => 100 + Z.of_nat i)
       (fun _ _ => true)
       (fun w _ => match w with Child 1 => false | _ => true end)
       (fun _ => true) (fun _ => 0) [0; 1]%nat (fun _ => true) 0.

(** Every call succeeds but the second call of pipe. *)
Definition os_pipe_fails : OS :=
  mkOS (fun i => negb (Nat.eqb i 1)) (fun i => 100 + Z.of_nat i)
       (fun _ _ => true) (fun _ _ => true)
       (fun _ => true) (fun _ => 0) [0; 1]%nat (fun _ => true) 0.

(** Every call succeeds, and every program is found but nosuchprog123;
    the programs that run end with status 0, the last stage first. *)
Definition os_no_such_prog : OS :=
  mkOS (fun _ => true) (fun i => 100 + Z.of_nat i)
       (fun _ _ => true) (fun _ _ => true)
       (fun name =>
          if list_eq_dec Z.eq_dec name (chars "nosuchprog123")
          then false else true)
       (fun _ => 0) [2; 0; 1]%nat (fun _ => true) 0.

Definition tab_line : list Z := buffer_of [97; ch_tab; 98; ch_newline].

Definition long_word_line : list Z :=
  buffer_of (repeat 97 150 ++ [ch_newline]).

Definition many_words_line : list Z :=
  buffer_of (concat (repeat [97; ch_space] 600) ++ [ch_newline]).

Definition many_stages_line : list Z :=
  buffer_of (concat (repeat [97; ch_pipe] 1001) ++ [ch_newline]).


(** ** Vocabulary of the further properties *)

(** How a run in the parent may end: it returns, waits for ever, or calls
    exit with [EXIT_FAILURE]; its image is never replaced. *)
Definition parent_outcome {A : Type} (out : outcome A) : Prop :=
  match out with
  | Ret _ _ => True
  | Exit code _ => code = EXIT_FAILURE
  | Exec _ _ _ => False
  | Block _ => True
  end.

(** How a step of [runChild] before [execvp] may end: it returns or calls
    exit with 127. *)
Definition child_step_outcome {A : Type} (out : outcome A) : Prop :=
  match out with
  | Ret _ _ => True
  | Exit code _ => code = 127
  | Exec _ _ _ => False
  | Block _ => False
  end.

(** How [runChild] on the stage [st] may end: it returns -1, calls exit
    with 127, or replaces the image by the program named by the first
    argument of [st], passing it the arguments of [st]. *)
Definition runChild_outcome (st : stage) (out : outcome Z) : Prop :=
  match out with
  | Ret r _ => r = -1
  | Exit code _ => code = 127
  | Exec prog argv _ =>
      exists w ws, st = w :: ws /\ prog = cstr w /\ argv = map cstr st
  | Block _ => False
  end.

(** The buffers [input] and [input'] hold the same characters at every
    index of the buffer up to [e]. *)
Definition agree_upto (e : Z) (input input' : list Z) : Prop :=
  forall i, 0 <= i <= e -> i < BUFFER_SIZE -> get input i = get input' i.

(** Index [e] ends the line held by [input]: it is past the buffer, or
    holds a newline or a character equal to EOF. *)
Definition line_end (input : list Z) (e : Z) : Prop :=
  0 <= e
  /\ (BUFFER_SIZE <= e \/ get input e = ch_newline \/ get input e = EOF).

(** A character that no argument holds. *)
Definition separator (c : Z) : Prop :=
  c = ch_space \/ c = ch_newline \/ c = ch_pipe \/ c = EOF.

(** A stage as it is typed: its words, each with the number of spaces
    typed before it, and the number of spaces typed after the last word. *)
Definition typed_stage : Type := (list (nat * arg) * nat)%type.

Definition words_of (s : typed_stage) : stage := map snd (fst s).

Definition render_words (l : list (nat * arg)) : list Z :=
  concat (map (fun nw => repeat ch_space (fst nw) ++ snd nw) l).

Definition render_stage (s : typed_stage) : list Z :=
  render_words (fst s) ++ repeat ch_space (snd s).

(** The line typed for the stages [ss]: pipe symbols between the stages
    and a newline at the end. *)
Fixpoint render_line (ss : list typed_stage) : list Z :=
  match ss with
  | [] => [ch_newline]
  | s :: ss' =>
      render_stage s
      ++ match ss' with
         | [] => render_line ss'
         | _ :: _ => ch_pipe :: render_line ss'
         end
  end.

(** A word holds at least one character and no separator. *)
Definition word_ok (nw : nat * arg) : Prop :=
  snd nw <> [] /\ Forall (fun c => ~ separator c) (snd nw).

(** A stage has at least one word, and a space at least between two
    words. *)
Definition stage_ok (s : typed_stage) : Prop :=
  fst s <> []
  /\ Forall word_ok (fst s)
  /\ Forall (fun nw => (1 <= fst nw)%nat) (tl (fst s)).

(** The buffer holds the characters [l] from index [ind] on. *)
Definition holds (input : list Z) (ind : Z) (l : list Z) : Prop :=
  forall k, (k < length l)%nat -> get input (ind + Z.of_nat k) = nth k l 0.

Definition echo_hi_cat_typed : list typed_stage :=
  [([(0%nat, chars "echo"); (2%nat, chars "hi")], 1%nat);
   ([(3%nat, chars "cat")], 0%nat)].

Definition ls_wc_nosuch : pipeline :=
  [[chars "ls"]; [chars "wc"]; [chars "nosuchprog123"]].

(** ** Allocated memory *)

(** The blocks [malloc] returned and [free] has not yet taken back. A
    block is named by its rank among the allocations; [malloc] is taken
    to succeed (the source stops on [assert] otherwise). The heap keeps
    no sizes: the stores into a block are checked against the size the
    source gave it where they are made, in the parser. *)
Record heap := mkHeap {
  next_block : nat;
  live : list nat
}.

(** A run on the heap ends well, or by a fault (a block freed that is
    not live, a read through NULL), or out of fuel. *)
Inductive hres (A : Type) :=
| HOk (a : A) (h : heap)
| HFault
| HNoFuel.
Arguments HOk {A} a h.
Arguments HFault {A}.
Arguments HNoFuel {A}.

Definition HM (A : Type) : Type := heap -> hres A.

Definition hret {A} (a : A) : HM A := fun h => HOk a h.

Definition hbind {A B} (m : HM A) (k : A -> HM B) : HM B :=
  fun h =>
    match m h with
    | HOk a h' => k a h'
    | HFault => HFault
    | HNoFuel => HNoFuel
    end.

Notation "x <-- m ;; k" := (hbind m (fun x => k))
  (at level 61, m at next level, right associativity).

Definition malloc : HM nat :=
  fun h => HOk (next_block h)
               (mkHeap (S (next_block h)) (next_block h :: live h)).

Definition free (b : nat) : HM unit :=
  fun h =>
    if existsb (Nat.eqb b) (live h)
    then HOk tt (mkHeap (next_block h)
                        (filter (fun x => negb (Nat.eqb b x)) (live h)))
    else HFault.

(** An argument with its block; a stage with the block of its array and
    the arguments the array holds before its NULL; [struct Processes],
    whose [args] is NULL or the block of the array of stages with the
    stages stored in it. *)
Definition argH : Type := (nat * arg)%type.
Definition stageH : Type := (nat * list argH)%type.

Record Prcs := mkPrcs {
  Prcs_args : option (nat * list stageH);
  Prcs_size : nat
}.

(** The pipeline a [struct Processes] holds. *)
Definition stage_of (st : stageH) : stage := map snd (snd st).

Definition pipeline_of (P : Prcs) : pipeline :=
  match Prcs_args P with
  | Some (_, stages) => map stage_of stages
  | None => []
  end.

(** A run of the parser with the sizes of its blocks, on the heap: a
    store that leaves its block is a fault. *)
Definition of_parsed {A} (r : parsed A) : HM A :=
  fun h =>
    match r with
    | Parsed a => HOk a h
    | Overflow _ => HFault
    | Unfinished => HNoFuel
    end.

(** [makeArgument] with its allocation: line 357, then the loop. *)
Definition makeArgumentH (input : list Z) (ind : Z) : HM (argH * Z) :=
  b <-- malloc ;;
  r <-- of_parsed (makeArgumentC input ind) ;;
  hret ((b, fst r), snd r).

(** The outer loop of [makeProcess] with the allocations of its
    arguments and the stores into the array of the stage. *)
Fixpoint makeProcessH_loop (fuel : nat) (input : list Z) (ind numWords : Z)
  : HM (list argH * Z) :=
  match fuel with
  | O => fun _ => HNoFuel
  | S fuel' =>
      if negb (endOfArg input ind)
      then match skipSpaces FUEL input ind with
           | None => fun _ => HNoFuel
           | Some i1 =>
               if negb (endOfArg input i1)
               then r <-- makeArgumentH input i1 ;;
                    if numWords <? MAX_WORDS
                    then rest <-- makeProcessH_loop fuel' input (snd r)
                                                    (numWords + 1) ;;
                         hret (fst r :: fst rest, snd rest)
                    else fun _ => HFault
               else makeProcessH_loop fuel' input i1 numWords
           end
      else if numWords <? MAX_WORDS
           then hret ([], ind)
           else fun _ => HFault
  end.

(** [makeProcess] with its allocations: line 317, then the loop. *)
Definition makeProcessH (input : list Z) (ind : Z) : HM (stageH * Z) :=
  b <-- malloc ;;
  r <-- makeProcessH_loop FUEL input ind 0 ;;
  hret ((b, fst r),
        if (snd r <? BUFFER_SIZE) && (get input (snd r) =? ch_pipe)
        then snd r + 1 else snd r).

(** The loop of [makeProcesses] with its stores into the array of
    stages, and the [free] that follows it (lines 292-298). *)
Fixpoint makeProcessesH_from (fuel : nat) (input : list Z) (ind size : Z)
  : HM (list stageH) :=
  match fuel with
  | O => fun _ => HNoFuel
  | S fuel' =>
      r <-- makeProcessH input ind ;;
      match snd (fst r) with
      | [] => u <-- free (fst (fst r)) ;; hret []
      | _ :: _ =>
          if size <? MAX_PROCESSES
          then rest <-- makeProcessesH_from fuel' input (snd r) (size + 1) ;;
               hret (fst r :: rest)
          else fun _ => HFault
      end
  end.

(** [makeProcesses] with its allocations: lines 283-302. *)
Definition makeProcessesH (input : list Z) : HM Prcs :=
  b <-- malloc ;;
  stages <-- makeProcessesH_from FUEL input 0 0 ;;
  hret (mkPrcs (Some (b, stages)) (length stages)).

Fixpoint free_all (bs : list nat) : HM unit :=
  match bs with
  | [] => hret tt
  | b :: bs' => u <-- free b ;; free_all bs'
  end.

(** The body of the loop of [freeProcesses]: lines 399-404. *)
Definition free_stage (st : stageH) : HM unit :=
  u <-- free_all (map fst (snd st)) ;; free (fst st).

Fixpoint free_stages (sts : list stageH) : HM unit :=
  match sts with
  | [] => hret tt
  | st :: sts' => u <-- free_stage st ;; free_stages sts'
  end.

(** [freeProcesses]: lines 395-411. With [args] NULL the loop reads
    through NULL unless [size] is 0, and [free(NULL)] does nothing. *)
Definition freeProcesses (P : Prcs) : HM Prcs :=
  match Prcs_args P with
  | Some (b, stages) =>
      if Nat.leb (Prcs_size P) (length stages)
      then u <-- free_stages (firstn (Prcs_size P) stages) ;;
           v <-- free b ;;
           hret (mkPrcs None 0)
      else fun _ => HFault
  | None =>
      match Prcs_size P with
      | O => hret (mkPrcs None 0)
      | S _ => fun _ => HFault
      end
  end.

(** [makePipes] as to memory: lines 229 and 234. *)
Fixpoint malloc_each (n : nat) : HM (list nat) :=
  match n with
  | O => hret []
  | S n' => b <-- malloc ;; bs <-- malloc_each n' ;; hret (b :: bs)
  end.

Definition makePipesH (size : nat) : HM (nat * list nat) :=
  pipes <-- malloc ;;
  each <-- malloc_each size ;;
  hret (pipes, each).

(** [freePipesAndPids]: lines 209-216. *)
Definition freePipesAndPids (pipes : nat * list nat) (pids : nat)
           (size : nat) : HM unit :=
  if Nat.leb size (length (snd pipes))
  then u <-- free_all (firstn size (snd pipes)) ;;
       v <-- free (fst pipes) ;;
       free pids
  else fun _ => HFault.

(** The memory [execute] takes and gives back on the path where it
    returns: lines 107-108 and 126. *)
Definition executeH (P : Prcs) : HM unit :=
  pipes <-- makePipesH (Prcs_size P) ;;
  pids <-- malloc ;;
  freePipesAndPids pipes pids (Prcs_size P).

(** The memory of one round of the loop of [main] that comes back to the
    prompt or ends on exit: lines 79-88. *)
Definition main_roundH (input : list Z) : HM Prcs :=
  P <-- makeProcessesH input ;;
  u <-- match dispatch (pipeline_of P) with
        | DoExecute _ => executeH P
        | _ => hret tt
        end ;;
  freeProcesses P.

(** The memory of the child whose program is not found: lines 107-108
    in the parent it copies, then lines 115-116. *)
Definition child_not_foundH (P : Prcs) : HM Prcs :=
  pipes <-- makePipesH (Prcs_size P) ;;
  pids <-- malloc ;;
  u <-- freePipesAndPids pipes pids (Prcs_size P) ;;
  freeProcesses P.

(** Every live block was handed out by [malloc]. *)
Definition heap_ok (h : heap) : Prop :=
  forall b, In b (live h) -> (b < next_block h)%nat.

(** Every line the session may read parses inside its blocks. *)
Definition lines_fit (stdin : list fgets_result) : Prop :=
  forall input, In (Line input) stdin ->
                exists p, makeProcessesC input = Parsed p.

(** [reaches os_at n stdin p n' stdin' p']: the loop of [main], at its
    round [n] with [stdin] still to read and in the state [p], comes to
    its round [n'] with [stdin'] still to read and in the state [p'],
    every round between the two having come back to the prompt. *)
Inductive reaches (os_at : nat -> OS)
  : nat -> list fgets_result -> proc ->
    nat -> list fgets_result -> proc -> Prop :=
| reaches_here : forall n stdin p, reaches os_at n stdin p n stdin p
| reaches_blank : forall n input rest p procs n' stdin' p',
    makeProcesses input = Some procs ->
    dispatch procs = DoNothing ->
    reaches os_at (S n) rest (prompted p) n' stdin' p' ->
    reaches os_at n (Line input :: rest) p n' stdin' p'
| reaches_run : forall n input rest p procs p1 n' stdin' p',
    makeProcesses input = Some procs ->
    dispatch procs = DoExecute procs ->
    execute (os_at n) procs (prompted p) = Ret tt p1 ->
    reaches os_at (S n) rest p1 n' stdin' p' ->
    reaches os_at n (Line input :: rest) p n' stdin' p'.

(** * Properties *)

(** ** The argument parser finishes and what it returns *)

Lemma endOfArg_true_iff (input : list Z) (ind : Z) :
  endOfArg input ind = true <->
  BUFFER_SIZE <= ind \/ get input ind = ch_newline
  \/ get input ind = EOF \/ get input ind = ch_pipe.
Proof.
  unfold endOfArg. rewrite !orb_true_iff, Z.leb_le, !Z.eqb_eq. tauto.
Qed.

Lemma endOfArg_false_lt (input : list Z) (ind : Z) :
  endOfArg input ind = false -> ind < BUFFER_SIZE.
Proof.
  unfold endOfArg. intros H.
  destruct (BUFFER_SIZE <=? ind) eqn:E; [discriminate | ].
  apply Z.leb_gt in E. exact E.
Qed.

Lemma FUEL_enough (ind : Z) :
  0 <= ind -> Z.max 0 (BUFFER_SIZE - ind) < Z.of_nat FUEL.
Proof.
  intros H. unfold FUEL, BUFFER_SIZE. rewrite Z2Nat.id by lia. lia.
Qed.

(** The loops of the parser on one buffer. *)
Section Parser.

Variable input : list Z.

(** The loop of [makeArgument] ends, on a space or where [endOfArg] holds,
    having stored the characters it passed. *)
Lemma makeArgument_loop_total :
  forall (fuel : nat) (ind : Z),
    Z.max 0 (BUFFER_SIZE - ind) < Z.of_nat fuel ->
    exists a j,
      makeArgument_loop fuel input ind = Some (a, j)
      /\ j = ind + Z.of_nat (length a)
      /\ (forall k, (k < length a)%nat ->
            nth k a 0 = get input (ind + Z.of_nat k)
            /\ endOfArg input (ind + Z.of_nat k) = false
            /\ get input (ind + Z.of_nat k) <> ch_space)
      /\ (endOfArg input j = true \/ get input j = ch_space).
Proof.
  induction fuel as [ | fuel IH]; intros ind Hfuel; [lia | ].
  cbn [makeArgument_loop].
  destruct (endOfArg input ind) eqn:Eend.
  - exists [], ind. cbn. repeat split; try lia; auto; intros k Hk; inversion Hk.
  - destruct (get input ind =? ch_space) eqn:Esp; cbn [negb andb].
    + exists [], ind. cbn. apply Z.eqb_eq in Esp.
      repeat split; try lia; auto; intros k Hk; inversion Hk.
    + pose proof (endOfArg_false_lt _ _ Eend) as Hlt.
      destruct (IH (ind + 1)) as (a & j & Hrun & Hj & Hchars & Hstop); [lia | ].
      rewrite Hrun. exists (get input ind :: a), j.
      split; [reflexivity | ]. split; [cbn [length]; lia | ]. split; [ | exact Hstop].
      intros [ | k] Hk.
      * cbn [nth]. rewrite Z.add_0_r. apply Z.eqb_neq in Esp. auto.
      * cbn [length] in Hk. cbn [nth].
        replace (ind + Z.of_nat (S k)) with (ind + 1 + Z.of_nat k) by lia.
        apply Hchars. lia.
Qed.

Lemma skipSpaces_total :
  forall (fuel : nat) (ind : Z),
    Z.max 0 (BUFFER_SIZE - ind) < Z.of_nat fuel ->
    exists j,
      skipSpaces fuel input ind = Some j
      /\ ind <= j
      /\ (forall p, ind <= p < j ->
            endOfArg input p = false /\ get input p = ch_space)
      /\ (endOfArg input j = true \/ get input j <> ch_space).
Proof.
  induction fuel as [ | fuel IH]; intros ind Hfuel; [lia | ].
  cbn [skipSpaces].
  destruct (endOfArg input ind) eqn:Eend; cbn [negb andb].
  - exists ind. repeat split; try lia; auto.
  - destruct (get input ind =? ch_space) eqn:Esp.
    + pose proof (endOfArg_false_lt _ _ Eend) as Hlt.
      destruct (IH (ind + 1)) as (j & Hrun & Hle & Hsp & Hstop); [lia | ].
      exists j. split; [exact Hrun | ]. split; [lia | ]. split; [ | exact Hstop].
      intros p Hp. destruct (Z.eq_dec p ind) as [-> | Hne].
      * apply Z.eqb_eq in Esp. auto.
      * apply Hsp. lia.
    + exists ind. apply Z.eqb_neq in Esp. repeat split; try lia; auto.
Qed.

(** A stage as [makeProcess] leaves it: arguments that are not empty. *)
Lemma makeProcess_loop_total :
  forall (fuel : nat) (ind : Z),
    0 <= ind ->
    Z.max 0 (BUFFER_SIZE - ind) < Z.of_nat fuel ->
    exists args j,
      makeProcess_loop fuel input ind = Some (args, j)
      /\ ind <= j
      /\ endOfArg input j = true
      /\ Forall (fun a => a <> []) args
      /\ (args <> [] -> ind < j)
      /\ (args = [] ->
          forall p, ind <= p < j ->
            endOfArg input p = false /\ get input p = ch_space).
Proof.
  induction fuel as [ | fuel IH]; intros ind Hind Hfuel; [lia | ].
  cbn [makeProcess_loop].
  destruct (endOfArg input ind) eqn:Eend; cbn [negb].
  - exists [], ind. repeat split; try lia; auto. congruence.
  - pose proof (endOfArg_false_lt _ _ Eend) as Hlt.
    destruct (skipSpaces_total FUEL ind (FUEL_enough ind Hind))
      as (i1 & Hskip & Hle1 & Hsp & Hstop1).
    rewrite Hskip.
    destruct (endOfArg input i1) eqn:Eend1; cbn [negb].
    + assert (ind < i1).
      { destruct (Z.eq_dec ind i1) as [-> | ]; [congruence | lia]. }
      destruct (IH i1) as (args & j & Hrun & Hle & Hend & Hne & Hlt' & Hall);
        [lia | lia | ].
      exists args, j. split; [exact Hrun | ]. split; [lia | ].
      split; [exact Hend | ]. split; [exact Hne | ]. split; [lia | ].
      intros Hnil p Hp. destruct (Z_lt_le_dec p i1).
      * apply Hsp. lia.
      * apply Hall; [exact Hnil | lia].
    + destruct Hstop1 as [Hstop1 | Hstop1]; [congruence | ].
      unfold makeArgument.
      destruct (makeArgument_loop_total FUEL i1 (FUEL_enough i1 ltac:(lia)))
        as (a & i2 & Harg & Hi2 & Hchars & Hstop2).
      rewrite Harg.
      assert (Ha : a <> []).
      { intros ->. cbn in Hi2. rewrite Z.add_0_r in Hi2. subst i2.
        destruct Hstop2; congruence. }
      assert (i1 < i2).
      { destruct a; [congruence | ]. cbn [length] in Hi2. lia. }
      destruct (IH i2) as (args & j & Hrun & Hle & Hend & Hne & _ & _);
        [lia | lia | ].
      rewrite Hrun. exists (a :: args), j.
      split; [reflexivity | ]. split; [lia | ]. split; [exact Hend | ].
      split; [constructor; assumption | ]. split; [lia | ]. discriminate.
Qed.

Lemma makeProcess_total (ind : Z) :
  0 <= ind ->
  exists args j,
    makeProcess input ind = Some (args, j)
    /\ ind <= j
    /\ Forall (fun a => a <> []) args
    /\ (args <> [] -> ind < j /\ ind < BUFFER_SIZE)
    /\ (args = [] ->
        exists e, ind <= e /\ endOfArg input e = true
          /\ forall p, ind <= p < e ->
               endOfArg input p = false /\ get input p = ch_space).
Proof.
  intros Hind. unfold makeProcess.
  destruct (makeProcess_loop_total FUEL ind Hind (FUEL_enough ind Hind))
    as (args & j & Hrun & Hle & Hend & Hne & Hlt & Hall).
  rewrite Hrun.
  exists args, (if (j <? BUFFER_SIZE) && (get input j =? ch_pipe)
                then j + 1 else j).
  split; [reflexivity | ].
  assert (Hj : j <= (if (j <? BUFFER_SIZE) && (get input j =? ch_pipe)
                     then j + 1 else j)).
  { destruct ((j <? BUFFER_SIZE) && (get input j =? ch_pipe)); lia. }
  split; [lia | ]. split; [exact Hne | ]. split.
  - intros Hargs. specialize (Hlt Hargs). split; [lia | ].
    destruct (Z_lt_le_dec ind BUFFER_SIZE) as [ | Hge]; [assumption | ].
    exfalso. revert Hrun. unfold FUEL.
    destruct (Z.to_nat (BUFFER_SIZE + 2)) eqn:Ef; [discriminate | ].
    cbn [makeProcess_loop].
    assert (Eend : endOfArg input ind = true).
    { apply endOfArg_true_iff. left. exact Hge. }
    rewrite Eend. cbn [negb]. intros [= <- _]. congruence.
  - intros Hargs. exists j. auto.
Qed.

Lemma makeProcesses_from_total :
  forall (fuel : nat) (ind : Z),
    0 <= ind ->
    Z.max 0 (BUFFER_SIZE - ind) < Z.of_nat fuel ->
    exists procs,
      makeProcesses_from fuel input ind = Some procs
      /\ Forall (fun st => st <> [] /\ Forall (fun a => a <> []) st) procs.
Proof.
  induction fuel as [ | fuel IH]; intros ind Hind Hfuel; [lia | ].
  cbn [makeProcesses_from].
  destruct (makeProcess_total ind Hind)
    as (args & j & Hrun & Hle & Hne & Hadv & _).
  rewrite Hrun. destruct args as [ | a args].
  - exists []. split; [reflexivity | constructor].
  - destruct Hadv as [Hlt Hbuf]; [discriminate | ].
    destruct (IH j) as (rest & Hrest & Hall); [lia | lia | ].
    rewrite Hrest. exists ((a :: args) :: rest). split; [reflexivity | ].
    constructor; [ | exact Hall]. split; [discriminate | exact Hne].
Qed.

Lemma makeProcesses_total :
  exists procs,
    makeProcesses input = Some procs
    /\ Forall (fun st => st <> [] /\ Forall (fun a => a <> []) st) procs.
Proof.
  unfold makeProcesses.
  apply makeProcesses_from_total; [lia | apply FUEL_enough; lia].
Qed.

End Parser.

(** ** Argument boundaries *)

Lemma arg_boundary_iff (input : list Z) (p : Z) :
  arg_boundary input p <->
  (endOfArg input p = true \/ get input p = ch_space).
Proof.
  unfold arg_boundary. rewrite endOfArg_true_iff. tauto.
Qed.

(** C9, as the source has it. Reading an argument at any index of the
    buffer returns; the argument is made of the characters from that index
    up to the first index that is at or past the end of the buffer or
    holds a space, a newline, the pipe symbol or a character equal to EOF;
    no index before that one is such a boundary, and an index inside the
    buffer that holds a tab is not a boundary. *)
Theorem makeArgument_stops_at_boundary (input : list Z) (ind : Z) :
  0 <= ind ->
  exists a j,
    makeArgument input ind = Some (a, j)
    /\ j = ind + Z.of_nat (length a)
    /\ (forall p, ind <= p < j ->
          ~ arg_boundary input p
          /\ nth (Z.to_nat (p - ind)) a 0 = get input p)
    /\ arg_boundary input j
    /\ (forall p, p < BUFFER_SIZE -> get input p = ch_tab ->
          ~ arg_boundary input p).
Proof.
  intros Hind. unfold makeArgument.
  destruct (makeArgument_loop_total input FUEL ind (FUEL_enough ind Hind))
    as (a & j & Hrun & Hj & Hchars & Hstop).
  exists a, j. split; [exact Hrun | ]. split; [exact Hj | ].
  split; [ | split].
  - intros p Hp.
    destruct (Hchars (Z.to_nat (p - ind))) as (Hnth & Hend & Hsp); [lia | ].
    rewrite Z2Nat.id in * by lia.
    replace (ind + (p - ind)) with p in * by lia.
    split; [ | exact Hnth].
    rewrite arg_boundary_iff. intros [H | H]; congruence.
  - apply arg_boundary_iff. exact Hstop.
  - intros p Hp Htab. unfold arg_boundary. rewrite Htab.
    unfold ch_tab, ch_space, ch_newline, ch_pipe, EOF. lia.
Qed.

Lemma makeArgument_stops_at_boundary_witness :
  exists a j,
    makeArgument (line "ls -l") 0 = Some (a, j)
    /\ j = 0 + Z.of_nat (length a)
    /\ (forall p, 0 <= p < j ->
          ~ arg_boundary (line "ls -l") p
          /\ nth (Z.to_nat (p - 0)) a 0 = get (line "ls -l") p)
    /\ arg_boundary (line "ls -l") j
    /\ (forall p, p < BUFFER_SIZE -> get (line "ls -l") p = ch_tab ->
          ~ arg_boundary (line "ls -l") p).
Proof.
  apply (makeArgument_stops_at_boundary (line "ls -l") 0). lia.
Defined.

(** C9, as the specification words it, fails on a tab: index 1 of the
    buffer of the line a<TAB>b holds a whitespace character, yet the
    argument read from index 0 runs through it and ends at index 3. *)
Lemma tab_does_not_end_argument :
  spec_arg_boundary tab_line 1
  /\ makeArgument tab_line 0 = Some ([97; ch_tab; 98], 3)
  /\ ~ (exists a, makeArgument tab_line 0 = Some (a, 1)).
Proof.
  split; [left; vm_compute; reflexivity | ].
  assert (E : makeArgument tab_line 0 = Some ([97; ch_tab; 98], 3))
    by (vm_compute; reflexivity).
  split; [exact E | ].
  intros [a Ha]. rewrite E in Ha. discriminate.
Qed.

(** ** Stages without arguments *)

Lemma empty_stage_not_end (input : list Z) (p : Z) :
  p < BUFFER_SIZE -> get input p = ch_space -> endOfArg input p = false.
Proof.
  intros Hp Hsp. unfold endOfArg. rewrite Hsp.
  destruct (BUFFER_SIZE <=? p) eqn:E; [apply Z.leb_le in E; lia | ].
  reflexivity.
Qed.

Lemma makeProcess_loop_empty (input : list Z) (ind e : Z) (fuel : nat) :
  (2 <= fuel)%nat ->
  0 <= ind -> ind <= e ->
  (forall p, ind <= p < e -> p < BUFFER_SIZE /\ get input p = ch_space) ->
  endOfArg input e = true ->
  makeProcess_loop fuel input ind = Some ([], e).
Proof.
  intros Hfuel Hind Hle Hsp Hend.
  destruct fuel as [ | [ | fuel]]; try lia.
  cbn [makeProcess_loop].
  destruct (endOfArg input ind) eqn:Eind; cbn [negb].
  - destruct (Z.eq_dec ind e) as [-> | Hne]; [reflexivity | ].
    destruct (Hsp ind) as [Hlt Hs]; [lia | ].
    rewrite (empty_stage_not_end _ _ Hlt Hs) in Eind. discriminate.
  - destruct (skipSpaces_total input FUEL ind (FUEL_enough ind Hind))
      as (i1 & Hskip & Hle1 & Hsk & Hstop).
    rewrite Hskip.
    assert (i1 = e) as ->.
    { destruct (Z_lt_le_dec i1 e) as [Hlt | Hge].
      - destruct (Hsp i1) as [Hb Hs]; [lia | ].
        destruct Hstop as [Hstop | Hstop]; [ | congruence].
        rewrite (empty_stage_not_end _ _ Hb Hs) in Hstop. discriminate.
      - destruct (Z.eq_dec i1 e) as [ | Hne]; [assumption | ].
        destruct (Hsk e) as [Hne' _]; [lia | congruence]. }
    rewrite Hend. cbn [negb makeProcess_loop]. rewrite ?Hend. reflexivity.
Qed.

Lemma FUEL_ge_2 : (2 <= FUEL)%nat.
Proof. unfold FUEL, BUFFER_SIZE. lia. Qed.

Lemma makeProcess_empty (input : list Z) (ind : Z) :
  0 <= ind -> empty_stage_at input ind ->
  exists j, makeProcess input ind = Some ([], j).
Proof.
  intros Hind (e & Hle & Hsp & Hend). unfold makeProcess.
  rewrite (makeProcess_loop_empty input ind e FUEL FUEL_ge_2 Hind Hle Hsp Hend).
  eexists. reflexivity.
Qed.

Lemma stages_reach_nonneg (input : list Z) (i : Z) (pre : pipeline) (k : Z) :
  stages_reach input i pre k -> 0 <= i -> 0 <= k.
Proof.
  induction 1 as [ | i st j rest k Hmk Hst _ IH]; intros Hi; [assumption | ].
  apply IH.
  destruct (makeProcess_total input i Hi) as (args & j' & Hrun & Hle & _).
  rewrite Hrun in Hmk. injection Hmk as _ <-. lia.
Qed.

Lemma makeProcesses_from_reach (input : list Z) (i : Z) (pre : pipeline) (k : Z) :
  stages_reach input i pre k ->
  forall j fuel,
    makeProcess input k = Some ([], j) ->
    0 <= i ->
    Z.max 0 (BUFFER_SIZE - i) < Z.of_nat fuel ->
    makeProcesses_from fuel input i = Some pre.
Proof.
  induction 1 as [i | i st j rest k Hmk Hst _ IH]; intros j' fuel Hlast Hi Hfuel.
  - destruct fuel as [ | fuel]; [lia | ].
    cbn [makeProcesses_from]. rewrite Hlast. reflexivity.
  - destruct fuel as [ | fuel]; [lia | ].
    cbn [makeProcesses_from]. rewrite Hmk.
    destruct (makeProcess_total input i Hi)
      as (args & j0 & Hrun & Hle & _ & Hadv & _).
    rewrite Hrun in Hmk. injection Hmk as -> ->.
    destruct (Hadv Hst) as [Hlt Hbuf].
    rewrite (IH j' fuel Hlast) by lia.
    destruct st; [congruence | reflexivity].
Qed.

Lemma stages_reach_no_empty (input : list Z) (i : Z) (pre : pipeline) (k : Z) :
  stages_reach input i pre k -> ~ In [] pre.
Proof.
  induction 1 as [ | i st j rest k Hmk Hst _ IH]; cbn; [tauto | ].
  intros [H | H]; [congruence | tauto].
Qed.

(** A line that begins with a pipe symbol gives the empty pipeline, and
    [main] runs nothing for it. *)
Lemma leading_pipe_empty_pipeline (input : list Z) :
  get input 0 = ch_pipe ->
  makeProcesses input = Some [] /\ dispatch [] = DoNothing.
Proof.
  intros Hpipe. split; [ | reflexivity].
  assert (Hempty : empty_stage_at input 0).
  { exists 0. split; [lia | ]. split; [intros p Hp; lia | ].
    apply endOfArg_true_iff. auto. }
  destruct (makeProcess_empty input 0 ltac:(lia) Hempty) as [j Hj].
  unfold makeProcesses.
  apply (makeProcesses_from_reach input 0 [] 0 (reach_here input 0) j FUEL Hj);
    [lia | apply FUEL_enough; lia].
Qed.

(** C4, as the source has it. Where the calls of [makeProcess] have
    returned the stages [pre] and the text of the next stage holds no
    argument, [makeProcess] is not refused there and returns a stage with
    zero arguments; that stage ends the collection: the pipeline of the
    line is [pre], in which no stage is empty, and neither the empty stage
    nor anything after it is part of it. *)
Theorem empty_stage_ends_collection
        (input : list Z) (pre : pipeline) (ind : Z) :
  stages_reach input 0 pre ind ->
  empty_stage_at input ind ->
  (exists j, makeProcess input ind = Some ([], j))
  /\ makeProcesses input = Some pre
  /\ ~ In [] pre.
Proof.
  intros Hreach Hempty.
  assert (Hind : 0 <= ind) by (apply (stages_reach_nonneg _ _ _ _ Hreach); lia).
  destruct (makeProcess_empty input ind Hind Hempty) as [j Hj].
  split; [exists j; exact Hj | ]. split.
  - unfold makeProcesses.
    apply (makeProcesses_from_reach input 0 pre ind Hreach j FUEL Hj);
      [lia | apply FUEL_enough; lia].
  - apply (stages_reach_no_empty _ _ _ _ Hreach).
Qed.

Lemma empty_stage_ends_collection_witness :
  (exists j, makeProcess (line "ls || wc") 4 = Some ([], j))
  /\ makeProcesses (line "ls || wc") = Some [[chars "ls"]]
  /\ ~ In [] [[chars "ls"]].
Proof.
  apply (empty_stage_ends_collection (line "ls || wc") [[chars "ls"]] 4).
  - apply (reach_next _ 0 [chars "ls"] 4 [] 4).
    + vm_compute. reflexivity.
    + discriminate.
    + apply reach_here.
  - exists 4. split; [lia | ]. split; [intros p Hp; lia | ].
    vm_compute. reflexivity.
Defined.

(** C4, as the specification words it, fails on the line ls || wc: its
    indices 3 and 4 hold consecutive pipe symbols, and the pipeline that
    [main] passes to [execute] is the single stage ls, with no stage of
    zero arguments in it. *)
Lemma doubled_pipe_stage_not_handed_on :
  get (line "ls || wc") 3 = ch_pipe
  /\ get (line "ls || wc") 4 = ch_pipe
  /\ makeProcesses (line "ls || wc") = Some [[chars "ls"]]
  /\ dispatch [[chars "ls"]] = DoExecute [[chars "ls"]]
  /\ ~ (exists procs,
          makeProcesses (line "ls || wc") = Some procs /\ In [] procs).
Proof.
  assert (E : makeProcesses (line "ls || wc") = Some [[chars "ls"]])
    by (vm_compute; reflexivity).
  repeat split; try (vm_compute; reflexivity).
  intros (procs & Hp & Hin). rewrite E in Hp. injection Hp as <-.
  cbn in Hin. destruct Hin as [H | []]. discriminate.
Qed.

(** ** What [main] passes to [execute] *)

Lemma dispatch_execute (p procs : pipeline) :
  dispatch p = DoExecute procs -> procs = p /\ p <> [].
Proof.
  unfold dispatch. destruct p as [ | [ | prog st] rest]; try discriminate.
  destruct (list_eq_dec Z.eq_dec (cstr prog) (chars "exit"));
    [discriminate | ].
  intros [= <-]. split; [reflexivity | discriminate].
Qed.

(** C10. Every pipeline that [main] passes to [execute] has at least one
    stage, and each of its stages has a first argument, the program name,
    which is not the empty word: [makeProcesses] stops at the first stage
    without arguments and never stores one. *)
Theorem executed_stages_have_program
        (input : list Z) (p procs : pipeline) :
  makeProcesses input = Some p ->
  dispatch p = DoExecute procs ->
  procs <> []
  /\ Forall (fun st => exists prog rest, st = prog :: rest /\ prog <> [])
            procs.
Proof.
  intros Hmk Hd. apply dispatch_execute in Hd as [-> Hne].
  split; [exact Hne | ].
  destruct (makeProcesses_total input) as (p' & Hp' & Hall).
  rewrite Hmk in Hp'. injection Hp' as <-.
  eapply Forall_impl; [ | exact Hall].
  intros st [Hst Hargs]. destruct st as [ | prog rest]; [congruence | ].
  exists prog, rest. split; [reflexivity | ].
  inversion Hargs; assumption.
Qed.

Lemma executed_stages_have_program_witness :
  [[chars "echo"; chars "hi"]; [chars "cat"]] <> []
  /\ Forall (fun st => exists prog rest, st = prog :: rest /\ prog <> [])
            [[chars "echo"; chars "hi"]; [chars "cat"]].
Proof.
  apply (executed_stages_have_program (line "echo hi | cat")
           [[chars "echo"; chars "hi"]; [chars "cat"]]).
  - vm_compute. reflexivity.
  - vm_compute. reflexivity.
Defined.

(** ** Ceilings *)

(** C8 at three lines that pass a ceiling, each shorter than the buffer.
    On a word of 150 characters the loop of [makeArgument] stores past
    the [MAX_WORD_LENGTH] bytes of the argument; on 600 words the loop of
    [makeProcess] stores past the [MAX_WORDS] slots of the stage; on 1001
    stages the loop of [makeProcesses] stores past the [MAX_PROCESSES]
    slots of the pipeline. No test stops the store and no diagnostic is
    printed: the parser has no path that refuses a line. *)
Theorem ceilings_are_overrun :
  makeProcessesC long_word_line = Overflow ArgumentBlock
  /\ makeProcessesC many_words_line = Overflow StageArray
  /\ makeProcessesC many_stages_line = Overflow StagesArray.
Proof.
  repeat split; vm_compute; reflexivity.
Qed.

(** ** The parser inside its blocks *)

Lemma makeArgumentC_loop_spec (input : list Z) :
  forall (fuel : nat) (ind k : Z) (a : arg) (j : Z),
    makeArgument_loop fuel input ind = Some (a, j) ->
    makeArgumentC_loop fuel input ind k
    = if k + Z.of_nat (length a) <? MAX_WORD_LENGTH
      then Parsed (a, j)
      else Overflow ArgumentBlock.
Proof.
  induction fuel as [ | fuel IH]; intros ind k a j;
    cbn [makeArgument_loop makeArgumentC_loop]; [discriminate | ].
  destruct (negb (endOfArg input ind) && negb (get input ind =? ch_space)).
  - destruct (makeArgument_loop fuel input (ind + 1)) as [[a' j'] | ] eqn:Hrec;
      [ | discriminate].
    intros [= <- <-]. rewrite (IH _ (k + 1) _ _ Hrec).
    cbn [length]. rewrite Nat2Z.inj_succ.
    replace (k + 1 + Z.of_nat (length a'))
      with (k + Z.succ (Z.of_nat (length a'))) by lia.
    destruct (Z.ltb_spec k MAX_WORD_LENGTH);
      destruct (Z.ltb_spec (k + Z.succ (Z.of_nat (length a')))
                           MAX_WORD_LENGTH);
      try reflexivity; lia.
  - intros [= <- <-]. cbn [length]. rewrite Z.add_0_r. reflexivity.
Qed.

Lemma makeProcessC_loop_spec (input : list Z) :
  forall (fuel : nat) (ind n : Z) (args : stage) (j : Z),
    makeProcess_loop fuel input ind = Some (args, j) ->
    match makeProcessC_loop fuel input ind n with
    | Parsed r =>
        r = (args, j)
        /\ forallb arg_fits args = true
        /\ n + Z.of_nat (length args) < MAX_WORDS
    | Overflow _ =>
        forallb arg_fits args = false
        \/ MAX_WORDS <= n + Z.of_nat (length args)
    | Unfinished => False
    end.
Proof.
  induction fuel as [ | fuel IH]; intros ind n args j;
    cbn [makeProcess_loop makeProcessC_loop]; [discriminate | ].
  destruct (endOfArg input ind); cbn [negb].
  { intros [= <- <-]. cbn [length forallb]. rewrite Z.add_0_r.
    destruct (Z.ltb_spec n MAX_WORDS); auto. }
  destruct (skipSpaces FUEL input ind) as [i1 | ]; [ | discriminate].
  destruct (endOfArg input i1); cbn [negb]; [apply IH | ].
  unfold makeArgument, makeArgumentC.
  destruct (makeArgument_loop FUEL input i1) as [[a i2] | ] eqn:Ha;
    [ | discriminate].
  rewrite (makeArgumentC_loop_spec input FUEL i1 0 a i2 Ha).
  destruct (makeProcess_loop fuel input i2) as [[args' j'] | ] eqn:Hrec;
    [ | discriminate].
  intros [= <- <-]. cbn [forallb length].
  change (arg_fits a) with (Z.of_nat (length a) <? MAX_WORD_LENGTH).
  rewrite Z.add_0_l, Nat2Z.inj_succ.
  destruct (Z.of_nat (length a) <? MAX_WORD_LENGTH); cbn [andb]; [ | auto].
  destruct (Z.ltb_spec n MAX_WORDS) as [Hlt | Hge]; [ | right; lia].
  specialize (IH i2 (n + 1) args' j' Hrec).
  destruct (makeProcessC_loop fuel input i2 (n + 1)) as [[r1 r2] | b | ].
  - destruct IH as ([= -> ->] & Hfit & Hlen). repeat split; auto. lia.
  - destruct IH as [H | H]; [auto | right; lia].
  - exact IH.
Qed.

Lemma makeProcessC_spec (input : list Z) (ind : Z) (args : stage) (j : Z) :
  makeProcess input ind = Some (args, j) ->
  match makeProcessC input ind with
  | Parsed r => r = (args, j) /\ stage_fits args = true
  | Overflow _ => stage_fits args = false
  | Unfinished => False
  end.
Proof.
  unfold makeProcess, makeProcessC.
  destruct (makeProcess_loop FUEL input ind) as [[args' i] | ] eqn:Hl;
    [ | discriminate].
  intros [= <- <-].
  pose proof (makeProcessC_loop_spec input FUEL ind 0 args' i Hl) as H.
  unfold stage_fits.
  destruct (makeProcessC_loop FUEL input ind 0) as [[r1 r2] | b | ].
  - destruct H as ([= -> ->] & Hfit & Hlen). split; [reflexivity | ].
    rewrite Hfit. apply Z.ltb_lt. lia.
  - destruct H as [H | H]; [rewrite H; reflexivity | ].
    apply andb_false_iff. right. apply Z.ltb_ge. lia.
  - exact H.
Qed.

Lemma makeProcessesC_from_spec (input : list Z) :
  forall (fuel : nat) (ind n : Z) (procs : pipeline),
    n <= MAX_PROCESSES ->
    makeProcesses_from fuel input ind = Some procs ->
    match makeProcessesC_from fuel input ind n with
    | Parsed r =>
        r = procs
        /\ forallb stage_fits procs = true
        /\ n + Z.of_nat (length procs) <= MAX_PROCESSES
    | Overflow _ =>
        forallb stage_fits procs = false
        \/ MAX_PROCESSES < n + Z.of_nat (length procs)
    | Unfinished => False
    end.
Proof.
  induction fuel as [ | fuel IH]; intros ind n procs Hn;
    cbn [makeProcesses_from makeProcessesC_from]; [discriminate | ].
  destruct (makeProcess input ind) as [[args j] | ] eqn:Hmk; [ | discriminate].
  pose proof (makeProcessC_spec input ind args j Hmk) as Hst.
  destruct (makeProcessC input ind) as [[r1 r2] | b | ].
  - destruct Hst as ([= -> ->] & Hfit).
    destruct args as [ | a args].
    + intros [= <-]. cbn [forallb length]. repeat split; auto. lia.
    + destruct (makeProcesses_from fuel input j) as [rest | ] eqn:Hrec;
        [ | discriminate].
      intros [= <-]. cbn [forallb length]. rewrite Hfit, Nat2Z.inj_succ.
      cbn [andb].
      destruct (Z.ltb_spec n MAX_PROCESSES) as [Hlt | Hge]; [ | right; lia].
      specialize (IH j (n + 1) rest ltac:(lia) Hrec).
      destruct (makeProcessesC_from fuel input j (n + 1)) as [r | b | ].
      * destruct IH as (-> & Hall & Hlen). repeat split; auto. lia.
      * destruct IH as [H | H]; [auto | right; lia].
      * exact IH.
  - destruct args as [ | a args]; [discriminate Hst | ].
    destruct (makeProcesses_from fuel input j) as [rest | ]; [ | discriminate].
    intros [= <-]. cbn [forallb]. rewrite Hst. auto.
  - contradiction.
Qed.

(** The parse with the sizes of the blocks ends well exactly when every
    part of the pipeline of the line has room in its block, and then
    gives that pipeline. *)
Lemma makeProcessesC_Parsed (input : list Z) (p : pipeline) :
  makeProcessesC input = Parsed p <->
  makeProcesses input = Some p /\ pipeline_fits p = true.
Proof.
  destruct (makeProcesses_total input) as (procs & Hmk & _).
  pose proof (makeProcessesC_from_spec input FUEL 0 0 procs
                ltac:(unfold MAX_PROCESSES; lia) Hmk) as H.
  unfold makeProcessesC, pipeline_fits. rewrite Hmk. unfold makeProcesses in Hmk.
  destruct (makeProcessesC_from FUEL input 0 0) as [r | b | ].
  - destruct H as (-> & Hall & Hlen). split.
    + intros [= <-]. split; [reflexivity | ].
      rewrite Hall. apply Z.leb_le. lia.
    + intros [[= <-] _]. reflexivity.
  - split; [discriminate | ]. intros [[= <-] Hfit]. exfalso.
    apply andb_true_iff in Hfit as [Hall Hlen]. apply Z.leb_le in Hlen.
    destruct H as [H | H]; [congruence | lia].
  - contradiction.
Qed.

(** ** How a session ends *)

(** C2 at the session whose input is at its end from the start, with no
    read error: [main] returns 1. A session whose first read fails
    prints a diagnostic and returns 1 as well. *)
Theorem end_of_input_returns_1 (os_at : nat -> OS) :
  main os_at [EndOfInput]
  = Exited 1 (mkProc Parent [] None None [] [Prompt])
  /\ main os_at []
     = Exited 1 (mkProc Parent [] None None [] [Prompt])
  /\ main os_at [ReadError]
     = Exited 1 (mkProc Parent [] None None
                        [Msg "Error occured reading from stdin"] [Prompt]).
Proof.
  repeat split.
Qed.


(** ** Descriptor tables *)

Lemma fd_eqb_eq (a b : fd) : fd_eqb a b = true <-> a = b.
Proof.
  destruct a as [i e], b as [j f]. unfold fd_eqb. cbn [fst snd].
  rewrite andb_true_iff, Nat.eqb_eq.
  destruct e, f; cbn; split; intros H;
    try (destruct H; congruence); try (injection H as -> ; auto);
    try discriminate; try (injection H; intros; discriminate).
Qed.

Lemma in_all_fds (n : nat) (d : fd) :
  In d (all_fds n) <-> (fst d < n)%nat.
Proof.
  unfold all_fds. rewrite in_flat_map. split.
  - intros (i & Hi & Hd). apply in_seq in Hi.
    cbn in Hd. destruct Hd as [<- | [<- | []]]; cbn; lia.
  - intros H. exists (fst d). split; [apply in_seq; lia | ].
    destruct d as [i [ | ]]; cbn; auto.
Qed.

Lemma existsb_fd_eqb (d : fd) (l : list fd) :
  existsb (fd_eqb d) l = true <-> In d l.
Proof.
  rewrite existsb_exists. split.
  - intros (x & Hx & E). apply fd_eqb_eq in E. subst. exact Hx.
  - intros H. exists d. split; [exact H | apply fd_eqb_eq; reflexivity].
Qed.

Lemma filter_twice {A} (f g : A -> bool) (l : list A) :
  filter g (filter f l) = filter (fun x => f x && g x) l.
Proof.
  induction l as [ | x l IH]; cbn; [reflexivity | ].
  destruct (f x); cbn; [destruct (g x) | ]; rewrite IH; reflexivity.
Qed.

Lemma filter_all {A} (f : A -> bool) (l : list A) :
  (forall x, In x l -> f x = true) -> filter f l = l.
Proof.
  induction l as [ | x l IH]; cbn; intros H; [reflexivity | ].
  rewrite (H x) by auto. f_equal. apply IH. auto.
Qed.

Lemma filter_none {A} (f : A -> bool) (l : list A) :
  (forall x, In x l -> f x = false) -> filter f l = [].
Proof.
  induction l as [ | x l IH]; cbn; intros H; [reflexivity | ].
  rewrite (H x) by auto. apply IH. auto.
Qed.

(** Closing an open descriptor that the operating system lets go. *)
Lemma sys_close_open (os : OS) (d : fd) (f : fd -> bool) (n : nat)
      (w : who) si so e o :
  (fst d < n)%nat -> f d = true -> close_ok os w d = true ->
  sys_close os d (mkProc w (filter f (all_fds n)) si so e o)
  = Ret 0 (mkProc w (filter (fun x => f x && negb (fd_eqb d x)) (all_fds n))
                  si so e o).
Proof.
  intros Hd Hf Hok. unfold sys_close, is_open. cbn [open_fds self].
  assert (Hin : existsb (fd_eqb d) (filter f (all_fds n)) = true).
  { apply existsb_fd_eqb. apply filter_In. split; [ | exact Hf].
    apply in_all_fds. exact Hd. }
  rewrite Hin, Hok. cbn [andb]. rewrite filter_twice. reflexivity.
Qed.

Lemma sys_close_refused (os : OS) (d : fd) (p : proc) :
  close_ok os (self p) d = false -> sys_close os d p = Ret (-1) p.
Proof.
  intros H. unfold sys_close. rewrite H, andb_false_r. reflexivity.
Qed.

(** ** [makePipes] and the forks of the parent *)

Lemma makePipes_from (os : OS) (w : who) si so e o :
  forall (n i : nat) (l : list fd),
    (forall k, (i <= k < i + n)%nat -> pipe_ok os k = true) ->
    for_from i n (fun i =>
      r <- sys_pipe os i ;;
      if r =? -1
      then eprint (Msg "Pipe Error") ;;; exit EXIT_FAILURE
      else ret tt) (mkProc w l si so e o)
    = Ret tt (mkProc w (l ++ flat_map (fun i => [(i, RD); (i, WR)]) (seq i n))
                     si so e o).
Proof.
  induction n as [ | n IH]; intros i l Hok.
  - cbn. rewrite app_nil_r. reflexivity.
  - cbn [for_from seq flat_map]. unfold bind at 1. unfold bind at 1.
    unfold sys_pipe at 1. rewrite (Hok i) by lia.
    cbn [self open_fds stdin_fd stdout_fd stderr_out stdout_out Z.eqb].
    unfold ret at 1. rewrite IH by (intros k Hk; apply Hok; lia).
    rewrite <- app_assoc. reflexivity.
Qed.

Lemma makePipes_ok (os : OS) (size : nat) :
  pipes_ok os size ->
  makePipes os size initial_proc
  = Ret tt (mkProc Parent (all_fds size) None None [] []).
Proof.
  intros Hok. unfold makePipes, for_upto, initial_proc.
  rewrite makePipes_from by (intros k Hk; apply Hok; lia).
  reflexivity.
Qed.

Lemma makePipes_fails_from (os : OS) (w : who) si so :
  forall (n i : nat) (l : list fd),
    (exists k, (i <= k < i + n)%nat /\ pipe_ok os k = false) ->
    exists l',
      for_from i n (fun i =>
        r <- sys_pipe os i ;;
        if r =? -1
        then eprint (Msg "Pipe Error") ;;; exit EXIT_FAILURE
        else ret tt) (mkProc w l si so [] [])
      = Exit EXIT_FAILURE (mkProc w l' si so [Msg "Pipe Error"] []).
Proof.
  induction n as [ | n IH]; intros i l (k & Hk & Hbad); [lia | ].
  cbn [for_from]. unfold bind at 1. unfold bind at 1. unfold sys_pipe at 1.
  destruct (pipe_ok os i) eqn:Ei.
  - cbn [self open_fds stdin_fd stdout_fd stderr_out stdout_out Z.eqb].
    unfold ret at 1. apply IH. exists k. split; [ | exact Hbad].
    destruct (Nat.eq_dec k i) as [-> | ]; [congruence | lia].
  - exists l. reflexivity.
Qed.

Lemma spawn_all_ok (os : OS) (p : proc) :
  forall (n i : nat),
    (forall k, (i <= k < i + n)%nat -> 0 <= fork_ret os k) ->
    for_from i n (fun i =>
      if fork_ret os i <? 0
      then eprint (Msg "Fork Error") ;;; exit EXIT_FAILURE
      else ret tt) p
    = Ret tt p.
Proof.
  induction n as [ | n IH]; intros i Hok; [reflexivity | ].
  cbn [for_from]. unfold bind at 1.
  assert (E : (fork_ret os i <? 0) = false)
    by (apply Z.ltb_ge; specialize (Hok i ltac:(lia)); lia).
  rewrite E. unfold ret at 1. apply IH. intros k Hk. apply Hok. lia.
Qed.

Lemma spawn_all_fails (os : OS) (w : who) l si so :
  forall (n i : nat),
    (exists k, (i <= k < i + n)%nat /\ fork_ret os k < 0) ->
    for_from i n (fun i =>
      if fork_ret os i <? 0
      then eprint (Msg "Fork Error") ;;; exit EXIT_FAILURE
      else ret tt) (mkProc w l si so [] [])
    = Exit EXIT_FAILURE (mkProc w l si so [Msg "Fork Error"] []).
Proof.
  induction n as [ | n IH]; intros i (k & Hk & Hbad); [lia | ].
  cbn [for_from]. unfold bind at 1.
  destruct (fork_ret os i <? 0) eqn:E.
  - reflexivity.
  - unfold ret at 1. apply IH. exists k. split; [ | exact Hbad].
    apply Z.ltb_ge in E.
    destruct (Nat.eq_dec k i) as [-> | ]; [lia | lia].
Qed.

(** ** The child of a stage *)

Ltac by_cases_on_tests :=
  repeat match goal with
         | |- context [Z.eqb ?a ?b] => destruct (Z.eqb_spec a b)
         | |- context [Nat.eqb ?a ?b] => destruct (Nat.eqb_spec a b)
         | |- context [Nat.leb ?a ?b] => destruct (Nat.leb_spec a b)
         end;
  cbn; try reflexivity; try lia.

Lemma kept_from_step (ind i : nat) (d : fd) :
  (kept_from i ind d
   && (if negb (Z.of_nat i =? Z.of_nat ind - 1)
       then negb (fd_eqb (i, RD) d) else true))
  && (if negb (Z.of_nat i =? Z.of_nat ind)
      then negb (fd_eqb (i, WR) d) else true)
  = kept_from (S i) ind d.
Proof.
  destruct d as [k [ | ]]; unfold kept_from, needed, fd_eqb; cbn [fst snd End_eqb];
    rewrite ?andb_true_r, ?andb_false_r, ?orb_false_r;
    by_cases_on_tests.
Qed.

Lemma close_step_ok (os : OS) (size ind i : nat) si so e o :
  (i < size)%nat ->
  (Z.of_nat i <> Z.of_nat ind - 1 -> close_ok os (Child ind) (i, RD) = true) ->
  (i <> ind -> close_ok os (Child ind) (i, WR) = true) ->
  close_step os ind i
    (mkProc (Child ind) (filter (kept_from i ind) (all_fds size)) si so e o)
  = Ret tt
      (mkProc (Child ind) (filter (kept_from (S i) ind) (all_fds size))
              si so e o).
Proof.
  intros Hi Hrd Hwr. unfold close_step.
  assert (Hk : forall en, kept_from i ind (i, en) = true).
  { intros en. unfold kept_from. cbn [fst]. rewrite Nat.leb_refl. reflexivity. }
  rewrite <- (filter_ext _ _ (kept_from_step ind i)).
  destruct (Z.eqb_spec (Z.of_nat i) (Z.of_nat ind - 1)) as [E1 | E1];
    destruct (Z.eqb_spec (Z.of_nat i) (Z.of_nat ind)) as [E2 | E2];
    cbn [negb]; unfold bind, ret.
  - f_equal. f_equal. apply filter_ext. intros d.
    rewrite !andb_true_r. reflexivity.
  - lazymatch goal with
    | |- match sys_close os ?d (mkProc ?w (filter ?f _) _ _ _ _) with _ => _ end = _ =>
        rewrite (sys_close_open os d f size w) by
          (cbn [fst]; try lia; try apply Hk; apply Hwr; lia)
    end.
    cbn [Z.eqb]. f_equal. f_equal. apply filter_ext. intros d.
    rewrite !andb_true_r. reflexivity.
  - rewrite (sys_close_open os (i, RD) _ size) by
        (cbn [fst]; try lia; try apply Hk; apply Hrd; lia).
    cbn [Z.eqb]. f_equal. f_equal. apply filter_ext. intros d.
    rewrite !andb_true_r. reflexivity.
  - rewrite (sys_close_open os (i, RD) _ size) by
        (cbn [fst]; try lia; try apply Hk; apply Hrd; lia).
    cbn [Z.eqb].
    rewrite (sys_close_open os (i, WR) _ size).
    + reflexivity.
    + cbn [fst]. lia.
    + rewrite Hk. unfold fd_eqb. cbn [fst snd End_eqb].
      rewrite andb_false_r. reflexivity.
    + apply Hwr. lia.
Qed.

Lemma close_step_fails (os : OS) (size ind i : nat) si so :
  (i < size)%nat ->
  (Z.of_nat i <> Z.of_nat ind - 1 /\ close_ok os (Child ind) (i, RD) = false)
  \/ (i <> ind /\ close_ok os (Child ind) (i, WR) = false) ->
  exists l,
    close_step os ind i
      (mkProc (Child ind) (filter (kept_from i ind) (all_fds size)) si so [] [])
    = Exit 127 (mkProc (Child ind) l si so
                       [Msg "Error closing file descriptor"] []).
Proof.
  intros Hi Hbad. unfold close_step.
  assert (Hk : forall en, kept_from i ind (i, en) = true).
  { intros en. unfold kept_from. cbn [fst]. rewrite Nat.leb_refl. reflexivity. }
  destruct (Z.eqb_spec (Z.of_nat i) (Z.of_nat ind - 1)) as [E1 | E1];
    cbn [negb]; unfold bind, ret.
  - destruct Hbad as [[H _] | [Hne Hwr]]; [contradiction | ].
    destruct (Z.eqb_spec (Z.of_nat i) (Z.of_nat ind)) as [E2 | E2]; [lia | ].
    cbn [negb]. rewrite sys_close_refused by exact Hwr.
    eexists. reflexivity.
  - destruct (close_ok os (Child ind) (i, RD)) eqn:Hrd.
    + destruct Hbad as [[_ H] | [Hne Hwr]]; [discriminate | ].
      rewrite (sys_close_open os (i, RD) _ size) by
          (cbn [fst]; try lia; try apply Hk; exact Hrd).
      cbn [Z.eqb].
      destruct (Z.eqb_spec (Z.of_nat i) (Z.of_nat ind)) as [E2 | E2]; [lia | ].
      cbn [negb]. rewrite sys_close_refused by exact Hwr.
      eexists. reflexivity.
    + rewrite sys_close_refused by exact Hrd.
      eexists. reflexivity.
Qed.

Lemma closeUnneededPipes_from_ok (os : OS) (size ind : nat) si so e o :
  (forall d, close_ok os (Child ind) d = true) ->
  forall (n i : nat),
    (i + n <= size)%nat ->
    for_from i n (close_step os ind)
      (mkProc (Child ind) (filter (kept_from i ind) (all_fds size)) si so e o)
    = Ret tt
        (mkProc (Child ind) (filter (kept_from (i + n) ind) (all_fds size))
                si so e o).
Proof.
  intros Hok. induction n as [ | n IH]; intros i Hle.
  - cbn [for_from]. rewrite Nat.add_0_r. reflexivity.
  - cbn [for_from]. unfold bind at 1.
    rewrite (close_step_ok os size ind i) by
        (first [lia | intros; apply Hok]).
    rewrite IH by lia.
    replace (i + S n)%nat with (S i + n)%nat by lia. reflexivity.
Qed.

Lemma closeUnneededPipes_from_fails (os : OS) (size ind : nat) si so :
  forall (n i : nat),
    (i + n <= size)%nat ->
    (exists k, (i <= k < i + n)%nat
       /\ (((k + 1)%nat <> ind /\ close_ok os (Child ind) (k, RD) = false)
           \/ (k <> ind /\ close_ok os (Child ind) (k, WR) = false))) ->
    exists l,
      for_from i n (close_step os ind)
        (mkProc (Child ind) (filter (kept_from i ind) (all_fds size))
                si so [] [])
      = Exit 127 (mkProc (Child ind) l si so
                         [Msg "Error closing file descriptor"] []).
Proof.
  induction n as [ | n IH]; intros i Hle (k & Hk & Hbad); [lia | ].
  cbn [for_from]. unfold bind at 1.
  destruct (Z.eq_dec (Z.of_nat i) (Z.of_nat ind - 1)) as [E1 | E1];
    destruct (Nat.eq_dec i ind) as [E2 | E2];
    destruct (close_ok os (Child ind) (i, RD)) eqn:Hrd;
    destruct (close_ok os (Child ind) (i, WR)) eqn:Hwr;
    try lia;
    try (destruct (close_step_fails os size ind i si so) as [l Hl];
         [lia | solve [left; split; [lia | assumption]
                      | right; split; [lia | assumption]] | ];
         rewrite Hl; exists l; reflexivity);
    (rewrite (close_step_ok os size ind i) by
        (solve [lia | intros; assumption | intros; lia]);
     apply IH; [lia | ];
     exists k; split; [ | exact Hbad];
     destruct (Nat.eq_dec k i) as [-> | ]; [ | lia];
     exfalso; destruct Hbad as [[Hn Hc] | [Hn Hc]]; congruence || lia).
Qed.

Lemma kept_from_0 (ind size : nat) :
  filter (kept_from 0 ind) (all_fds size) = all_fds size.
Proof. apply filter_all. intros d _. reflexivity. Qed.

Lemma needed_read (ind : nat) :
  ind <> 0%nat -> needed ind ((ind - 1)%nat, RD) = true.
Proof.
  intros H. unfold needed. cbn [fst snd End_eqb].
  destruct (Z.eqb_spec (Z.of_nat (ind - 1)) (Z.of_nat ind - 1)); [reflexivity | lia].
Qed.

Lemma needed_write (ind : nat) : needed ind (ind, WR) = true.
Proof.
  unfold needed. cbn [fst snd End_eqb]. rewrite Nat.eqb_refl.
  cbn. apply orb_true_r.
Qed.

(** What [runChild] has done when it calls [execvp], every close and dup2
    having succeeded. *)
Lemma runChild_wired (os : OS) (procs : pipeline) (ind : nat) :
  (ind < length procs)%nat ->
  child_healthy os ind ->
  runChild os procs ind
    (mkProc (Child ind) (all_fds (length procs)) None None [] [])
  = (sys_execvp os (nth ind procs []) ;;;
     eprint (CommandNotFound (cstr (hd [] (nth ind procs [])))) ;;;
     ret (-1)) (wired (length procs) ind).
Proof.
  intros Hind [Hclose Hdup]. unfold runChild, closeUnneededPipes, for_upto.
  set (size := length procs) in *.
  unfold bind at 1.
  rewrite <- (kept_from_0 ind size) at 1.
  rewrite (closeUnneededPipes_from_ok os size ind) by (auto; lia).
  cbn [Nat.add].
  assert (Hopen : forall d, (fst d < size)%nat -> needed ind d = true ->
            forall si so,
              is_open d (mkProc (Child ind)
                           (filter (kept_from (size - 1) ind) (all_fds size))
                           si so [] []) = true).
  { intros d Hd Hn si so. unfold is_open. cbn [open_fds].
    apply existsb_fd_eqb, filter_In. split; [apply in_all_fds; exact Hd | ].
    unfold kept_from. rewrite Hn. apply orb_true_r. }
  unfold wired.
  destruct (Nat.eqb_spec ind 0) as [E0 | E0];
    destruct (Nat.eqb_spec ind (size - 1)) as [E1 | E1].
  - destruct (Z.eqb_spec (Z.of_nat ind) 0); [ | lia].
    destruct (Z.eqb_spec (Z.of_nat ind) (Z.of_nat size - 1)); [ | lia].
    reflexivity.
  - destruct (Z.eqb_spec (Z.of_nat ind) 0); [ | lia].
    destruct (Z.eqb_spec (Z.of_nat ind) (Z.of_nat size - 1)); [lia | ].
    cbn [negb]. unfold bind at 1. unfold ret at 1.
    unfold bind at 1. unfold bind at 1. unfold sys_dup2_stdout at 1.
    rewrite Hopen by (try apply needed_write; cbn [fst]; lia).
    cbn [self]. rewrite Hdup. reflexivity.
  - destruct (Z.eqb_spec (Z.of_nat ind) 0); [lia | ].
    destruct (Z.eqb_spec (Z.of_nat ind) (Z.of_nat size - 1)); [ | lia].
    cbn [negb]. unfold bind at 1. unfold bind at 1. unfold sys_dup2_stdin at 1.
    rewrite Hopen by (try (apply needed_read; lia); cbn [fst]; lia).
    cbn [self]. rewrite Hdup. reflexivity.
  - destruct (Z.eqb_spec (Z.of_nat ind) 0); [lia | ].
    destruct (Z.eqb_spec (Z.of_nat ind) (Z.of_nat size - 1)); [lia | ].
    cbn [negb]. unfold bind at 1. unfold bind at 1. unfold sys_dup2_stdin at 1.
    rewrite Hopen by (try (apply needed_read; lia); cbn [fst]; lia).
    cbn [self]. rewrite Hdup. cbn [andb Z.eqb].
    unfold ret at 1.
    unfold bind at 1. unfold bind at 1. unfold sys_dup2_stdout at 1.
    cbn [open_fds self stdin_fd stdout_fd stderr_out stdout_out].
    rewrite Hopen by (try apply needed_write; cbn [fst]; lia).
    cbn [self]. rewrite Hdup. reflexivity.
Qed.

(** The child of a stage starts as a copy of the parent that holds every
    descriptor of every pipe. *)
Lemma child_start (os : OS) (procs : pipeline) (ind : nat) :
  pipes_ok os (length procs) ->
  (forall k, (k <= ind)%nat -> 0 < fork_ret os k) ->
  child os procs ind
  = Some (child_body os procs ind
            (mkProc (Child ind) (all_fds (length procs)) None None [] [])).
Proof.
  intros Hp Hf. unfold child. unfold bind.
  rewrite (makePipes_ok os _ Hp). unfold spawn_all, for_upto.
  rewrite spawn_all_ok by (intros k Hk; specialize (Hf k); lia).
  reflexivity.
Qed.

Lemma child_runs (os : OS) (procs : pipeline) (ind : nat) (prog : arg)
      (rest : stage) :
  (ind < length procs)%nat ->
  pipes_ok os (length procs) ->
  (forall k, (k <= ind)%nat -> 0 < fork_ret os k) ->
  child_healthy os ind ->
  nth ind procs [] = prog :: rest ->
  child os procs ind
  = Some (if execvp_ok os (cstr prog)
          then Exec (cstr prog) (map cstr (prog :: rest))
                    (wired (length procs) ind)
          else Exit 127
                 (mkProc (Child ind) (open_fds (wired (length procs) ind))
                         (stdin_fd (wired (length procs) ind))
                         (stdout_fd (wired (length procs) ind))
                         [CommandNotFound (cstr prog)] [])).
Proof.
  intros Hind Hp Hf Hc Hst. rewrite (child_start os procs ind Hp Hf).
  unfold child_body. unfold bind at 1.
  rewrite (runChild_wired os procs ind Hind Hc). rewrite Hst.
  unfold bind, sys_execvp. cbn [hd].
  destruct (execvp_ok os (cstr prog)); reflexivity.
Qed.

Lemma closeUnneededPipes_from_outcome (os : OS) (size ind : nat) si so :
  forall (n i : nat),
    (i + n <= size)%nat ->
    for_from i n (close_step os ind)
      (mkProc (Child ind) (filter (kept_from i ind) (all_fds size)) si so [] [])
    = Ret tt
        (mkProc (Child ind) (filter (kept_from (i + n) ind) (all_fds size))
                si so [] [])
    \/ exists l,
        for_from i n (close_step os ind)
          (mkProc (Child ind) (filter (kept_from i ind) (all_fds size))
                  si so [] [])
        = Exit 127 (mkProc (Child ind) l si so
                           [Msg "Error closing file descriptor"] []).
Proof.
  induction n as [ | n IH]; intros i Hle.
  - left. cbn [for_from]. rewrite Nat.add_0_r. reflexivity.
  - cbn [for_from]. unfold bind.
    destruct (Z.eq_dec (Z.of_nat i) (Z.of_nat ind - 1)) as [E1 | E1];
      destruct (Nat.eq_dec i ind) as [E2 | E2];
      destruct (close_ok os (Child ind) (i, RD)) eqn:Hrd;
      destruct (close_ok os (Child ind) (i, WR)) eqn:Hwr;
      try lia;
      try (destruct (close_step_fails os size ind i si so) as [l Hl];
           [lia | solve [left; split; [lia | assumption]
                        | right; split; [lia | assumption]] | ];
           rewrite Hl; right; exists l; reflexivity);
      (rewrite (close_step_ok os size ind i) by
          (solve [lia | intros; assumption | intros; lia]);
       replace (i + S n)%nat with (S i + n)%nat by lia;
       apply IH; lia).
Qed.

(** A close or a dup2 that fails in the child of a stage ends that child
    with status 127 and one diagnostic. *)
Lemma child_failure_exits (os : OS) (procs : pipeline) (ind : nat) :
  (ind < length procs)%nat ->
  pipes_ok os (length procs) ->
  (forall k, (k <= ind)%nat -> 0 < fork_ret os k) ->
  child_failure os (length procs) ind ->
  exists l si so m,
    child os procs ind
    = Some (Exit 127 (mkProc (Child ind) l si so [Msg m] [])).
Proof.
  intros Hind Hp Hf Hbad. rewrite (child_start os procs ind Hp Hf).
  cut (exists l si so m,
          child_body os procs ind
            (mkProc (Child ind)
                    (filter (kept_from 0 ind) (all_fds (length procs)))
                    None None [] [])
          = Exit 127 (mkProc (Child ind) l si so [Msg m] [])).
  { rewrite kept_from_0. intros (l & si & so & m & H). rewrite H. eauto. }
  unfold child_body, runChild, closeUnneededPipes, for_upto.
  set (size := length procs) in *.
  unfold bind at 1. unfold bind at 1.
  destruct (closeUnneededPipes_from_outcome os size ind None None
              (size - 1) 0 ltac:(lia)) as [Hret | [l Hl]].
  2: { rewrite Hl. eauto. }
  destruct Hbad as [(i & Hi & Hclose) | Hdup].
  { destruct (closeUnneededPipes_from_fails os size ind None None
                (size - 1) 0 ltac:(lia)) as [l Hl].
    - exists i. split; [lia | exact Hclose].
    - rewrite Hl. eauto. }
  rewrite Hret. cbn [Nat.add].
  assert (Hopen : forall d, (fst d < size)%nat -> needed ind d = true ->
            forall si so,
              is_open d (mkProc (Child ind)
                           (filter (kept_from (size - 1) ind) (all_fds size))
                           si so [] []) = true).
  { intros d Hd Hn si so. unfold is_open. cbn [open_fds].
    apply existsb_fd_eqb, filter_In. split; [apply in_all_fds; exact Hd | ].
    unfold kept_from. rewrite Hn. apply orb_true_r. }
  destruct (Z.eqb_spec (Z.of_nat ind) 0) as [E0 | E0]; cbn [negb].
  - destruct Hdup as [[Hne _] | [Hne Hd]]; [lia | ].
    destruct (Z.eqb_spec (Z.of_nat ind) (Z.of_nat size - 1)); [lia | ].
    cbn [negb]. unfold bind at 1. unfold ret at 1.
    unfold bind at 1. unfold bind at 1. unfold sys_dup2_stdout at 1.
    cbn [self]. rewrite Hd, andb_false_r. cbn. eauto.
  - unfold bind at 1. unfold bind at 1. unfold sys_dup2_stdin at 1.
    cbn [self].
    destruct (dup2_ok os (Child ind) ((ind - 1)%nat, RD)) eqn:Hrd.
    + destruct Hdup as [[_ Hd] | [Hne Hd]]; [discriminate | ].
      rewrite Hopen by (try (apply needed_read; lia); cbn [fst]; lia).
      cbn [andb Z.eqb]. unfold ret at 1.
      destruct (Z.eqb_spec (Z.of_nat ind) (Z.of_nat size - 1)); [lia | ].
      cbn [negb]. unfold bind at 1. unfold bind at 1.
      unfold sys_dup2_stdout at 1.
      cbn [self]. rewrite Hd, andb_false_r. cbn. eauto.
    + rewrite andb_false_r. cbn. eauto.
Qed.

(** ** The parent waits *)

Lemma find_unique {A} (f : A -> bool) (l : list A) (x : A) :
  In x l -> f x = true ->
  (forall y, In y l -> f y = true -> y = x) ->
  find f l = Some x.
Proof.
  induction l as [ | y l IH]; cbn; intros Hin Hx Huniq; [contradiction | ].
  destruct (f y) eqn:Ey.
  - f_equal. apply Huniq; auto.
  - destruct Hin as [-> | Hin]; [congruence | ]. apply IH; auto.
Qed.

Lemma find_of_in {A} (f : A -> bool) (l : list A) (x : A) :
  In x l -> f x = true -> exists y, find f l = Some y.
Proof.
  induction l as [ | y l IH]; cbn; intros Hin Hx; [contradiction | ].
  destruct (f y) eqn:Ey; [eauto | ].
  destruct Hin as [-> | Hin]; [congruence | ]. apply IH; auto.
Qed.

Lemma waiting_step (size i : nat) (d : fd) :
  (Nat.leb i (fst d) && negb (fd_eqb (i, RD) d)) && negb (fd_eqb (i, WR) d)
  = Nat.leb (S i) (fst d).
Proof.
  destruct d as [k [ | ]]; unfold fd_eqb; cbn [fst snd End_eqb];
    rewrite ?andb_true_r, ?andb_false_r; by_cases_on_tests.
Qed.

(** One round of the loop of [waitOnProcesses], from the closes to the
    return of [waitpid]. *)
Lemma wait_round (os : OS) (procs : pipeline) (size i : nat) (n : nat)
      (status : Z) :
  (i < size)%nat ->
  In i (finish_order os) ->
  (close_ok os Parent (i, RD) = true
   /\ close_ok os Parent (i, WR) = true
   /\ waitpid_ok os (fork_ret os i) = true
   /\ waitOnProcesses_loop os procs i (S n) status (waiting size i)
      = waitOnProcesses_loop os procs (S i) n (waited_status os procs i)
                             (waiting size (S i)))
  \/ ((close_ok os Parent (i, RD) = false
       \/ close_ok os Parent (i, WR) = false
       \/ waitpid_ok os (fork_ret os i) = false)
      /\ exists l m,
          waitOnProcesses_loop os procs i (S n) status (waiting size i)
          = Exit EXIT_FAILURE (mkProc Parent l None None [Msg m] [])).
Proof.
  intros Hi Hin.
  assert (Hk : forall en : End, Nat.leb i (fst (i, en)) = true)
    by (intros en; cbn [fst]; apply Nat.leb_refl).
  assert (Hk' : Nat.leb i (fst (i, WR)) && negb (fd_eqb (i, RD) (i, WR))
                = true).
  { rewrite Hk. unfold fd_eqb. cbn [fst snd End_eqb].
    rewrite andb_false_r. reflexivity. }
  destruct (close_ok os Parent (i, RD)) eqn:Hrd.
  2: { right. split; [auto | ]. do 2 eexists.
       cbn [waitOnProcesses_loop]. unfold waiting, bind.
       rewrite sys_close_refused by exact Hrd. cbn. reflexivity. }
  destruct (close_ok os Parent (i, WR)) eqn:Hwr.
  2: { right. split; [auto | ]. do 2 eexists.
       cbn [waitOnProcesses_loop]. unfold waiting, bind.
       rewrite (sys_close_open os (i, RD) _ size) by
           (first [exact Hi | apply Hk | exact Hrd]).
       cbn [Z.eqb]. rewrite sys_close_refused by exact Hwr.
       cbn. reflexivity. }
  destruct (waitpid_ok os (fork_ret os i)) eqn:Hw.
  2: { right. split; [auto | ]. do 2 eexists.
       cbn [waitOnProcesses_loop]. unfold waiting, bind.
       rewrite (sys_close_open os (i, RD) _ size) by
           (first [exact Hi | apply Hk | exact Hrd]).
       cbn [Z.eqb].
       rewrite (sys_close_open os (i, WR) _ size) by
           (first [exact Hi | exact Hk' | exact Hwr]).
       cbn [Z.eqb]. unfold ret, sys_waitpid. rewrite Hw.
       cbn. reflexivity. }
  left. repeat split.
  cbn [waitOnProcesses_loop]. unfold waiting, bind.
  rewrite (sys_close_open os (i, RD) _ size) by
      (first [exact Hi | apply Hk | exact Hrd]).
  cbn [Z.eqb].
  rewrite (sys_close_open os (i, WR) _ size) by
      (first [exact Hi | exact Hk' | exact Hwr]).
  cbn [Z.eqb]. unfold ret, sys_waitpid. rewrite Hw.
  rewrite (filter_ext _ _ (waiting_step size i)).
  unfold waited_status.
  destruct (find_of_in (fun j => fork_ret os j =? fork_ret os i)
                       (finish_order os) i Hin (Z.eqb_refl _)) as [j Hj].
  rewrite Hj. reflexivity.
Qed.

Lemma wait_loop_outcome (os : OS) (procs : pipeline) (size : nat) :
  all_finish os size ->
  forall (n i : nat) (status : Z),
    (i + n <= size)%nat ->
    ((forall k, (i <= k < i + n)%nat ->
        close_ok os Parent (k, RD) = true
        /\ close_ok os Parent (k, WR) = true
        /\ waitpid_ok os (fork_ret os k) = true)
     /\ waitOnProcesses_loop os procs i n status (waiting size i)
        = Ret (match n with
               | O => status
               | S n' => waited_status os procs (i + n')
               end) (waiting size (i + n)))
    \/ ((exists k, (i <= k < i + n)%nat
           /\ (close_ok os Parent (k, RD) = false
               \/ close_ok os Parent (k, WR) = false
               \/ waitpid_ok os (fork_ret os k) = false))
        /\ exists l m,
            waitOnProcesses_loop os procs i n status (waiting size i)
            = Exit EXIT_FAILURE (mkProc Parent l None None [Msg m] [])).
Proof.
  intros Hfin. induction n as [ | n IH]; intros i status Hle.
  - left. split; [intros k Hk; lia | ].
    cbn. rewrite Nat.add_0_r. reflexivity.
  - destruct (wait_round os procs size i n status ltac:(lia)
                         (Hfin i ltac:(lia)))
      as [(Hrd & Hwr & Hw & Hstep) | [Hbad (l & m & Hexit)]].
    + rewrite Hstep.
      destruct (IH (S i) (waited_status os procs i) ltac:(lia))
        as [[Hall Hret] | [(k & Hk & Hbad) Hexit]].
      * left. split.
        -- intros k Hk. destruct (Nat.eq_dec k i) as [-> | ]; [auto | ].
           apply Hall. lia.
        -- rewrite Hret. replace (i + S n)%nat with (S i + n)%nat by lia.
           f_equal. destruct n as [ | n']; [f_equal; lia | ].
           f_equal. lia.
      * right. split; [exists k; split; [lia | exact Hbad] | exact Hexit].
    + right. split; [exists i; split; [lia | exact Hbad] | eauto].
Qed.

(** ** [execute] in the parent *)

Lemma bounded_cases (f : nat -> bool) :
  forall n,
    (forall i, (i < n)%nat -> f i = true)
    \/ (exists i, (i < n)%nat /\ f i = false).
Proof.
  induction n as [ | n [IH | (i & Hi & Hf)]].
  - left. intros i Hi. lia.
  - destruct (f n) eqn:E.
    + left. intros i Hi. destruct (Nat.eq_dec i n) as [-> | ]; [exact E | ].
      apply IH. lia.
    + right. exists n. split; [lia | exact E].
  - right. exists i. split; [lia | exact Hf].
Qed.

Lemma waiting_0 (size : nat) :
  waiting size 0 = mkProc Parent (all_fds size) None None [] [].
Proof.
  unfold waiting. rewrite filter_all; [reflexivity | ].
  intros d _. reflexivity.
Qed.

Lemma waiting_all (size : nat) :
  waiting size size = mkProc Parent [] None None [] [].
Proof.
  unfold waiting. rewrite filter_none; [reflexivity | ].
  intros d Hd. apply in_all_fds in Hd. apply Nat.leb_gt. exact Hd.
Qed.

Lemma waited_status_own (os : OS) (procs : pipeline) (size i : nat) :
  distinct_pids os size -> finish_complete os size -> (i < size)%nat ->
  waited_status os procs i = child_status os procs i.
Proof.
  intros Hd Hf Hi. unfold waited_status.
  rewrite (find_unique _ _ i); [reflexivity | | | ].
  - apply Hf. exact Hi.
  - apply Z.eqb_refl.
  - intros j Hj E. apply Z.eqb_eq in E. apply Hf in Hj. apply Hd; assumption.
Qed.

(** With every call of the parent answered by a success and every child
    ending, [execute] closes every pipe, prints the exit status of the
    last stage and returns. *)
Lemma execute_healthy (os : OS) (procs : pipeline) :
  procs <> [] ->
  parent_healthy os (length procs) ->
  finish_complete os (length procs) ->
  execute os procs initial_proc
  = Ret tt (mkProc Parent [] None None []
                   [JshStatus (exit_status os procs (length procs - 1))]).
Proof.
  intros Hne (Hp & Hf & Hc & Hw & Hd) Hfin. unfold execute.
  set (size := length procs) in *.
  assert (Hsize : size <> 0%nat) by (subst size; destruct procs; cbn; congruence).
  unfold bind at 1. rewrite (makePipes_ok os size Hp).
  unfold bind at 1. unfold spawn_all, for_upto.
  rewrite spawn_all_ok by (intros k Hk; specialize (Hf k); lia).
  unfold bind at 1. unfold waitOnProcesses. unfold bind at 1.
  rewrite <- waiting_0.
  destruct (wait_loop_outcome os procs size
              (fun i Hi => proj2 (Hfin i) Hi) size 0 (stack_garbage os)
              ltac:(lia))
    as [[_ Hret] | [(k & Hk & Hbad) _]].
  - rewrite Hret. cbn [Nat.add]. rewrite waiting_all.
    destruct size as [ | n] eqn:Es; [congruence | ].
    rewrite (waited_status_own os procs (S n)) by (auto; lia).
    unfold ret, print, exit_status. cbn.
    replace (n - 0)%nat with n by lia. reflexivity.
  - exfalso. destruct Hbad as [H | [H | H]].
    + rewrite Hc in H by lia. discriminate.
    + rewrite Hc in H by lia. discriminate.
    + rewrite Hw in H by lia. discriminate.
Qed.

(** A call of the parent that is answered by a failure ends the shell
    with [EXIT_FAILURE] and one diagnostic. *)
Lemma execute_parent_failure (os : OS) (procs : pipeline) :
  all_finish os (length procs) ->
  parent_failure os (length procs) ->
  exists l m,
    execute os procs initial_proc
    = Exit EXIT_FAILURE (mkProc Parent l None None [Msg m] []).
Proof.
  intros Hfin (i & Hi & Hbad). unfold execute.
  set (size := length procs) in *.
  destruct (bounded_cases (pipe_ok os) size) as [Hp | (k & Hk & Hpk)].
  2: { destruct (makePipes_fails_from os Parent None None size 0 [])
         as [l Hl]; [exists k; split; [lia | exact Hpk] | ].
       exists l, "Pipe Error"%string. unfold bind at 1.
       unfold makePipes, for_upto, initial_proc. rewrite Hl. reflexivity. }
  unfold bind at 1. rewrite (makePipes_ok os size Hp).
  destruct (bounded_cases (fun j => negb (fork_ret os j <? 0)) size)
    as [Hf | (k & Hk & Hfk)].
  2: { exists (all_fds size), "Fork Error"%string.
       unfold bind at 1. unfold spawn_all, for_upto.
       rewrite spawn_all_fails; [reflexivity | ].
       exists k. split; [lia | ].
       apply negb_false_iff, Z.ltb_lt in Hfk. exact Hfk. }
  unfold bind at 1. unfold spawn_all, for_upto.
  rewrite spawn_all_ok.
  2: { intros k Hk. specialize (Hf k ltac:(lia)).
       apply negb_true_iff, Z.ltb_ge in Hf. exact Hf. }
  unfold bind at 1. unfold waitOnProcesses. unfold bind at 1.
  rewrite <- waiting_0.
  destruct (wait_loop_outcome os procs size Hfin size 0 (stack_garbage os)
              ltac:(lia))
    as [[Hall _] | [_ (l & m & Hexit)]].
  - exfalso. destruct (Hall i ltac:(lia)) as (Hrd & Hwr & Hw).
    destruct Hbad as [H | [H | [H | [H | H]]]]; try congruence.
    + rewrite Hp in H by lia. discriminate.
    + specialize (Hf i Hi). apply negb_true_iff, Z.ltb_ge in Hf. lia.
  - rewrite Hexit. exists l, m. reflexivity.
Qed.

(** ** Wait statuses *)

Lemma WEXITSTATUS_W_EXITCODE (code : Z) :
  0 <= code < 256 -> WEXITSTATUS (W_EXITCODE code) = code.
Proof.
  intros H. unfold WEXITSTATUS, W_EXITCODE.
  change 65280 with (Z.shiftl 255 8).
  rewrite <- Z.shiftl_land, Z.shiftr_shiftl_l by lia.
  rewrite <- Z.land_assoc, Z.land_diag.
  change (8 - 8) with 0. rewrite Z.shiftl_0_r.
  change 255 with (Z.ones 8). rewrite Z.land_ones by lia.
  apply Z.mod_small. change (2 ^ 8) with 256. exact H.
Qed.

(** ** The status [execute] reports *)

Lemma finish_complete_of_permutation (os : OS) (size : nat) :
  Permutation (seq 0 size) (finish_order os) -> finish_complete os size.
Proof.
  intros Hperm i. split; intros H.
  - apply Permutation_sym in Hperm.
    apply (Permutation_in _ Hperm), in_seq in H. lia.
  - apply (Permutation_in _ Hperm), in_seq. lia.
Qed.

(** C1. When the calls the parent makes succeed, [execute] on a pipeline
    that is not empty prints the exit status of the stage of index
    N - 1, whatever the order in which the children end (any permutation
    of the stages) and whatever the wait statuses of the other stages;
    that exit status is the code the last stage ended with. *)
Theorem reported_status_is_last_stage (os : OS) (procs : pipeline) :
  procs <> [] ->
  parent_healthy os (length procs) ->
  Permutation (seq 0 (length procs)) (finish_order os) ->
  execute os procs initial_proc
  = Ret tt (mkProc Parent [] None None []
                   [JshStatus (exit_status os procs (length procs - 1))])
  /\ (forall code,
        0 <= code < 256 ->
        child_status os procs (length procs - 1) = W_EXITCODE code ->
        exit_status os procs (length procs - 1) = code).
Proof.
  intros Hne Hh Hperm. split.
  - apply execute_healthy; auto using finish_complete_of_permutation.
  - intros code Hc E. unfold exit_status. rewrite E.
    apply WEXITSTATUS_W_EXITCODE. exact Hc.
Qed.

Lemma reported_status_is_last_stage_witness :
  execute (healthy_os (fun i => W_EXITCODE (Z.of_nat i + 5)) [2; 0; 1]%nat)
          printf_tr_rev initial_proc
  = Ret tt (mkProc Parent [] None None []
              [JshStatus
                 (exit_status
                    (healthy_os (fun i => W_EXITCODE (Z.of_nat i + 5))
                                [2; 0; 1]%nat)
                    printf_tr_rev (length printf_tr_rev - 1))])
  /\ (forall code,
        0 <= code < 256 ->
        child_status
          (healthy_os (fun i => W_EXITCODE (Z.of_nat i + 5)) [2; 0; 1]%nat)
          printf_tr_rev (length printf_tr_rev - 1) = W_EXITCODE code ->
        exit_status
          (healthy_os (fun i => W_EXITCODE (Z.of_nat i + 5)) [2; 0; 1]%nat)
          printf_tr_rev (length printf_tr_rev - 1) = code).
Proof.
  apply (reported_status_is_last_stage
           (healthy_os (fun i => W_EXITCODE (Z.of_nat i + 5)) [2; 0; 1]%nat)
           printf_tr_rev).
  - discriminate.
  - unfold parent_healthy, pipes_ok, forks_ok, parent_closes_ok, waits_ok,
      distinct_pids.
    unfold healthy_os.
    repeat split; intros;
      cbn [pipe_ok fork_ret close_ok waitpid_ok] in *;
      try reflexivity; lia.
  - cbn. apply (Permutation_cons_app [2%nat] [1%nat]). cbn.
    apply perm_swap.
Defined.

(** ** Pipes *)

Lemma length_all_fds (n : nat) : length (all_fds n) = (2 * n)%nat.
Proof.
  unfold all_fds.
  assert (H : forall i,
             length (flat_map (fun i => [(i, RD); (i, WR)]) (seq i n))
             = (n + n)%nat).
  { induction n as [ | n IH]; intros i; cbn [seq flat_map]; [reflexivity | ].
    rewrite length_app, IH. cbn. lia. }
  rewrite H. lia.
Qed.

(** C3, as the source has it. [execute] opens one pipe for every stage, N
    pipes for N stages, of which the last is put on no standard stream:
    the child of stage [ind] reads its standard input from pipe
    [ind - 1] unless it is the first and writes its standard output to
    pipe [ind] unless it is the last. *)
Theorem makePipes_opens_size_pipes (os : OS) (procs : pipeline) :
  pipes_ok os (length procs) ->
  makePipes os (length procs) initial_proc
  = Ret tt (mkProc Parent (all_fds (length procs)) None None [] [])
  /\ length (all_fds (length procs)) = (2 * length procs)%nat
  /\ (forall ind prog rest,
        (ind < length procs)%nat ->
        (forall k, (k <= ind)%nat -> 0 < fork_ret os k) ->
        child_healthy os ind ->
        nth ind procs [] = prog :: rest ->
        execvp_ok os (cstr prog) = true ->
        exists p,
          child os procs ind
          = Some (Exec (cstr prog) (map cstr (prog :: rest)) p)
          /\ stdin_fd p
             = (if Nat.eqb ind 0 then None else Some ((ind - 1)%nat, RD))
          /\ stdout_fd p
             = (if Nat.eqb ind (length procs - 1) then None
                else Some (ind, WR))).
Proof.
  intros Hp. split; [apply makePipes_ok; exact Hp | ].
  split; [apply length_all_fds | ].
  intros ind prog rest Hind Hf Hc Hst Hx.
  exists (wired (length procs) ind).
  rewrite (child_runs os procs ind prog rest Hind Hp Hf Hc Hst), Hx.
  repeat split.
Qed.

Lemma makePipes_opens_size_pipes_witness :
  makePipes (healthy_os (fun _ => 0) [0; 1]%nat) (length ls_wc) initial_proc
  = Ret tt (mkProc Parent (all_fds (length ls_wc)) None None [] [])
  /\ length (all_fds (length ls_wc)) = (2 * length ls_wc)%nat
  /\ (forall ind prog rest,
        (ind < length ls_wc)%nat ->
        (forall k, (k <= ind)%nat ->
                   0 < fork_ret (healthy_os (fun _ => 0) [0; 1]%nat) k) ->
        child_healthy (healthy_os (fun _ => 0) [0; 1]%nat) ind ->
        nth ind ls_wc [] = prog :: rest ->
        execvp_ok (healthy_os (fun _ => 0) [0; 1]%nat) (cstr prog) = true ->
        exists p,
          child (healthy_os (fun _ => 0) [0; 1]%nat) ls_wc ind
          = Some (Exec (cstr prog) (map cstr (prog :: rest)) p)
          /\ stdin_fd p
             = (if Nat.eqb ind 0 then None else Some ((ind - 1)%nat, RD))
          /\ stdout_fd p
             = (if Nat.eqb ind (length ls_wc - 1) then None
                else Some (ind, WR))).
Proof.
  apply (makePipes_opens_size_pipes (healthy_os (fun _ => 0) [0; 1]%nat) ls_wc).
  intros i Hi. reflexivity.
Defined.

(** C3, as the specification words it, fails on a pipeline of one stage:
    [makePipes] opens one pipe, two descriptors, where zero are claimed. *)
Lemma single_stage_opens_a_pipe :
  length ls_only = 1%nat
  /\ makePipes (healthy_os (fun _ => 0) [0]%nat) (length ls_only) initial_proc
     = Ret tt (mkProc Parent [(0%nat, RD); (0%nat, WR)] None None [] [])
  /\ ~ (exists p,
          makePipes (healthy_os (fun _ => 0) [0]%nat) (length ls_only)
                    initial_proc = Ret tt p
          /\ length (open_fds p) = (2 * (length ls_only - 1))%nat).
Proof.
  split; [reflexivity | ]. split; [vm_compute; reflexivity | ].
  intros (p & Hp & Hlen). vm_compute in Hp. injection Hp as <-.
  vm_compute in Hlen. discriminate.
Qed.

(** ** Descriptors open in a child *)

Lemma wired_open_fds (size ind : nat) (d : fd) :
  In d (open_fds (wired size ind)) <->
  (fst d < size)%nat
  /\ (fst d = (size - 1)%nat
      \/ (Z.of_nat (fst d) = Z.of_nat ind - 1 /\ snd d = RD)
      \/ (fst d = ind /\ snd d = WR)).
Proof.
  unfold wired. cbn [open_fds]. rewrite filter_In, in_all_fds.
  unfold kept_from, needed.
  rewrite !orb_true_iff, !andb_true_iff, Nat.leb_le, Z.eqb_eq, Nat.eqb_eq.
  destruct d as [k [ | ]]; cbn [fst snd End_eqb]; split; intros [H1 H2];
    (split; [exact H1 | ]);
    repeat match goal with
           | H : _ \/ _ |- _ => destruct H
           | H : _ /\ _ |- _ => destruct H
           end;
    try discriminate; try lia; auto.
Qed.

(** C5 at a pipeline of one stage and at the middle stage of three. The
    child of the only stage of ls calls [execvp] with both ends of pipe 0
    open, where it needs none; the child of stage 1 of three stages calls
    it with both ends of pipe 2 open besides the two ends it needs. *)
Theorem child_keeps_last_pipe_open :
  child (healthy_os (fun _ => 0) [0]%nat) ls_only 0
  = Some (Exec (chars "ls") [chars "ls"]
               (mkProc (Child 0) [(0%nat, RD); (0%nat, WR)] None None [] []))
  /\ child (healthy_os (fun _ => 0) [0; 1; 2]%nat) printf_tr_rev 1
     = Some (Exec (chars "tr") [chars "tr"; chars "a-z"; chars "A-Z"]
                  (mkProc (Child 1)
                          [(0%nat, RD); (1%nat, WR); (2%nat, RD); (2%nat, WR)]
                          (Some (0%nat, RD)) (Some (1%nat, WR)) [] [])).
Proof.
  split; vm_compute; reflexivity.
Qed.

(** ** Failures *)

(** What [runChild] has done when it calls [execvp], whatever the buffer
    of standard output the child got from the parent. *)
Lemma runChild_wired_buffered (os : OS) (procs : pipeline) (ind : nat)
      (pending : list output) :
  (ind < length procs)%nat ->
  child_healthy os ind ->
  runChild os procs ind
    (mkProc (Child ind) (all_fds (length procs)) None None [] pending)
  = (sys_execvp os (nth ind procs []) ;;;
     eprint (CommandNotFound (cstr (hd [] (nth ind procs [])))) ;;;
     ret (-1))
      (mkProc (Child ind) (open_fds (wired (length procs) ind))
              (stdin_fd (wired (length procs) ind))
              (stdout_fd (wired (length procs) ind)) [] pending).
Proof.
  intros Hind [Hclose Hdup]. unfold runChild, closeUnneededPipes, for_upto.
  set (size := length procs) in *.
  unfold bind at 1.
  rewrite <- (kept_from_0 ind size) at 1.
  rewrite (closeUnneededPipes_from_ok os size ind) by (auto; lia).
  cbn [Nat.add].
  assert (Hopen : forall d, (fst d < size)%nat -> needed ind d = true ->
            forall si so,
              is_open d (mkProc (Child ind)
                           (filter (kept_from (size - 1) ind) (all_fds size))
                           si so [] pending) = true).
  { intros d Hd Hn si so. unfold is_open. cbn [open_fds].
    apply existsb_fd_eqb, filter_In. split; [apply in_all_fds; exact Hd | ].
    unfold kept_from. rewrite Hn. apply orb_true_r. }
  unfold wired. cbn [open_fds stdin_fd stdout_fd].
  destruct (Nat.eqb_spec ind 0) as [E0 | E0];
    destruct (Nat.eqb_spec ind (size - 1)) as [E1 | E1].
  - destruct (Z.eqb_spec (Z.of_nat ind) 0); [ | lia].
    destruct (Z.eqb_spec (Z.of_nat ind) (Z.of_nat size - 1)); [ | lia].
    reflexivity.
  - destruct (Z.eqb_spec (Z.of_nat ind) 0); [ | lia].
    destruct (Z.eqb_spec (Z.of_nat ind) (Z.of_nat size - 1)); [lia | ].
    cbn [negb]. unfold bind at 1. unfold ret at 1.
    unfold bind at 1. unfold bind at 1. unfold sys_dup2_stdout at 1.
    rewrite Hopen by (try apply needed_write; cbn [fst]; lia).
    cbn [self]. rewrite Hdup. reflexivity.
  - destruct (Z.eqb_spec (Z.of_nat ind) 0); [lia | ].
    destruct (Z.eqb_spec (Z.of_nat ind) (Z.of_nat size - 1)); [ | lia].
    cbn [negb]. unfold bind at 1. unfold bind at 1. unfold sys_dup2_stdin at 1.
    rewrite Hopen by (try (apply needed_read; lia); cbn [fst]; lia).
    cbn [self]. rewrite Hdup. reflexivity.
  - destruct (Z.eqb_spec (Z.of_nat ind) 0); [lia | ].
    destruct (Z.eqb_spec (Z.of_nat ind) (Z.of_nat size - 1)); [lia | ].
    cbn [negb]. unfold bind at 1. unfold bind at 1. unfold sys_dup2_stdin at 1.
    rewrite Hopen by (try (apply needed_read; lia); cbn [fst]; lia).
    cbn [self]. rewrite Hdup. cbn [andb Z.eqb].
    unfold ret at 1.
    unfold bind at 1. unfold bind at 1. unfold sys_dup2_stdout at 1.
    cbn [open_fds self stdin_fd stdout_fd stderr_out stdout_out].
    rewrite Hopen by (try apply needed_write; cbn [fst]; lia).
    cbn [self]. rewrite Hdup. reflexivity.
Qed.

(** Whatever the parent has in the buffer of its standard output when it
    forks, the child whose program is not found writes it out as it
    ends: into the pipe to the next stage when there is one, on the
    standard output of the shell when the stage is the last. *)
Lemma failing_child_writes_the_buffer
      (os : OS) (procs : pipeline) (ind : nat) (prog : arg) (rest : stage)
      (pending : list output) :
  (ind < length procs)%nat ->
  pipes_ok os (length procs) ->
  (forall k, (k <= ind)%nat -> 0 < fork_ret os k) ->
  child_healthy os ind ->
  nth ind procs [] = prog :: rest ->
  execvp_ok os (cstr prog) = false ->
  exists p,
    child_of (mkProc Parent [] None None [] pending) os procs ind
    = Some (Exit 127 p)
    /\ stderr_out p = [CommandNotFound (cstr prog)]
    /\ written_at_exit (Exit 127 p : outcome unit)
       = Some (if Nat.eqb ind (length procs - 1) then None
               else Some (ind, WR),
               pending).
Proof.
  intros Hind Hp Hf Hc Hst Hx. unfold child_of, bind.
  unfold makePipes, for_upto.
  rewrite makePipes_from by (intros k Hk; apply Hp; lia).
  unfold spawn_all, for_upto.
  rewrite spawn_all_ok by (intros k Hk; specialize (Hf k); lia).
  unfold fork_copy. cbn [open_fds stdin_fd stdout_fd stdout_out app seq].
  change (flat_map (fun i => [(i, RD); (i, WR)]) (seq 0 (length procs)))
    with (all_fds (length procs)).
  eexists. split; [ | split].
  - unfold child_body, bind.
    rewrite (runChild_wired_buffered os procs ind pending Hind Hc), Hst.
    unfold bind, sys_execvp. cbn [hd]. rewrite Hx. cbn. reflexivity.
  - reflexivity.
  - reflexivity.
Qed.

(** C6 at the line nosuchprog123 | cat, read while the prompt printed at
    line 71 is still in the buffer of standard output. The line parses
    into its two stages and [main] passes them to [execute]; the child of
    stage 0 prints the command-not-found diagnostic and ends with status
    127, and the exit that ends it writes the prompt it inherited into
    pipe 0, whose read end is the standard input of cat, the child of
    stage 1: what the stage that failed leaves behind reaches the stage
    next to it. *)
Theorem failing_child_flushes_the_prompt :
  makeProcesses (line "nosuchprog123 | cat") = Some nosuch_cat
  /\ dispatch nosuch_cat = DoExecute nosuch_cat
  /\ (exists p,
         child_of (prompted initial_proc) os_no_such_prog nosuch_cat 0
         = Some (Exit 127 p)
         /\ stderr_out p = [CommandNotFound (chars "nosuchprog123")]
         /\ written_at_exit (Exit 127 p : outcome unit)
            = Some (Some (0%nat, WR), [Prompt]))
  /\ (exists q,
         child_of (prompted initial_proc) os_no_such_prog nosuch_cat 1
         = Some (Exec (chars "cat") [chars "cat"] q)
         /\ stdin_fd q = Some (0%nat, RD)).
Proof.
  split; [vm_compute; reflexivity | ].
  split; [vm_compute; reflexivity | ].
  split; eexists; (split; [vm_compute; reflexivity | ]);
    repeat split; reflexivity.
Qed.

(** C7, as the source has it. A failure of pipe, of fork, of a close made
    by the parent or of waitpid ends the shell: [execute] prints one
    diagnostic and calls exit with [EXIT_FAILURE]. A failure of a close or
    of a dup2 made by the child of a stage ends that child alone, with
    one diagnostic and status 127, and [execute] returns in the parent,
    which prints a status and goes on. *)
Theorem resource_failures (os : OS) (procs : pipeline) (ind : nat) :
  procs <> [] ->
  all_finish os (length procs) ->
  (parent_failure os (length procs) ->
   exists l m,
     execute os procs initial_proc
     = Exit EXIT_FAILURE (mkProc Parent l None None [Msg m] []))
  /\ (parent_healthy os (length procs) ->
      finish_complete os (length procs) ->
      (ind < length procs)%nat ->
      child_failure os (length procs) ind ->
      (exists l si so m,
          child os procs ind
          = Some (Exit 127 (mkProc (Child ind) l si so [Msg m] [])))
      /\ exists status,
          execute os procs initial_proc
          = Ret tt (mkProc Parent [] None None [] [JshStatus status])).
Proof.
  intros Hne Hfin. split.
  - intros Hbad. apply execute_parent_failure; assumption.
  - intros Hh Hcomplete Hind Hbad. pose proof Hh as (Hp & Hf & _). split.
    + apply child_failure_exits; auto. intros k Hk. apply Hf. lia.
    + eexists. apply execute_healthy; assumption.
Qed.

Lemma resource_failures_witness :
  (exists l m,
      execute os_pipe_fails ls_wc initial_proc
      = Exit EXIT_FAILURE (mkProc Parent l None None [Msg m] []))
  /\ (exists l si so m,
         child os_dup2_fails ls_wc 1
         = Some (Exit 127 (mkProc (Child 1) l si so [Msg m] [])))
  /\ exists status,
      execute os_dup2_fails ls_wc initial_proc
      = Ret tt (mkProc Parent [] None None [] [JshStatus status]).
Proof.
  split.
  - apply (proj1 (resource_failures os_pipe_fails ls_wc 0
                    ltac:(discriminate)
                    ltac:(intros i Hi; cbn in *; lia))).
    exists 1%nat. split; [cbn; lia | left; reflexivity].
  - apply (proj2 (resource_failures os_dup2_fails ls_wc 1
                    ltac:(discriminate)
                    ltac:(intros i Hi; cbn in *; lia))).
    + unfold parent_healthy, pipes_ok, forks_ok, parent_closes_ok, waits_ok,
        distinct_pids, os_dup2_fails.
      repeat split; intros;
        cbn [pipe_ok fork_ret close_ok waitpid_ok] in *;
        try reflexivity; lia.
    + intros i. cbn. lia.
    + cbn. lia.
    + right. left. split; [discriminate | reflexivity].
Defined.

(** C7, as the specification words it, fails where dup2 fails in the
    child of stage 1 of ls | wc: that child prints its diagnostic and
    ends with status 127, while [execute] returns in the parent, which
    prints status 127 and is not ended. *)
Lemma dup2_failure_spares_the_shell :
  dup2_ok os_dup2_fails (Child 1) (0%nat, RD) = false
  /\ child os_dup2_fails ls_wc 1
     = Some (Exit 127
               (mkProc (Child 1) [(0%nat, RD); (1%nat, RD); (1%nat, WR)]
                       None None [Msg "IO Duplication Error"] []))
  /\ execute os_dup2_fails ls_wc initial_proc
     = Ret tt (mkProc Parent [] None None [] [JshStatus 127])
  /\ ~ (exists code p,
          execute os_dup2_fails ls_wc initial_proc = Exit code p).
Proof.
  assert (E : execute os_dup2_fails ls_wc initial_proc
              = Ret tt (mkProc Parent [] None None [] [JshStatus 127]))
    by (vm_compute; reflexivity).
  split; [reflexivity | ]. split; [vm_compute; reflexivity | ].
  split; [exact E | ].
  intros (code & p & H). rewrite E in H. discriminate.
Qed.

Example tokenize_echo_hi_cat :
  makeProcesses (line "echo hi | cat")
  = Some [[chars "echo"; chars "hi"]; [chars "cat"]].
Proof. vm_compute. reflexivity. Qed.

Example run_two_stages :
  execute (healthy_os (fun i => W_EXITCODE (Z.of_nat i + 3)) [1; 0]%nat)
          [[chars "echo"; chars "hi"]; [chars "cat"]] initial_proc
  = Ret tt (mkProc Parent [] None None [] [JshStatus 4]).
Proof. vm_compute. reflexivity. Qed.

(** * Further properties *)

(** ** How the runs of the parent and of a child end *)

Section Outcomes.

Context {A B : Type}.

Lemma parent_outcome_bind (m : M A) (k : A -> M B) :
  (forall p, parent_outcome (m p)) ->
  (forall a p, parent_outcome (k a p)) ->
  forall p, parent_outcome (bind m k p).
Proof.
  intros Hm Hk p. unfold bind. specialize (Hm p).
  destruct (m p); cbn in *; auto.
Qed.

Lemma child_step_outcome_bind (m : M A) (k : A -> M B) :
  (forall p, child_step_outcome (m p)) ->
  (forall a p, child_step_outcome (k a p)) ->
  forall p, child_step_outcome (bind m k p).
Proof.
  intros Hm Hk p. unfold bind. specialize (Hm p).
  destruct (m p); cbn in *; auto.
Qed.

Lemma runChild_outcome_bind (st : stage) (m : M A) (k : A -> M Z) :
  (forall p, child_step_outcome (m p)) ->
  (forall a p, runChild_outcome st (k a p)) ->
  forall p, runChild_outcome st (bind m k p).
Proof.
  intros Hm Hk p. unfold bind. specialize (Hm p).
  destruct (m p); cbn in *; auto; contradiction.
Qed.

End Outcomes.

Lemma parent_outcome_for_from (body : nat -> M unit) :
  (forall i p, parent_outcome (body i p)) ->
  forall n i p, parent_outcome (for_from i n body p).
Proof.
  intros Hb. induction n as [ | n IH]; intros i p; cbn [for_from].
  - exact I.
  - apply parent_outcome_bind; auto.
Qed.

Lemma child_step_outcome_for_from (body : nat -> M unit) :
  (forall i p, child_step_outcome (body i p)) ->
  forall n i p, child_step_outcome (for_from i n body p).
Proof.
  intros Hb. induction n as [ | n IH]; intros i p; cbn [for_from].
  - exact I.
  - apply child_step_outcome_bind; auto.
Qed.

Lemma sys_close_returns (os : OS) (d : fd) (p : proc) :
  exists r p', sys_close os d p = Ret r p'.
Proof.
  unfold sys_close. destruct (is_open d p && close_ok os (self p) d); eauto.
Qed.

Lemma makePipes_parent_outcome (os : OS) (size : nat) (p : proc) :
  parent_outcome (makePipes os size p).
Proof.
  unfold makePipes, for_upto. apply parent_outcome_for_from.
  intros i q. unfold bind, sys_pipe.
  destruct (pipe_ok os i); cbn; auto.
Qed.

Lemma spawn_all_parent_outcome (os : OS) (size : nat) (p : proc) :
  parent_outcome (spawn_all os size p).
Proof.
  unfold spawn_all, for_upto. apply parent_outcome_for_from.
  intros i q. destruct (fork_ret os i <? 0); cbn; auto.
Qed.

Lemma waitOnProcesses_loop_parent_outcome (os : OS) (procs : pipeline) :
  forall n i status p,
    parent_outcome (waitOnProcesses_loop os procs i n status p).
Proof.
  induction n as [ | n IH]; intros i status p; cbn [waitOnProcesses_loop].
  - exact I.
  - unfold bind at 1.
    destruct (sys_close_returns os (i, RD) p) as (r0 & p0 & ->).
    unfold bind at 1.
    destruct (r0 =? -1).
    + cbn. reflexivity.
    + unfold bind at 1.
      destruct (sys_close_returns os (i, WR) p0) as (r1 & p1 & ->).
      unfold ret at 1.
      destruct (r1 =? -1); [cbn; reflexivity | ].
      unfold bind at 1. unfold sys_waitpid.
      destruct (waitpid_ok os (fork_ret os i)); [ | cbn; reflexivity].
      destruct (find _ _); [apply IH | exact I].
Qed.

Lemma execute_parent_outcome (os : OS) (procs : pipeline) (p : proc) :
  parent_outcome (execute os procs p).
Proof.
  unfold execute. apply parent_outcome_bind.
  - apply makePipes_parent_outcome.
  - intros _ p1. apply parent_outcome_bind.
    + apply spawn_all_parent_outcome.
    + intros _ p2. apply parent_outcome_bind.
      * unfold waitOnProcesses. apply parent_outcome_bind.
        -- apply waitOnProcesses_loop_parent_outcome.
        -- intros s q. exact I.
      * intros s q. exact I.
Qed.

(** ** How a session ends *)

Lemma dispatch_exit (procs : pipeline) :
  dispatch procs = DoExit ->
  exists prog rest more,
    procs = (prog :: rest) :: more /\ cstr prog = chars "exit".
Proof.
  unfold dispatch. destruct procs as [ | [ | prog rest] more]; try discriminate.
  destruct (list_eq_dec Z.eq_dec (cstr prog) (chars "exit")) as [E | ];
    [ | discriminate].
  intros _. exists prog, rest, more. auto.
Qed.

Lemma dispatch_parsed_never_crashes (input : list Z) (procs : pipeline) :
  makeProcesses input = Some procs -> dispatch procs <> DoCrash.
Proof.
  intros Hmk. destruct (makeProcesses_total input) as (q & Hq & Hall).
  rewrite Hmk in Hq. injection Hq as <-.
  unfold dispatch. destruct procs as [ | [ | prog rest] more].
  - discriminate.
  - apply Forall_inv in Hall. destruct Hall as [Hne _].
    exfalso. apply Hne. reflexivity.
  - destruct (list_eq_dec Z.eq_dec (cstr prog) (chars "exit")); discriminate.
Qed.

Lemma main_loop_ends (os_at : nat -> OS) :
  forall (stdin : list fgets_result) (n : nat) (p0 : proc),
    lines_fit stdin ->
    match main_loop os_at n stdin p0 with
    | Exited code q =>
        code = 1
        \/ (code = 0
            /\ exists n' input rest p prog args more,
                reaches os_at n stdin p0 n' (Line input :: rest) p
                /\ makeProcessesC input = Parsed ((prog :: args) :: more)
                /\ cstr prog = chars "exit"
                /\ q = prompted p)
    | Crashed _ => False
    | Hung q =>
        exists n' input rest p procs,
          reaches os_at n stdin p0 n' (Line input :: rest) p
          /\ makeProcessesC input = Parsed procs
          /\ dispatch procs = DoExecute procs
          /\ execute (os_at n') procs (prompted p) = Block q
    end.
Proof.
  induction stdin as [ | r rest IH]; intros n p0 Hfit; cbn [main_loop print].
  - left. reflexivity.
  - destruct r as [input | | ]; try (left; reflexivity).
    assert (Hrest : lines_fit rest).
    { intros i Hi. apply Hfit. right. exact Hi. }
    destruct (Hfit input (or_introl eq_refl)) as [procs HC].
    pose proof (proj1 (makeProcessesC_Parsed input procs) HC) as [Hmk _].
    rewrite Hmk.
    pose proof (dispatch_parsed_never_crashes input procs Hmk) as Hcrash.
    change (mkProc (self p0) (open_fds p0) (stdin_fd p0) (stdout_fd p0)
                   (stderr_out p0) (stdout_out p0 ++ [Prompt]))
      with (prompted p0).
    destruct (dispatch procs) as [ | | procs' | ] eqn:Hd; [ | | | congruence].
    + specialize (IH (S n) (prompted p0) Hrest).
      destruct (main_loop os_at (S n) rest (prompted p0)) as [code q | q | q];
        auto.
      * destruct IH as [H | (H0 & n' & i & rs & p & pr & ar & more
                                 & Hr & Hp & He & Hq)]; auto.
        right. split; auto. exists n', i, rs, p, pr, ar, more.
        repeat split; auto.
        eapply reaches_blank; eauto.
      * destruct IH as (n' & i & rs & p & pr & Hr & Hp & Hdp & Hb).
        exists n', i, rs, p, pr. repeat split; auto.
        eapply reaches_blank; eauto.
    + right. split; [reflexivity | ].
      destruct (dispatch_exit procs Hd) as (prog & ar & more & -> & He).
      exists n, input, rest, p0, prog, ar, more.
      repeat split; auto. apply reaches_here.
    + apply dispatch_execute in Hd as Hd'. destruct Hd' as [-> _].
      pose proof (execute_parent_outcome (os_at n) procs (prompted p0))
        as Hout.
      destruct (execute (os_at n) procs (prompted p0))
        as [[] p' | code p' | ? ? p' | p'] eqn:He; cbn in Hout.
      * specialize (IH (S n) p' Hrest).
        destruct (main_loop os_at (S n) rest p') as [code q | q | q]; auto.
        -- destruct IH as [H | (H0 & n' & i & rs & p & pr & ar & more
                                   & Hr & Hp & Hex & Hq)]; auto.
           right. split; auto. exists n', i, rs, p, pr, ar, more.
           repeat split; auto.
           eapply reaches_run; eauto.
        -- destruct IH as (n' & i & rs & p & pr & Hr & Hp & Hdp & Hb).
           exists n', i, rs, p, pr. repeat split; auto.
           eapply reaches_run; eauto.
      * left. exact Hout.
      * contradiction.
      * exists n, input, rest, p0, procs. repeat split; auto.
        apply reaches_here.
Qed.

(** X1. Of a session all of whose lines parse inside their blocks.
    It never reads through the NULL first argument of an empty stage.
    When it ends with a status, the status is 1, or it is 0 and the
    session came, through rounds that all returned to the prompt, to a
    line whose first word is exit, and ended there after printing that
    prompt. When it never ends, the session came in the same way to a
    line whose pipeline it passed to [execute], and that very call is
    waiting for a child that does not end. *)
Theorem session_ends (os_at : nat -> OS) (stdin : list fgets_result) :
  lines_fit stdin ->
  match main os_at stdin with
  | Exited code q =>
      code = 1
      \/ (code = 0
          /\ exists n' input rest p prog args more,
              reaches os_at 0 stdin initial_proc n' (Line input :: rest) p
              /\ makeProcessesC input = Parsed ((prog :: args) :: more)
              /\ cstr prog = chars "exit"
              /\ q = prompted p)
  | Crashed _ => False
  | Hung q =>
      exists n' input rest p procs,
        reaches os_at 0 stdin initial_proc n' (Line input :: rest) p
        /\ makeProcessesC input = Parsed procs
        /\ dispatch procs = DoExecute procs
        /\ execute (os_at n') procs (prompted p) = Block q
  end.
Proof.
  unfold main. apply main_loop_ends.
Qed.

Lemma session_ends_witness :
  match main (fun _ => healthy_os (fun _ => 0) [0]%nat)
             [Line (line "ls"); Line (line "exit")] with
  | Exited code q =>
      code = 1
      \/ (code = 0
          /\ exists n' input rest p prog args more,
              reaches (fun _ => healthy_os (fun _ => 0) [0]%nat) 0
                      [Line (line "ls"); Line (line "exit")] initial_proc
                      n' (Line input :: rest) p
              /\ makeProcessesC input = Parsed ((prog :: args) :: more)
              /\ cstr prog = chars "exit"
              /\ q = prompted p)
  | Crashed _ => False
  | Hung q =>
      exists n' input rest p procs,
        reaches (fun _ => healthy_os (fun _ => 0) [0]%nat) 0
                [Line (line "ls"); Line (line "exit")] initial_proc
                n' (Line input :: rest) p
        /\ makeProcessesC input = Parsed procs
        /\ dispatch procs = DoExecute procs
        /\ execute (healthy_os (fun _ => 0) [0]%nat) procs (prompted p)
           = Block q
  end.
Proof.
  apply (session_ends (fun _ => healthy_os (fun _ => 0) [0]%nat)
                      [Line (line "ls"); Line (line "exit")]).
  intros input [H | [H | []]]; injection H as <-;
    eexists; vm_compute; reflexivity.
Defined.

(** ** The child of a stage never comes back *)

Lemma close_or_exit_outcome (os : OS) (d : fd) (test : bool) (p : proc) :
  child_step_outcome
    ((if test
      then r <- sys_close os d ;;
           if r =? -1
           then eprint (Msg "Error closing file descriptor") ;;; exit 127
           else ret tt
      else ret tt) p).
Proof.
  destruct test; [ | exact I]. unfold bind at 1.
  destruct (sys_close_returns os d p) as (r & p' & ->).
  destruct (r =? -1); cbn; auto.
Qed.

Lemma closeUnneededPipes_outcome (os : OS) (size ind : nat) (p : proc) :
  child_step_outcome (closeUnneededPipes os size ind p).
Proof.
  unfold closeUnneededPipes, for_upto. apply child_step_outcome_for_from.
  intros i q. unfold close_step. apply child_step_outcome_bind.
  - intros q'. apply close_or_exit_outcome.
  - intros _ q'. apply close_or_exit_outcome.
Qed.

Lemma runChild_ends (os : OS) (procs : pipeline) (ind : nat) (p : proc) :
  runChild_outcome (nth ind procs []) (runChild os procs ind p).
Proof.
  unfold runChild. apply runChild_outcome_bind.
  { apply closeUnneededPipes_outcome. }
  intros _ p1. apply runChild_outcome_bind.
  { intros q. destruct (negb (Z.of_nat ind =? 0)); [ | exact I].
    unfold bind at 1. unfold sys_dup2_stdin.
    destruct (is_open _ q && dup2_ok os (self q) _); cbn; auto. }
  intros _ p2. apply runChild_outcome_bind.
  { intros q.
    destruct (negb (Z.of_nat ind =? Z.of_nat (length procs) - 1)); [ | exact I].
    unfold bind at 1. unfold sys_dup2_stdout.
    destruct (is_open _ q && dup2_ok os (self q) _); cbn; auto. }
  intros _ p3. unfold bind, sys_execvp.
  destruct (nth ind procs []) as [ | w ws]; [cbn; reflexivity | ].
  destruct (execvp_ok os (cstr w)); cbn; [ | reflexivity].
  exists w, ws. auto.
Qed.

(** X2. Whatever the operating system answers and whatever state it
    starts from, the branch of [execute] run where fork returned 0 never
    falls back into the loop of the parent: it ends by exit with status
    127, or by [execvp] of the program named by the first argument of its
    own stage, with that stage's arguments. *)
Theorem child_never_returns
        (os : OS) (procs : pipeline) (ind : nat) (p : proc) :
  match child_body os procs ind p with
  | Exit code _ => code = 127
  | Exec prog argv _ =>
      exists w ws,
        nth ind procs [] = w :: ws
        /\ prog = cstr w /\ argv = map cstr (w :: ws)
  | Ret _ _ => False
  | Block _ => False
  end.
Proof.
  unfold child_body, bind.
  pose proof (runChild_ends os procs ind p) as H.
  destruct (runChild os procs ind p) as [r q | code q | prog argv q | q];
    cbn in H.
  - subst r. cbn. reflexivity.
  - exact H.
  - destruct H as (w & ws & Hst & -> & ->). exists w, ws.
    rewrite Hst. auto.
  - contradiction.
Qed.

(** ** Every way [execute] ends *)

Lemma WEXITSTATUS_range (status : Z) : 0 <= WEXITSTATUS status < 256.
Proof.
  unfold WEXITSTATUS. change 65280 with (Z.shiftl 255 8).
  rewrite Z.shiftr_land, Z.shiftr_shiftl_l by lia.
  change (8 - 8) with 0. rewrite Z.shiftl_0_r.
  change 255 with (Z.ones 8). rewrite Z.land_ones by lia.
  apply Z.mod_pos_bound. reflexivity.
Qed.

Lemma wait_round_cases (os : OS) (procs : pipeline) (size i : nat) (n : nat)
      (status : Z) :
  (i < size)%nat ->
  (exists status',
      waitOnProcesses_loop os procs i (S n) status (waiting size i)
      = waitOnProcesses_loop os procs (S i) n status' (waiting size (S i)))
  \/ (exists l m,
         waitOnProcesses_loop os procs i (S n) status (waiting size i)
         = Exit EXIT_FAILURE (mkProc Parent l None None [Msg m] []))
  \/ waitOnProcesses_loop os procs i (S n) status (waiting size i)
     = Block (waiting size (S i)).
Proof.
  intros Hi.
  assert (Hk : forall en : End, Nat.leb i (fst (i, en)) = true)
    by (intros en; cbn [fst]; apply Nat.leb_refl).
  assert (Hk' : Nat.leb i (fst (i, WR)) && negb (fd_eqb (i, RD) (i, WR))
                = true).
  { rewrite Hk. unfold fd_eqb. cbn [fst snd End_eqb].
    rewrite andb_false_r. reflexivity. }
  destruct (close_ok os Parent (i, RD)) eqn:Hrd.
  2: { right. left. do 2 eexists.
       cbn [waitOnProcesses_loop]. unfold waiting, bind.
       rewrite sys_close_refused by exact Hrd. cbn. reflexivity. }
  destruct (close_ok os Parent (i, WR)) eqn:Hwr.
  2: { right. left. do 2 eexists.
       cbn [waitOnProcesses_loop]. unfold waiting, bind.
       rewrite (sys_close_open os (i, RD) _ size) by
           (first [exact Hi | apply Hk | exact Hrd]).
       cbn [Z.eqb]. rewrite sys_close_refused by exact Hwr.
       cbn. reflexivity. }
  destruct (waitpid_ok os (fork_ret os i)) eqn:Hw.
  2: { right. left. do 2 eexists.
       cbn [waitOnProcesses_loop]. unfold waiting, bind.
       rewrite (sys_close_open os (i, RD) _ size) by
           (first [exact Hi | apply Hk | exact Hrd]).
       cbn [Z.eqb].
       rewrite (sys_close_open os (i, WR) _ size) by
           (first [exact Hi | exact Hk' | exact Hwr]).
       cbn [Z.eqb]. unfold ret, sys_waitpid. rewrite Hw.
       cbn. reflexivity. }
  destruct (find (fun j => fork_ret os j =? fork_ret os i) (finish_order os))
    as [j | ] eqn:Hfind.
  - left. eexists.
    cbn [waitOnProcesses_loop]. unfold waiting, bind.
    rewrite (sys_close_open os (i, RD) _ size) by
        (first [exact Hi | apply Hk | exact Hrd]).
    cbn [Z.eqb].
    rewrite (sys_close_open os (i, WR) _ size) by
        (first [exact Hi | exact Hk' | exact Hwr]).
    cbn [Z.eqb]. unfold ret, sys_waitpid. rewrite Hw, Hfind.
    rewrite (filter_ext _ _ (waiting_step size i)). reflexivity.
  - right. right.
    cbn [waitOnProcesses_loop]. unfold waiting, bind.
    rewrite (sys_close_open os (i, RD) _ size) by
        (first [exact Hi | apply Hk | exact Hrd]).
    cbn [Z.eqb].
    rewrite (sys_close_open os (i, WR) _ size) by
        (first [exact Hi | exact Hk' | exact Hwr]).
    cbn [Z.eqb]. unfold ret, sys_waitpid. rewrite Hw, Hfind.
    rewrite (filter_ext _ _ (waiting_step size i)). reflexivity.
Qed.

Lemma wait_loop_cases (os : OS) (procs : pipeline) (size : nat) :
  forall (n i : nat) (status : Z),
    (i + n <= size)%nat ->
    (exists s,
        waitOnProcesses_loop os procs i n status (waiting size i)
        = Ret s (waiting size (i + n)))
    \/ (exists l m,
           waitOnProcesses_loop os procs i n status (waiting size i)
           = Exit EXIT_FAILURE (mkProc Parent l None None [Msg m] []))
    \/ (exists l,
           waitOnProcesses_loop os procs i n status (waiting size i)
           = Block (mkProc Parent l None None [] [])).
Proof.
  induction n as [ | n IH]; intros i status Hle.
  - left. exists status. cbn. rewrite Nat.add_0_r. reflexivity.
  - destruct (wait_round_cases os procs size i n status ltac:(lia))
      as [[status' Hstep] | [Hexit | Hblock]].
    + rewrite Hstep. replace (i + S n)%nat with (S i + n)%nat by lia.
      apply IH. lia.
    + right. left. exact Hexit.
    + right. right. rewrite Hblock. unfold waiting. eauto.
Qed.

(** X3. From the state in which [main] first calls it, [execute] ends in
    one of three ways, whatever the operating system answers: it returns
    with every pipe descriptor closed, having printed one status line,
    between 0 and 255, and no diagnostic; or it calls exit with
    [EXIT_FAILURE] after exactly one diagnostic and no status line; or it
    waits for ever, having printed nothing. *)
Theorem execute_ends (os : OS) (procs : pipeline) :
  (exists status,
      0 <= status < 256
      /\ execute os procs initial_proc
         = Ret tt (mkProc Parent [] None None [] [JshStatus status]))
  \/ (exists l m,
         execute os procs initial_proc
         = Exit EXIT_FAILURE (mkProc Parent l None None [Msg m] []))
  \/ (exists l,
         execute os procs initial_proc
         = Block (mkProc Parent l None None [] [])).
Proof.
  remember (execute os procs initial_proc) as out eqn:Hout.
  unfold execute in Hout. set (size := length procs) in Hout.
  destruct (bounded_cases (pipe_ok os) size) as [Hp | (k & Hk & Hpk)].
  2: { destruct (makePipes_fails_from os Parent None None size 0 [])
         as [l Hl]; [exists k; split; [lia | exact Hpk] | ].
       right. left. exists l, "Pipe Error"%string.
       unfold bind at 1 in Hout.
       unfold makePipes, for_upto, initial_proc in Hout.
       rewrite Hl in Hout. exact Hout. }
  unfold bind at 1 in Hout. rewrite (makePipes_ok os size Hp) in Hout.
  destruct (bounded_cases (fun j => negb (fork_ret os j <? 0)) size)
    as [Hf | (k & Hk & Hfk)].
  2: { right. left. exists (all_fds size), "Fork Error"%string.
       unfold bind at 1 in Hout. unfold spawn_all, for_upto in Hout.
       rewrite spawn_all_fails in Hout; [exact Hout | ].
       exists k. split; [lia | ].
       apply negb_false_iff, Z.ltb_lt in Hfk. exact Hfk. }
  unfold bind at 1 in Hout. unfold spawn_all, for_upto in Hout.
  rewrite spawn_all_ok in Hout.
  2: { intros k Hk. specialize (Hf k ltac:(lia)).
       apply negb_true_iff, Z.ltb_ge in Hf. exact Hf. }
  unfold bind at 1 in Hout. unfold waitOnProcesses in Hout.
  unfold bind at 1 in Hout. rewrite <- waiting_0 in Hout.
  destruct (wait_loop_cases os procs size size 0 (stack_garbage os)
              ltac:(lia))
    as [[s Hret] | [(l & m & Hexit) | [l Hblock]]].
  - left. exists (WEXITSTATUS s). split; [apply WEXITSTATUS_range | ].
    rewrite Hret in Hout. cbn [Nat.add] in Hout.
    rewrite waiting_all in Hout. exact Hout.
  - right. left. rewrite Hexit in Hout. eauto.
  - right. right. rewrite Hblock in Hout. eauto.
Qed.

(** ** What the parser reads of the buffer *)

Section Agreement.

Variables (input input' : list Z) (e : Z).
Hypothesis Hagree : agree_upto e input input'.
Hypothesis Hend : line_end input e.

Lemma endOfArg_agree (i : Z) :
  0 <= i <= e -> endOfArg input i = endOfArg input' i.
Proof.
  intros Hi. unfold endOfArg.
  destruct (BUFFER_SIZE <=? i) eqn:E; [reflexivity | ].
  apply Z.leb_gt in E. rewrite (Hagree i Hi E). reflexivity.
Qed.

Lemma get_agree (i : Z) :
  0 <= i <= e -> endOfArg input i = false -> get input i = get input' i.
Proof.
  intros Hi Hne. apply Hagree; [exact Hi | ].
  apply (endOfArg_false_lt _ _ Hne).
Qed.

Lemma endOfArg_line_end : endOfArg input e = true.
Proof.
  apply endOfArg_true_iff. destruct Hend as [_ [H | [H | H]]]; auto.
Qed.

Lemma before_line_end (i : Z) :
  0 <= i <= e -> endOfArg input i = false -> i + 1 <= e.
Proof.
  intros Hi Hne. destruct (Z.eq_dec i e) as [-> | ]; [ | lia].
  rewrite endOfArg_line_end in Hne. discriminate.
Qed.

Lemma makeArgument_loop_agree :
  forall (fuel : nat) (ind : Z),
    0 <= ind <= e ->
    makeArgument_loop fuel input ind = makeArgument_loop fuel input' ind
    /\ (forall a j, makeArgument_loop fuel input ind = Some (a, j) ->
                    ind <= j <= e).
Proof.
  induction fuel as [ | fuel IH]; intros ind Hind; cbn [makeArgument_loop].
  - split; [reflexivity | discriminate].
  - rewrite <- (endOfArg_agree ind Hind).
    destruct (endOfArg input ind) eqn:Eend; cbn [negb andb].
    + split; [reflexivity | ]. intros a j [= <- <-]. lia.
    + rewrite <- (get_agree ind Hind Eend).
      destruct (get input ind =? ch_space); cbn [negb].
      * split; [reflexivity | ]. intros a j [= <- <-]. lia.
      * pose proof (before_line_end ind Hind Eend) as Hlt.
        destruct (IH (ind + 1)) as [Heq Hbound]; [lia | ].
        rewrite <- Heq. split; [reflexivity | ].
        intros a j. destruct (makeArgument_loop fuel input (ind + 1))
          as [[a' j'] | ]; [ | discriminate].
        intros [= <- <-]. specialize (Hbound a' j' eq_refl). lia.
Qed.

Lemma skipSpaces_agree :
  forall (fuel : nat) (ind : Z),
    0 <= ind <= e ->
    skipSpaces fuel input ind = skipSpaces fuel input' ind
    /\ (forall j, skipSpaces fuel input ind = Some j -> ind <= j <= e).
Proof.
  induction fuel as [ | fuel IH]; intros ind Hind; cbn [skipSpaces].
  - split; [reflexivity | discriminate].
  - rewrite <- (endOfArg_agree ind Hind).
    destruct (endOfArg input ind) eqn:Eend; cbn [negb andb].
    + split; [reflexivity | ]. intros j [= <-]. lia.
    + rewrite <- (get_agree ind Hind Eend).
      destruct (get input ind =? ch_space).
      * pose proof (before_line_end ind Hind Eend) as Hlt.
        destruct (IH (ind + 1)) as [Heq Hbound]; [lia | ].
        split; [exact Heq | ]. intros j Hj. specialize (Hbound j Hj). lia.
      * split; [reflexivity | ]. intros j [= <-]. lia.
Qed.

Lemma makeProcess_loop_agree :
  forall (fuel : nat) (ind : Z),
    0 <= ind <= e ->
    makeProcess_loop fuel input ind = makeProcess_loop fuel input' ind
    /\ (forall args j, makeProcess_loop fuel input ind = Some (args, j) ->
                       ind <= j <= e).
Proof.
  induction fuel as [ | fuel IH]; intros ind Hind; cbn [makeProcess_loop].
  - split; [reflexivity | discriminate].
  - rewrite <- (endOfArg_agree ind Hind).
    destruct (endOfArg input ind) eqn:Eend; cbn [negb].
    + split; [reflexivity | ]. intros args j [= <- <-]. lia.
    + destruct (skipSpaces_agree FUEL ind Hind) as [Hs Hsb].
      rewrite <- Hs.
      destruct (skipSpaces FUEL input ind) as [i1 | ];
        [ | split; [reflexivity | discriminate]].
      specialize (Hsb i1 eq_refl).
      rewrite <- (endOfArg_agree i1 ltac:(lia)).
      destruct (endOfArg input i1) eqn:Eend1; cbn [negb].
      * destruct (IH i1) as [Heq Hbound]; [lia | ].
        split; [exact Heq | ]. intros args j Hj.
        specialize (Hbound args j Hj). lia.
      * unfold makeArgument.
        destruct (makeArgument_loop_agree FUEL i1 ltac:(lia)) as [Ha Hab].
        rewrite <- Ha.
        destruct (makeArgument_loop FUEL input i1) as [[a i2] | ];
          [ | split; [reflexivity | discriminate]].
        specialize (Hab a i2 eq_refl).
        destruct (IH i2) as [Heq Hbound]; [lia | ].
        rewrite <- Heq. split; [reflexivity | ].
        intros args j. destruct (makeProcess_loop fuel input i2)
          as [[args' j'] | ]; [ | discriminate].
        intros [= <- <-]. specialize (Hbound args' j' eq_refl). lia.
Qed.

Lemma makeProcess_agree (ind : Z) :
  0 <= ind <= e ->
  makeProcess input ind = makeProcess input' ind
  /\ (forall args j, makeProcess input ind = Some (args, j) ->
                     ind <= j <= e).
Proof.
  intros Hind. unfold makeProcess.
  destruct (makeProcess_loop_agree FUEL ind Hind) as [Heq Hbound].
  rewrite <- Heq.
  destruct (makeProcess_loop FUEL input ind) as [[args i] | ];
    [ | split; [reflexivity | discriminate]].
  specialize (Hbound args i eq_refl).
  destruct (i <? BUFFER_SIZE) eqn:Ei; cbn [andb].
  - apply Z.ltb_lt in Ei. rewrite <- (Hagree i ltac:(lia) Ei).
    split; [reflexivity | ]. intros args' j [= <- <-].
    destruct (Z.eqb_spec (get input i) ch_pipe) as [Hp | ]; [ | lia].
    destruct (Z.eq_dec i e) as [-> | ]; [ | lia].
    exfalso. destruct Hend as [_ [H | [H | H]]]; [lia | | ];
      rewrite H in Hp; discriminate.
  - split; [reflexivity | ]. intros args' j [= <- <-]. lia.
Qed.

Lemma makeProcesses_from_agree :
  forall (fuel : nat) (ind : Z),
    0 <= ind <= e ->
    makeProcesses_from fuel input ind = makeProcesses_from fuel input' ind.
Proof.
  induction fuel as [ | fuel IH]; intros ind Hind; cbn [makeProcesses_from];
    [reflexivity | ].
  destruct (makeProcess_agree ind Hind) as [Heq Hbound].
  rewrite <- Heq.
  destruct (makeProcess input ind) as [[args j] | ]; [ | reflexivity].
  specialize (Hbound args j eq_refl).
  destruct args as [ | a args]; [reflexivity | ].
  rewrite (IH j) by lia. reflexivity.
Qed.

End Agreement.

Lemma makeProcesses_agree (input input' : list Z) (e : Z) :
  agree_upto e input input' ->
  line_end input e ->
  makeProcesses input = makeProcesses input'.
Proof.
  intros Hagree Hend. unfold makeProcesses.
  apply (makeProcesses_from_agree input input' e Hagree Hend).
  destruct Hend as [H _]. lia.
Qed.

(** X4. Of a line that parses inside its blocks. Two buffers that hold
    the same characters at the indices of the buffer up to the index
    where the line ends (a newline, a character equal to EOF, or the end
    of the buffer) parse into the same pipeline. For a line read with its
    newline, then, what follows the newline (the NUL that fgets writes,
    the bytes left of earlier lines) has no part in the parse. Nothing is
    said of what lies before that index: in a line read without its
    newline the NUL and what follows it lie before it and are parsed as
    the characters of a word. *)
Theorem parse_ignores_what_follows_the_line
        (input input' : list Z) (e : Z) (p : pipeline) :
  agree_upto e input input' ->
  line_end input e ->
  makeProcessesC input = Parsed p ->
  makeProcessesC input' = Parsed p.
Proof.
  intros Hagree Hend HC.
  apply makeProcessesC_Parsed in HC as [Hmk Hfit].
  apply makeProcessesC_Parsed. split; [ | exact Hfit].
  rewrite <- (makeProcesses_agree input input' e Hagree Hend). exact Hmk.
Qed.

Lemma parse_ignores_what_follows_the_line_witness :
  makeProcessesC (chars "ls | wc" ++ [ch_newline; 120; ch_pipe; 121])
  = Parsed [[chars "ls"]; [chars "wc"]].
Proof.
  apply (parse_ignores_what_follows_the_line
           (line "ls | wc")
           (chars "ls | wc" ++ [ch_newline; 120; ch_pipe; 121]) 7).
  - intros i Hi _.
    assert (H : i = 0 \/ i = 1 \/ i = 2 \/ i = 3 \/ i = 4 \/ i = 5
                \/ i = 6 \/ i = 7) by lia.
    repeat (destruct H as [-> | H]; [reflexivity | ]). subst i. reflexivity.
  - split; [lia | ]. right. left. reflexivity.
  - vm_compute. reflexivity.
Defined.

(** ** What an argument is made of *)

Lemma makeArgument_loop_clean (input : list Z) :
  forall (fuel : nat) (ind : Z) (a : arg) (j : Z),
    makeArgument_loop fuel input ind = Some (a, j) ->
    Forall (fun c => ~ separator c) a.
Proof.
  induction fuel as [ | fuel IH]; intros ind a j; cbn [makeArgument_loop];
    [discriminate | ].
  destruct (endOfArg input ind) eqn:Eend; cbn [negb andb].
  { intros [= <- <-]. constructor. }
  destruct (Z.eqb_spec (get input ind) ch_space) as [ | Hsp]; cbn [negb].
  { intros [= <- <-]. constructor. }
  destruct (makeArgument_loop fuel input (ind + 1)) as [[a' j'] | ] eqn:Hrec;
    [ | discriminate].
  intros [= <- <-]. constructor; [ | apply (IH _ _ _ Hrec)].
  unfold separator. intros [H | H]; [contradiction | ].
  assert (Htrue : endOfArg input ind = true)
    by (apply endOfArg_true_iff; tauto).
  congruence.
Qed.

Lemma makeProcess_loop_clean (input : list Z) :
  forall (fuel : nat) (ind : Z) (args : stage) (j : Z),
    makeProcess_loop fuel input ind = Some (args, j) ->
    Forall (Forall (fun c => ~ separator c)) args.
Proof.
  induction fuel as [ | fuel IH]; intros ind args j; cbn [makeProcess_loop];
    [discriminate | ].
  destruct (endOfArg input ind); cbn [negb].
  { intros [= <- <-]. constructor. }
  destruct (skipSpaces FUEL input ind) as [i1 | ]; [ | discriminate].
  destruct (endOfArg input i1); cbn [negb]; [apply IH | ].
  unfold makeArgument.
  destruct (makeArgument_loop FUEL input i1) as [[a i2] | ] eqn:Ha;
    [ | discriminate].
  destruct (makeProcess_loop fuel input i2) as [[args' j'] | ] eqn:Hrec;
    [ | discriminate].
  intros [= <- <-]. constructor.
  - apply (makeArgument_loop_clean _ _ _ _ _ Ha).
  - apply (IH _ _ _ Hrec).
Qed.

Lemma makeProcesses_from_clean (input : list Z) :
  forall (fuel : nat) (ind : Z) (procs : pipeline),
    makeProcesses_from fuel input ind = Some procs ->
    Forall (Forall (Forall (fun c => ~ separator c))) procs.
Proof.
  induction fuel as [ | fuel IH]; intros ind procs; cbn [makeProcesses_from];
    [discriminate | ].
  unfold makeProcess.
  destruct (makeProcess_loop FUEL input ind) as [[args i] | ] eqn:Hl;
    [ | discriminate].
  destruct args as [ | a args]; [intros [= <-]; constructor | ].
  destruct (makeProcesses_from fuel input _) as [rest | ] eqn:Hrec;
    [ | discriminate].
  intros [= <-]. constructor.
  - apply (makeProcess_loop_clean _ _ _ _ _ Hl).
  - apply (IH _ _ Hrec).
Qed.

(** X5. In the pipeline of a line that parses inside its blocks no
    argument holds a space, a newline, a pipe symbol or a character equal
    to EOF: what the programs receive never contains a separator. *)
Theorem arguments_hold_no_separator (input : list Z) (procs : pipeline) :
  makeProcessesC input = Parsed procs ->
  Forall (Forall (Forall (fun c => ~ separator c))) procs.
Proof.
  intros HC. apply makeProcessesC_Parsed in HC as [Hmk _].
  apply (makeProcesses_from_clean input FUEL 0 procs Hmk).
Qed.

Lemma arguments_hold_no_separator_witness :
  Forall (Forall (Forall (fun c => ~ separator c)))
         [[chars "echo"; chars "hi"]; [chars "cat"]].
Proof.
  apply (arguments_hold_no_separator (line "echo hi | cat")).
  vm_compute. reflexivity.
Defined.

(** ** Lines without a first word *)

(** X6. A line that holds no word before its end or its first pipe
    symbol (an empty line, a line of spaces, a line that begins with a
    pipe symbol) runs nothing: [main] goes on to its next prompt with
    nothing changed but the prompt it printed, whatever the line holds
    after the pipe symbol. *)
Theorem blank_line_runs_nothing
        (os_at : nat -> OS) (n : nat) (input : list Z)
        (rest : list fgets_result) (p0 : proc) :
  empty_stage_at input 0 ->
  makeProcesses input = Some []
  /\ main_loop os_at n (Line input :: rest) p0
     = main_loop os_at (S n) rest (prompted p0).
Proof.
  intros Hempty.
  destruct (makeProcess_empty input 0 ltac:(lia) Hempty) as [j Hj].
  assert (Hmk : makeProcesses input = Some []).
  { unfold makeProcesses.
    apply (makeProcesses_from_reach input 0 [] 0 (reach_here input 0) j
                                    FUEL Hj);
      [lia | apply FUEL_enough; lia]. }
  split; [exact Hmk | ].
  cbn [main_loop print]. rewrite Hmk. reflexivity.
Qed.

Lemma blank_line_runs_nothing_witness :
  makeProcesses (line "   ") = Some []
  /\ main_loop (fun _ => healthy_os (fun _ => 0) []) 0
               [Line (line "   "); EndOfInput] initial_proc
     = main_loop (fun _ => healthy_os (fun _ => 0) []) 1
                 [EndOfInput] (prompted initial_proc).
Proof.
  apply (blank_line_runs_nothing (fun _ => healthy_os (fun _ => 0) []) 0
           (line "   ") [EndOfInput] initial_proc).
  exists 3. split; [lia | ]. split.
  - intros p Hp. assert (H : p = 0 \/ p = 1 \/ p = 2) by lia.
    destruct H as [-> | [-> | ->]]; split; solve [reflexivity | vm_compute; reflexivity].
  - vm_compute. reflexivity.
Defined.

(** ** Parsing a line as it was typed *)

Lemma holds_app (input : list Z) (ind : Z) (l1 l2 : list Z) :
  holds input ind (l1 ++ l2) ->
  holds input ind l1 /\ holds input (ind + Z.of_nat (length l1)) l2.
Proof.
  intros H. split; intros k Hk.
  - rewrite (H k) by (rewrite length_app; lia).
    apply app_nth1. exact Hk.
  - replace (ind + Z.of_nat (length l1) + Z.of_nat k)
      with (ind + Z.of_nat (length l1 + k)) by lia.
    rewrite (H (length l1 + k)%nat) by (rewrite length_app; lia).
    apply app_nth2_plus.
Qed.

Lemma holds_head (input : list Z) (ind : Z) (c : Z) (l : list Z) :
  holds input ind (c :: l) -> get input ind = c.
Proof.
  intros H. specialize (H 0%nat ltac:(cbn; lia)).
  rewrite Z.add_0_r in H. exact H.
Qed.

Lemma nth_repeat_lt {A} (x d : A) :
  forall n k, (k < n)%nat -> nth k (repeat x n) d = x.
Proof.
  induction n as [ | n IH]; intros k Hk; [lia | ].
  destruct k as [ | k]; cbn; [reflexivity | apply IH; lia].
Qed.

Lemma not_separator_not_end (input : list Z) (p : Z) :
  p < BUFFER_SIZE -> ~ separator (get input p) ->
  endOfArg input p = false /\ get input p <> ch_space.
Proof.
  intros Hp Hc. unfold separator in Hc. split; [ | tauto].
  destruct (endOfArg input p) eqn:E; [ | reflexivity].
  apply endOfArg_true_iff in E. exfalso. destruct E as [E | E]; [lia | tauto].
Qed.

Lemma skipSpaces_over (input : list Z) (n : nat) (ind : Z) :
  0 <= ind ->
  holds input ind (repeat ch_space n) ->
  ind + Z.of_nat n <= BUFFER_SIZE ->
  endOfArg input (ind + Z.of_nat n) = true
  \/ get input (ind + Z.of_nat n) <> ch_space ->
  skipSpaces FUEL input ind = Some (ind + Z.of_nat n).
Proof.
  intros Hind Hsp Hfit Hstop.
  destruct (skipSpaces_total input FUEL ind (FUEL_enough ind Hind))
    as (j & Hrun & Hle & Hbefore & Hat).
  rewrite Hrun. f_equal.
  destruct (Z_lt_le_dec j (ind + Z.of_nat n)) as [Hlt | Hge].
  - exfalso.
    assert (Hj : get input j = ch_space).
    { specialize (Hsp (Z.to_nat (j - ind))).
      rewrite repeat_length, Z2Nat.id in Hsp by lia.
      replace (ind + (j - ind)) with j in Hsp by lia.
      rewrite Hsp by lia. apply nth_repeat_lt. lia. }
    destruct Hat as [Hat | Hat]; [ | contradiction].
    rewrite (empty_stage_not_end input j) in Hat by (lia || assumption).
    discriminate.
  - destruct (Z.eq_dec j (ind + Z.of_nat n)) as [ | Hne]; [assumption | ].
    exfalso. destruct (Hbefore (ind + Z.of_nat n)) as [He Hs]; [lia | ].
    destruct Hstop; congruence.
Qed.

Lemma makeArgument_word (input : list Z) (w : arg) (ind : Z) :
  0 <= ind ->
  Forall (fun c => ~ separator c) w ->
  holds input ind w ->
  ind + Z.of_nat (length w) <= BUFFER_SIZE ->
  endOfArg input (ind + Z.of_nat (length w)) = true
  \/ get input (ind + Z.of_nat (length w)) = ch_space ->
  makeArgument input ind = Some (w, ind + Z.of_nat (length w)).
Proof.
  intros Hind Hclean Hw Hfit Hstop. unfold makeArgument.
  destruct (makeArgument_loop_total input FUEL ind (FUEL_enough ind Hind))
    as (a & j & Hrun & Hj & Hchars & Hat).
  rewrite Hrun.
  assert (Hlen : length a = length w).
  { destruct (Nat.lt_trichotomy (length a) (length w)) as [Hlt | [ | Hgt]];
      [ | assumption | ]; exfalso.
    - assert (Hc : ~ separator (get input j)).
      { subst j. rewrite (Hw (length a) Hlt).
        apply (proj1 (Forall_nth _ w) Hclean). exact Hlt. }
      destruct (not_separator_not_end input j ltac:(lia) Hc) as [He Hs].
      destruct Hat; congruence.
    - destruct (Hchars (length w) Hgt) as (_ & He & Hs).
      destruct Hstop; congruence. }
  subst j. rewrite Hlen. do 2 f_equal.
  apply (nth_ext a w 0 0 Hlen). intros k Hk.
  destruct (Hchars k Hk) as (Hnth & _). rewrite Hnth.
  apply Hw. lia.
Qed.

Lemma length_render_words_cons (n : nat) (w : arg) (l : list (nat * arg)) :
  length (render_words ((n, w) :: l))
  = (n + length w + length (render_words l))%nat.
Proof.
  unfold render_words. cbn [map concat fst snd].
  rewrite !length_app, repeat_length. lia.
Qed.

(** The first character after a word: a space before the next word or
    among those typed after the last, or else the character that ends the
    stage. *)
Lemma after_word_boundary (input : list Z) (l : list (nat * arg)) (m : nat)
      (t : Z) (i : Z) :
  t = ch_newline \/ t = ch_pipe ->
  Forall (fun nw => (1 <= fst nw)%nat) l ->
  holds input i (render_words l ++ repeat ch_space m ++ [t]) ->
  endOfArg input i = true \/ get input i = ch_space.
Proof.
  intros Ht Hsp Hholds. destruct l as [ | [n w] l].
  - cbn [render_words map concat app] in Hholds. destruct m as [ | m].
    + left. apply endOfArg_true_iff. right.
      cbn in Hholds. rewrite (holds_head _ _ _ _ Hholds).
      destruct Ht; auto.
    + right. cbn in Hholds. apply (holds_head _ _ _ _ Hholds).
  - right. inversion Hsp as [ | ? ? Hn _]. cbn [fst] in Hn.
    destruct n as [ | n]; [lia | ].
    unfold render_words in Hholds. cbn in Hholds.
    apply (holds_head _ _ _ _ Hholds).
Qed.

Lemma makeProcess_loop_typed (input : list Z) (m : nat) (t : Z) :
  t = ch_newline \/ t = ch_pipe ->
  forall (l : list (nat * arg)) (ind : Z) (fuel : nat),
    Forall word_ok l ->
    Forall (fun nw => (1 <= fst nw)%nat) (tl l) ->
    0 <= ind ->
    holds input ind (render_words l ++ repeat ch_space m ++ [t]) ->
    ind + Z.of_nat (length (render_words l)) + Z.of_nat m + 1
    <= BUFFER_SIZE ->
    BUFFER_SIZE - ind + 1 <= Z.of_nat fuel ->
    makeProcess_loop fuel input ind
    = Some (map snd l,
            ind + Z.of_nat (length (render_words l)) + Z.of_nat m).
Proof.
  intros Ht. induction l as [ | [n w] l IH];
    intros ind fuel Hok Hsp Hind Hholds Hfit Hfuel.
  - cbn [render_words map concat app length] in *.
    rewrite Z.add_0_r.
    apply holds_app in Hholds as [Hspaces Hterm].
    rewrite repeat_length in Hterm.
    apply makeProcess_loop_empty; try lia.
    + intros p Hp. split; [lia | ].
      specialize (Hspaces (Z.to_nat (p - ind))).
      rewrite repeat_length, Z2Nat.id in Hspaces by lia.
      replace (ind + (p - ind)) with p in Hspaces by lia.
      rewrite Hspaces by lia. apply nth_repeat_lt. lia.
    + apply endOfArg_true_iff. right.
      rewrite (holds_head _ _ _ _ Hterm). destruct Ht; auto.
  - rewrite length_render_words_cons in *.
    inversion Hok as [ | ? ? [Hne Hclean] Hok']; subst. cbn [snd] in *.
    cbn [tl] in Hsp.
    unfold render_words in Hholds. cbn [map concat fst snd] in Hholds.
    fold (render_words l) in Hholds. rewrite <- !app_assoc in Hholds.
    apply holds_app in Hholds as [Hspaces Hrest].
    rewrite repeat_length in Hrest.
    apply holds_app in Hrest as [Hw Hnext].
    assert (Hlen : (1 <= length w)%nat)
      by (destruct w; [congruence | cbn; lia]).
    assert (Hfirst : ~ separator (get input (ind + Z.of_nat n))).
    { specialize (Hw 0%nat ltac:(lia)). rewrite Z.add_0_r in Hw.
      rewrite Hw. apply (proj1 (Forall_nth _ w) Hclean). lia. }
    destruct (not_separator_not_end input (ind + Z.of_nat n) ltac:(lia) Hfirst)
      as [Hne1 Hns1].
    assert (Hne0 : endOfArg input ind = false).
    { destruct n as [ | n]; [rewrite Z.add_0_r in Hne1; exact Hne1 | ].
      apply empty_stage_not_end; [lia | ].
      apply (holds_head _ _ _ _ Hspaces). }
    destruct fuel as [ | fuel]; [lia | ].
    cbn [makeProcess_loop]. rewrite Hne0. cbn [negb].
    rewrite (skipSpaces_over input n ind Hind Hspaces) by (auto; lia).
    rewrite Hne1. cbn [negb].
    rewrite (makeArgument_word input w (ind + Z.of_nat n)); try lia; auto.
    2: { apply (after_word_boundary input l m t); assumption. }
    rewrite (IH (ind + Z.of_nat n + Z.of_nat (length w)) fuel); try lia; auto.
    + cbn [map snd]. do 2 f_equal. lia.
    + destruct l; [constructor | ]. inversion Hsp; assumption.
Qed.

Lemma makeProcess_typed (input : list Z) (l : list (nat * arg)) (m : nat)
      (t : Z) (ind : Z) :
  t = ch_newline \/ t = ch_pipe ->
  Forall word_ok l ->
  Forall (fun nw => (1 <= fst nw)%nat) (tl l) ->
  0 <= ind ->
  holds input ind (render_words l ++ repeat ch_space m ++ [t]) ->
  ind + Z.of_nat (length (render_words l)) + Z.of_nat m + 1 <= BUFFER_SIZE ->
  makeProcess input ind
  = Some (map snd l,
          ind + Z.of_nat (length (render_words l)) + Z.of_nat m
          + (if t =? ch_pipe then 1 else 0)).
Proof.
  intros Ht Hok Hsp Hind Hholds Hfit. unfold makeProcess.
  rewrite (makeProcess_loop_typed input m t Ht l ind FUEL); auto.
  2: { unfold FUEL, BUFFER_SIZE. lia. }
  set (e := ind + Z.of_nat (length (render_words l)) + Z.of_nat m).
  assert (He : get input e = t).
  { rewrite app_assoc in Hholds. apply holds_app in Hholds as [_ Hterm].
    rewrite length_app, repeat_length in Hterm.
    rewrite <- (holds_head _ _ _ _ Hterm). f_equal. subst e. lia. }
  rewrite He.
  destruct (Z.ltb_spec e BUFFER_SIZE); [ | subst e; lia].
  cbn [andb]. destruct (t =? ch_pipe); do 2 f_equal. lia.
Qed.

Lemma makeProcesses_from_typed (input : list Z) :
  forall (ss : list typed_stage) (ind : Z) (fuel : nat),
    Forall stage_ok ss ->
    0 <= ind ->
    holds input ind (render_line ss) ->
    ind + Z.of_nat (length (render_line ss)) <= BUFFER_SIZE ->
    BUFFER_SIZE - ind + 1 <= Z.of_nat fuel ->
    makeProcesses_from fuel input ind = Some (map words_of ss).
Proof.
  induction ss as [ | [l m] ss IH]; intros ind fuel Hok Hind Hholds Hfit Hfuel.
  - cbn [render_line length] in *.
    destruct fuel as [ | fuel]; [lia | ].
    cbn [makeProcesses_from map].
    destruct (makeProcess_empty input ind Hind) as [j Hj].
    { exists ind. split; [lia | ]. split; [intros p Hp; lia | ].
      apply endOfArg_true_iff. right. left.
      apply (holds_head _ _ _ _ Hholds). }
    rewrite Hj. reflexivity.
  - inversion Hok as [ | ? ? (Hne & Hwords & Hsp) Hok']; subst.
    cbn [fst snd] in *.
    destruct fuel as [ | fuel]; [lia | ].
    cbn [makeProcesses_from map]. unfold words_of at 1. cbn [fst].
    cbn [render_line] in Hholds, Hfit. unfold render_stage in Hholds, Hfit.
    cbn [fst snd] in Hholds, Hfit.
    destruct ss as [ | s' ss'].
    + cbn [render_line] in Hholds, Hfit.
      rewrite <- app_assoc in Hholds, Hfit.
      rewrite (makeProcess_typed input l m ch_newline ind); auto.
      2: { rewrite !length_app, repeat_length in Hfit. cbn in Hfit. lia. }
      change (ch_newline =? ch_pipe) with false. rewrite Z.add_0_r.
      rewrite (IH _ fuel); auto.
      * destruct l as [ | nw l]; [congruence | reflexivity].
      * lia.
      * cbn [render_line]. rewrite app_assoc in Hholds.
        apply holds_app in Hholds as [_ H].
        rewrite length_app, repeat_length in H.
        rewrite Nat2Z.inj_add, Z.add_assoc in H. exact H.
      * cbn [render_line length].
        rewrite !length_app, repeat_length in Hfit. cbn in Hfit. lia.
      * assert (1 <= length (render_words l))%nat; [ | lia].
        destruct l as [ | [n w] l]; [congruence | ].
        rewrite length_render_words_cons.
        inversion Hwords as [ | ? ? [Hw _] _]. cbn [snd] in Hw.
        destruct w; [congruence | cbn; lia].
    + assert (Hsplit :
                render_words l ++ repeat ch_space m
                ++ ch_pipe :: render_line (s' :: ss')
                = (render_words l ++ repeat ch_space m ++ [ch_pipe])
                    ++ render_line (s' :: ss')).
      { rewrite <- !app_assoc. reflexivity. }
      rewrite <- app_assoc in Hholds, Hfit.
      rewrite Hsplit in Hholds, Hfit.
      apply holds_app in Hholds as [Hstage Hnext].
      rewrite !length_app, repeat_length in Hnext.
      rewrite !length_app, repeat_length in Hfit.
      cbn [length] in Hnext, Hfit.
      rewrite (makeProcess_typed input l m ch_pipe ind); auto; [ | lia].
      rewrite Z.eqb_refl.
      rewrite (IH _ fuel); auto.
      * destruct l as [ | nw l]; [congruence | reflexivity].
      * lia.
      * replace (ind + Z.of_nat (length (render_words l)) + Z.of_nat m + 1)
          with (ind + Z.of_nat (length (render_words l)
                                + (m + 1)))%Z by lia.
        exact Hnext.
      * lia.
      * lia.
Qed.

Lemma makeProcesses_of_typed_line (input : list Z) (ss : list typed_stage) :
  Forall stage_ok ss ->
  holds input 0 (render_line ss) ->
  Z.of_nat (length (render_line ss)) <= BUFFER_SIZE ->
  makeProcesses input = Some (map words_of ss).
Proof.
  intros Hok Hholds Hfit. unfold makeProcesses.
  apply makeProcesses_from_typed; auto; try lia.
  unfold FUEL, BUFFER_SIZE. lia.
Qed.

(** X7. Parsing gives back what was typed. A line typed as stages
    separated by pipe symbols, each stage one or more words with any
    number of spaces before the first word and after the last and at
    least one space between two words, the whole ended by a newline
    inside the buffer, and within the ceilings (every word shorter than
    [MAX_WORD_LENGTH], fewer than [MAX_WORDS] words in a stage, at most
    [MAX_PROCESSES] stages), parses with every store inside its block
    into exactly those stages, in order, each with exactly its words, in
    order. *)
Theorem parse_of_typed_line (input : list Z) (ss : list typed_stage) :
  Forall stage_ok ss ->
  holds input 0 (render_line ss) ->
  Z.of_nat (length (render_line ss)) <= BUFFER_SIZE ->
  pipeline_fits (map words_of ss) = true ->
  makeProcessesC input = Parsed (map words_of ss).
Proof.
  intros Hok Hholds Hlen Hfit. apply makeProcessesC_Parsed.
  split; [ | exact Hfit].
  apply makeProcesses_of_typed_line; assumption.
Qed.

Lemma parse_of_typed_line_witness :
  makeProcessesC (line "echo  hi |   cat")
  = Parsed (map words_of echo_hi_cat_typed).
Proof.
  apply (parse_of_typed_line (line "echo  hi |   cat") echo_hi_cat_typed).
  - unfold echo_hi_cat_typed, stage_ok, word_ok, separator.
    repeat constructor; cbn [fst snd tl]; try discriminate; try lia;
      intros [H | [H | [H | H]]]; discriminate H.
  - intros k Hk. vm_compute in Hk.
    do 17 (destruct k as [ | k]; [vm_compute; reflexivity | ]).
    lia.
  - vm_compute. discriminate.
  - vm_compute. reflexivity.
Defined.

(** ** Which child holds which end of a pipe *)

(** X8. Of a pipe that links two stages, pipe [i] below N - 1, the write
    end is open in the child of stage [i] and in no other child, and the
    read end in the child of stage [i + 1] and in no other child, at the
    moment the child calls [execvp] (and when it ends for want of its
    program): a reader sees the end of its input as soon as its one
    writer is gone. *)
Theorem data_pipe_ends_have_one_holder
        (os : OS) (procs : pipeline) (i j : nat) (prog : arg) (rest : stage) :
  (i < length procs - 1)%nat ->
  (j < length procs)%nat ->
  pipes_ok os (length procs) ->
  (forall k, (k <= j)%nat -> 0 < fork_ret os k) ->
  child_healthy os j ->
  nth j procs [] = prog :: rest ->
  exists p,
    (child os procs j = Some (Exec (cstr prog) (map cstr (prog :: rest)) p)
     \/ (child os procs j = Some (Exit 127 p)
         /\ stderr_out p = [CommandNotFound (cstr prog)]))
    /\ (In (i, WR) (open_fds p) <-> j = i)
    /\ (In (i, RD) (open_fds p) <-> j = S i).
Proof.
  intros Hi Hj Hp Hf Hc Hst.
  pose proof (child_runs os procs j prog rest Hj Hp Hf Hc Hst) as Hchild.
  assert (Hwr : In (i, WR) (open_fds (wired (length procs) j)) <-> j = i).
  { rewrite wired_open_fds. cbn [fst snd]. split.
    - intros [_ [H | [[_ H] | [H _]]]]; [lia | discriminate | auto].
    - intros ->. split; [lia | auto]. }
  assert (Hrd : In (i, RD) (open_fds (wired (length procs) j)) <-> j = S i).
  { rewrite wired_open_fds. cbn [fst snd]. split.
    - intros [_ [H | [[H _] | [_ H]]]]; [lia | lia | discriminate].
    - intros ->. split; [lia | ]. right. left. split; [lia | reflexivity]. }
  destruct (execvp_ok os (cstr prog)).
  - exists (wired (length procs) j). auto.
  - eexists. split; [right; split; [exact Hchild | reflexivity] | ].
    cbn [open_fds]. auto.
Qed.

Lemma data_pipe_ends_have_one_holder_witness :
  exists p,
    (child (healthy_os (fun _ => 0) [0; 1; 2]%nat) printf_tr_rev 1
     = Some (Exec (cstr (chars "tr"))
                  (map cstr [chars "tr"; chars "a-z"; chars "A-Z"]) p)
     \/ (child (healthy_os (fun _ => 0) [0; 1; 2]%nat) printf_tr_rev 1
         = Some (Exit 127 p)
         /\ stderr_out p = [CommandNotFound (cstr (chars "tr"))]))
    /\ (In (0%nat, WR) (open_fds p) <-> 1%nat = 0%nat)
    /\ (In (0%nat, RD) (open_fds p) <-> 1%nat = 1%nat).
Proof.
  apply (data_pipe_ends_have_one_holder
           (healthy_os (fun _ => 0) [0; 1; 2]%nat) printf_tr_rev 0 1
           (chars "tr") [chars "a-z"; chars "A-Z"]).
  - cbn. lia.
  - cbn. lia.
  - intros k Hk. reflexivity.
  - intros k Hk. unfold healthy_os. cbn [fork_ret]. lia.
  - split; intros d; reflexivity.
  - reflexivity.
Defined.

(** ** A last stage that is not found *)

(** X9. When the program of the last stage cannot be run and every other
    call succeeds, the status [execute] prints is 127, whatever the
    other stages did. *)
Theorem last_stage_not_found_reports_127
        (os : OS) (procs : pipeline) (prog : arg) (rest : stage) :
  parent_healthy os (length procs) ->
  finish_complete os (length procs) ->
  child_healthy os (length procs - 1) ->
  nth (length procs - 1) procs [] = prog :: rest ->
  execvp_ok os (cstr prog) = false ->
  execute os procs initial_proc
  = Ret tt (mkProc Parent [] None None [] [JshStatus 127]).
Proof.
  intros Hh Hfin Hc Hst Hx.
  assert (Hne : procs <> []).
  { intros ->. cbn in Hst. discriminate. }
  assert (Hlast : (length procs - 1 < length procs)%nat).
  { destruct procs; [congruence | cbn; lia]. }
  rewrite (execute_healthy os procs Hne Hh Hfin).
  pose proof Hh as (Hp & Hf & _).
  unfold exit_status, child_status.
  rewrite (child_runs os procs _ prog rest Hlast Hp
             (fun k Hk => Hf k ltac:(lia)) Hc Hst), Hx.
  reflexivity.
Qed.

Lemma last_stage_not_found_reports_127_witness :
  execute os_no_such_prog ls_wc_nosuch initial_proc
  = Ret tt (mkProc Parent [] None None [] [JshStatus 127]).
Proof.
  apply (last_stage_not_found_reports_127 os_no_such_prog ls_wc_nosuch
           (chars "nosuchprog123") []).
  - unfold parent_healthy, pipes_ok, forks_ok, parent_closes_ok, waits_ok,
      distinct_pids, os_no_such_prog.
    repeat split; intros;
      cbn [pipe_ok fork_ret close_ok waitpid_ok] in *;
      try reflexivity; lia.
  - intros i. cbn. lia.
  - split; intros d; reflexivity.
  - reflexivity.
  - vm_compute. reflexivity.
Defined.

(** ** Allocated memory: what [malloc] and [free] do to the heap *)

Lemma hbind_ok {A B} (m : HM A) (k : A -> HM B) (h h' : heap) (a : A) :
  m h = HOk a h' -> hbind m k h = k a h'.
Proof. intros H. unfold hbind. rewrite H. reflexivity. Qed.

Lemma existsb_nat_eqb (b : nat) (l : list nat) :
  existsb (Nat.eqb b) l = true <-> In b l.
Proof.
  rewrite existsb_exists. split.
  - intros (x & Hx & E). apply Nat.eqb_eq in E. subst. exact Hx.
  - intros H. exists b. split; [exact H | apply Nat.eqb_refl].
Qed.

Lemma not_existsb_nat_eqb (b : nat) (l : list nat) :
  existsb (Nat.eqb b) l = false <-> ~ In b l.
Proof.
  rewrite <- existsb_nat_eqb. destruct (existsb (Nat.eqb b) l); split;
    congruence.
Qed.

(** Freeing, one after the other, blocks that are live and distinct
    succeeds and leaves the other live blocks as they were. *)
Lemma free_all_ok :
  forall (fs : list nat) (h : heap),
    NoDup fs ->
    (forall b, In b fs -> In b (live h)) ->
    free_all fs h
    = HOk tt (mkHeap (next_block h)
                     (filter (fun x => negb (existsb (Nat.eqb x) fs))
                             (live h))).
Proof.
  induction fs as [ | b fs IH]; intros h Hnd Hin; cbn [free_all].
  - unfold hret. destruct h as [n l]. cbn [next_block live existsb negb].
    rewrite filter_all by reflexivity. reflexivity.
  - inversion Hnd as [ | ? ? Hb Hnd']; subst.
    unfold hbind, free.
    rewrite (proj2 (existsb_nat_eqb b (live h))) by (apply Hin; left; auto).
    rewrite IH; [ | exact Hnd' | ].
    + cbn [next_block live]. rewrite filter_twice. do 2 f_equal.
      apply filter_ext. intros x. cbn [existsb].
      rewrite (Nat.eqb_sym x b), negb_orb. reflexivity.
    + intros x Hx. cbn [live]. apply filter_In. split.
      * apply Hin. right. exact Hx.
      * apply negb_true_iff, Nat.eqb_neq. intros ->. contradiction.
Qed.

Lemma free_all_app (l1 l2 : list nat) (h : heap) :
  free_all (l1 ++ l2) h = (u <-- free_all l1 ;; free_all l2) h.
Proof.
  revert h. induction l1 as [ | b l1 IH]; intros h; cbn [app free_all].
  - reflexivity.
  - unfold hbind. destruct (free b h) as [[] h' | | ];
      [ | reflexivity | reflexivity].
    rewrite IH. reflexivity.
Qed.

Lemma free_as_free_all (b : nat) (h : heap) :
  free b h = free_all [b] h.
Proof.
  cbn [free_all]. unfold hbind, hret.
  destruct (free b h) as [[] h' | | ]; reflexivity.
Qed.

(** The order in which [freeProcesses] frees the blocks of a stage, and
    the order in which the parser allocated them. *)
Lemma free_stages_as_free_all (sts : list stageH) (h : heap) :
  free_stages sts h
  = free_all (flat_map (fun st => map fst (snd st) ++ [fst st]) sts) h.
Proof.
  revert h. induction sts as [ | st sts IH]; intros h;
    cbn [free_stages flat_map]; [reflexivity | ].
  rewrite free_all_app. unfold hbind at 2. rewrite free_all_app.
  unfold free_stage, hbind. unfold stageH, argH in *.
  destruct (free_all (map fst (snd st)) h) as [[] h1 | | ];
    [ | reflexivity | reflexivity].
  rewrite <- free_as_free_all.
  destruct (free (fst st) h1) as [[] h2 | | ]; [ | reflexivity | reflexivity].
  apply IH.
Qed.

Lemma filter_owned (fs xs l : list nat) :
  (forall x, In x xs -> In x fs) ->
  (forall y, In y l -> ~ In y fs) ->
  filter (fun x => negb (existsb (Nat.eqb x) fs)) (xs ++ l) = l.
Proof.
  intros Hxs Hl. rewrite filter_app.
  rewrite filter_none, filter_all; [reflexivity | | ].
  - intros y Hy. apply negb_true_iff, not_existsb_nat_eqb. auto.
  - intros x Hx. apply negb_false_iff, existsb_nat_eqb. auto.
Qed.

(** ** Allocated memory: the parser *)

Lemma map_fst_combine_seq {A} (n : nat) (l : list A) :
  map fst (combine (seq n (length l)) l) = seq n (length l).
Proof.
  revert n. induction l as [ | x l IH]; intros n; cbn; [reflexivity | ].
  rewrite IH. reflexivity.
Qed.

Lemma map_snd_combine_seq {A} (n : nat) (l : list A) :
  map snd (combine (seq n (length l)) l) = l.
Proof.
  revert n. induction l as [ | x l IH]; intros n; cbn; [reflexivity | ].
  rewrite IH. reflexivity.
Qed.

Lemma rev_seq_S (n k : nat) :
  rev (seq n (S k)) = rev (seq (S n) k) ++ [n].
Proof. reflexivity. Qed.

Lemma makeProcessH_loop_spec (input : list Z) :
  forall (fuel : nat) (ind n : Z) (h : heap) (args : stage) (j : Z),
    makeProcessC_loop fuel input ind n = Parsed (args, j) ->
    makeProcessH_loop fuel input ind n h
    = HOk (combine (seq (next_block h) (length args)) args, j)
          (mkHeap (next_block h + length args)
                  (rev (seq (next_block h) (length args)) ++ live h)).
Proof.
  induction fuel as [ | fuel IH]; intros ind n h args j;
    cbn [makeProcessC_loop makeProcessH_loop]; [discriminate | ].
  destruct (endOfArg input ind); cbn [negb].
  { destruct (n <? MAX_WORDS); [ | discriminate].
    intros [= <- <-]. unfold hret. destruct h as [k l].
    cbn [length seq rev app combine next_block live].
    rewrite Nat.add_0_r. reflexivity. }
  destruct (skipSpaces FUEL input ind) as [i1 | ]; [ | discriminate].
  destruct (endOfArg input i1); cbn [negb]; [apply IH | ].
  unfold makeArgumentH.
  destruct (makeArgumentC input i1) as [[a i2] | b | ]; try discriminate.
  destruct (n <? MAX_WORDS); [ | discriminate].
  destruct (makeProcessC_loop fuel input i2 (n + 1)) as [[args' j'] | b | ]
    eqn:Hrec; try discriminate.
  intros [= <- <-].
  unfold hbind, malloc, of_parsed, hret. cbn [fst snd].
  rewrite (IH _ _ _ _ _ Hrec).
  cbn [fst snd next_block live length].
  f_equal. f_equal.
  - replace (next_block h + S (length args'))%nat
      with (S (next_block h) + length args')%nat by lia.
    reflexivity.
  - rewrite rev_seq_S, <- app_assoc. reflexivity.
Qed.

Lemma makeProcessH_spec (input : list Z) (ind : Z) (h : heap)
      (args : stage) (j : Z) :
  makeProcessC input ind = Parsed (args, j) ->
  makeProcessH input ind h
  = HOk ((next_block h,
          combine (seq (S (next_block h)) (length args)) args), j)
        (mkHeap (S (next_block h) + length args)
                (rev (seq (next_block h) (S (length args))) ++ live h)).
Proof.
  unfold makeProcessC, makeProcessH.
  destruct (makeProcessC_loop FUEL input ind 0) as [[args' i] | b | ] eqn:Hl;
    try discriminate.
  intros [= <- <-].
  unfold hbind at 1. unfold malloc at 1. unfold hbind at 1.
  rewrite (makeProcessH_loop_spec input FUEL ind 0 _ args' i Hl).
  unfold hret. cbn [fst snd next_block live].
  rewrite rev_seq_S, <- app_assoc. reflexivity.
Qed.

Lemma heap_ok_grow (h : heap) (k : nat) :
  heap_ok h ->
  heap_ok (mkHeap (next_block h + k)
                  (rev (seq (next_block h) k) ++ live h)).
Proof.
  intros Hok b. cbn [live next_block]. rewrite in_app_iff, <- in_rev, in_seq.
  intros [H | H]; [lia | ]. specialize (Hok b H). lia.
Qed.

(** The blocks of the stages, in the order [malloc] returned them. *)
Lemma makeProcessesH_from_spec (input : list Z) :
  forall (fuel : nat) (ind n : Z) (h : heap) (procs : pipeline),
    heap_ok h ->
    makeProcessesC_from fuel input ind n = Parsed procs ->
    exists (stages : list stageH) (total : nat),
      makeProcessesH_from fuel input ind n h
      = HOk stages
            (mkHeap (S (next_block h + total))
                    (rev (seq (next_block h) total) ++ live h))
      /\ map stage_of stages = procs
      /\ flat_map (fun st => fst st :: map fst (snd st)) stages
         = seq (next_block h) total.
Proof.
  induction fuel as [ | fuel IH]; intros ind n h procs Hok;
    cbn [makeProcessesC_from makeProcessesH_from]; [discriminate | ].
  destruct (makeProcessC input ind) as [[args j] | b | ] eqn:Hmk;
    try discriminate.
  unfold hbind at 1. rewrite (makeProcessH_spec input ind h args j Hmk).
  cbn [fst snd]. destruct args as [ | a args].
  - intros [= <-]. exists [], 0%nat.
    cbn [combine length seq rev app]. unfold hbind, free.
    cbn [live next_block existsb]. rewrite Nat.eqb_refl. cbn [orb].
    unfold hret. cbn [filter]. rewrite Nat.eqb_refl. cbn [negb].
    rewrite filter_all.
    + rewrite !Nat.add_0_r. auto.
    + intros x Hx. apply negb_true_iff, Nat.eqb_neq.
      specialize (Hok x Hx). lia.
  - cbn [combine length seq].
    destruct (n <? MAX_PROCESSES); [ | discriminate].
    destruct (makeProcessesC_from fuel input j (n + 1)) as [rest | b | ]
      eqn:Hrec; try discriminate.
    intros [= <-].
    unfold hbind at 1.
    match goal with
    | |- context [makeProcessesH_from fuel input j (n + 1) ?hh] =>
        set (h1 := hh)
    end.
    assert (Hok1 : heap_ok h1).
    { subst h1. intros b. cbn [live next_block].
      rewrite in_app_iff, <- in_rev. cbn [In]. rewrite in_seq.
      intros [[H | [H | H]] | H]; try lia. specialize (Hok b H). lia. }
    destruct (IH j (n + 1) h1 rest Hok1 Hrec)
      as (stages & total & Hrun & Hmap & Hblocks).
    exists ((next_block h,
             (S (next_block h), a)
               :: combine (seq (S (S (next_block h))) (length args)) args)
              :: stages),
           (S (S (length args)) + total)%nat.
    rewrite Hrun. subst h1. cbn [next_block live] in *.
    split; [unfold hret; f_equal; f_equal; [lia | ] | split].
    + rewrite (seq_app (S (S (length args))) total (next_block h)).
      rewrite rev_app_distr, <- app_assoc. cbn [seq].
      replace (next_block h + S (S (length args)))%nat
        with (S (next_block h) + S (length args))%nat by lia.
      reflexivity.
    + cbn [map]. rewrite Hmap. f_equal.
      unfold stage_of. cbn [snd map]. f_equal. apply map_snd_combine_seq.
    + cbn [flat_map fst snd map]. rewrite map_fst_combine_seq, Hblocks.
      rewrite (seq_app (S (S (length args))) total (next_block h)).
      cbn [seq app].
      replace (next_block h + S (S (length args)))%nat
        with (S (next_block h) + S (length args))%nat by lia.
      reflexivity.
Qed.

Lemma free_order_permutation (stages : list stageH) :
  Permutation
    (flat_map (fun st => map fst (snd st) ++ [fst st]) stages)
    (flat_map (fun st => fst st :: map fst (snd st)) stages).
Proof.
  induction stages as [ | st stages IH]; cbn [flat_map]; [constructor | ].
  apply Permutation_app; [ | exact IH].
  apply Permutation_sym, Permutation_cons_append.
Qed.

(** [freeProcesses] on the blocks the parser allocated from block [n] on:
    every one of them is live and freed once, and the blocks that were
    live before stay. *)
Lemma freeProcesses_owned (stages : list stageH) (n total : nat)
      (L : list nat) (hx : heap) :
  flat_map (fun st => fst st :: map fst (snd st)) stages = seq (S n) total ->
  live hx = rev (seq n (S total)) ++ L ->
  (forall b, In b L -> (b < n)%nat) ->
  freeProcesses (mkPrcs (Some (n, stages)) (length stages)) hx
  = HOk (mkPrcs None 0) (mkHeap (next_block hx) L).
Proof.
  intros Hblocks Hlive HL.
  set (fo := flat_map (fun st => map fst (snd st) ++ [fst st]) stages).
  assert (Hperm : Permutation (fo ++ [n]) (seq n (S total))).
  { cbn [seq]. rewrite <- Hblocks.
    eapply Permutation_trans; [apply Permutation_sym, Permutation_cons_append | ].
    constructor. apply free_order_permutation. }
  assert (Hfa : free_all (fo ++ [n]) hx = HOk tt (mkHeap (next_block hx) L)).
  { rewrite free_all_ok.
    - rewrite Hlive. rewrite filter_owned; [reflexivity | | ].
      + intros x Hx. apply in_rev in Hx.
        apply (Permutation_in _ (Permutation_sym Hperm) Hx).
      + intros y Hy Hin. apply (Permutation_in _ Hperm), in_seq in Hin.
        specialize (HL y Hy). lia.
    - apply (Permutation_NoDup (Permutation_sym Hperm)), seq_NoDup.
    - intros b Hb. rewrite Hlive. apply in_or_app. left.
      apply -> in_rev. apply (Permutation_in _ Hperm Hb). }
  unfold freeProcesses. cbn [Prcs_args Prcs_size].
  rewrite Nat.leb_refl, firstn_all.
  rewrite free_all_app in Hfa. unfold hbind in *.
  rewrite free_stages_as_free_all. fold fo.
  destruct (free_all fo hx) as [[] h' | | ]; try discriminate.
  rewrite free_as_free_all, Hfa. reflexivity.
Qed.

(** A line that parses inside its blocks: the structure [makeProcesses]
    builds, and the blocks it leaves allocated. *)
Lemma makeProcessesH_spec (input : list Z) (p : pipeline) (h : heap) :
  heap_ok h ->
  makeProcessesC input = Parsed p ->
  exists (stages : list stageH) (total : nat),
    makeProcessesH input h
    = HOk (mkPrcs (Some (next_block h, stages)) (length stages))
          (mkHeap (S (S (next_block h) + total))
                  (rev (seq (next_block h) (S total)) ++ live h))
    /\ map stage_of stages = p
    /\ flat_map (fun st => fst st :: map fst (snd st)) stages
       = seq (S (next_block h)) total.
Proof.
  intros Hok Hmk.
  assert (Hok1 : heap_ok (mkHeap (S (next_block h))
                                 (next_block h :: live h))).
  { intros b [<- | Hb]; cbn [next_block]; [lia | ].
    specialize (Hok b Hb). lia. }
  destruct (makeProcessesH_from_spec input FUEL 0 0 _ p Hok1 Hmk)
    as (stages & total & Hrun & Hmap & Hblocks).
  cbn [next_block live] in Hrun, Hblocks.
  exists stages, total. split; [ | split].
  - unfold makeProcessesH, hbind, malloc. rewrite Hrun. unfold hret.
    rewrite rev_seq_S, <- app_assoc. reflexivity.
  - exact Hmap.
  - exact Hblocks.
Qed.

(** A store that leaves its block stops the run on the heap. *)
Lemma overrun_is_a_fault :
  makeProcessesH long_word_line (mkHeap 0 []) = HFault
  /\ makeProcessesH many_words_line (mkHeap 0 []) = HFault
  /\ makeProcessesH many_stages_line (mkHeap 0 []) = HFault.
Proof. repeat split; vm_compute; reflexivity. Qed.

(** X10. For a line that parses inside its blocks, [makeProcesses]
    followed by [freeProcesses] leaves the heap as it found it: the
    structure holds the pipeline of the line with its count of stages,
    every block allocated for it (the array of stages, the array of each
    stage, each argument) is freed exactly once, the array allocated for
    the stage that ends the line having been freed by [makeProcesses]
    itself, no other block is touched, and the structure is left with a
    NULL [args] and size 0. Nothing is said of a line one of whose stores
    leaves its block. *)
Theorem parse_then_free (input : list Z) (p : pipeline) (h : heap) :
  heap_ok h ->
  makeProcessesC input = Parsed p ->
  exists P h1 h2,
    makeProcessesH input h = HOk P h1
    /\ pipeline_of P = p
    /\ Prcs_size P = length p
    /\ freeProcesses P h1 = HOk (mkPrcs None 0) h2
    /\ live h2 = live h.
Proof.
  intros Hok Hp.
  destruct (makeProcessesH_spec input p h Hok Hp)
    as (stages & total & Hrun & Hmk & Hblocks).
  do 3 eexists. split; [exact Hrun | ].
  split; [exact Hmk | ].
  split; [cbn; rewrite <- Hmk, length_map; reflexivity | ].
  split.
  - apply (freeProcesses_owned stages (next_block h) total (live h));
      auto.
  - reflexivity.
Qed.

Lemma parse_then_free_witness :
  exists P h1 h2,
    makeProcessesH (line "echo hi | cat") (mkHeap 0 []) = HOk P h1
    /\ pipeline_of P = [[chars "echo"; chars "hi"]; [chars "cat"]]
    /\ Prcs_size P = length [[chars "echo"; chars "hi"]; [chars "cat"]]
    /\ freeProcesses P h1 = HOk (mkPrcs None 0) h2
    /\ live h2 = live (mkHeap 0 []).
Proof.
  apply (parse_then_free (line "echo hi | cat")
                         [[chars "echo"; chars "hi"]; [chars "cat"]]
                         (mkHeap 0 [])).
  - intros b Hb. destruct Hb.
  - vm_compute. reflexivity.
Defined.

(** ** Allocated memory: pipes and pids *)

Lemma malloc_each_spec :
  forall (k : nat) (h : heap),
    malloc_each k h
    = HOk (seq (next_block h) k)
          (mkHeap (next_block h + k)
                  (rev (seq (next_block h) k) ++ live h)).
Proof.
  induction k as [ | k IH]; intros h; cbn [malloc_each].
  - unfold hret. destruct h as [n l]. cbn. rewrite Nat.add_0_r. reflexivity.
  - unfold hbind, malloc. rewrite IH. unfold hret.
    cbn [next_block live]. f_equal. f_equal; [lia | ].
    rewrite rev_seq_S, <- app_assoc. reflexivity.
Qed.

(** [execute] on the heap, on the path where it returns. *)
Lemma executeH_returns (P : Prcs) (h : heap) :
  heap_ok h ->
  executeH P h
  = HOk tt (mkHeap (next_block h + Prcs_size P + 2) (live h)).
Proof.
  intros Hok. set (size := Prcs_size P). set (n := next_block h).
  unfold executeH, makePipesH. fold size.
  unfold hbind at 1. unfold hbind at 1. unfold malloc at 1.
  unfold hbind at 1. rewrite malloc_each_spec. cbn [next_block live].
  unfold hret at 1. unfold hbind at 1. unfold malloc at 1.
  cbn [next_block live]. fold n.
  unfold freePipesAndPids. cbn [fst snd].
  rewrite length_seq, Nat.leb_refl.
  rewrite firstn_all2 by (rewrite length_seq; lia).
  set (pids := (S n + size)%nat).
  assert (Hperm : Permutation (seq (S n) size ++ [n; pids])
                              (seq n (S (S size)))).
  { replace (S (S size)) with (S size + 1)%nat by lia.
    rewrite seq_app. cbn [seq app].
    replace (n + S size)%nat with pids by (subst pids; lia).
    apply Permutation_sym.
    apply (Permutation_middle (seq (S n) size) [pids] n). }
  assert (Hfa : free_all (seq (S n) size ++ [n; pids])
                  (mkHeap (S pids)
                          (pids :: rev (seq (S n) size) ++ n :: live h))
                = HOk tt (mkHeap (S pids) (live h))).
  { rewrite free_all_ok.
    - cbn [next_block live].
      replace (pids :: rev (seq (S n) size) ++ n :: live h)
        with ((pids :: rev (seq (S n) size) ++ [n]) ++ live h)
        by (cbn; rewrite <- app_assoc; reflexivity).
      rewrite filter_owned; [reflexivity | | ].
      + intros x Hx. apply (Permutation_in _ (Permutation_sym Hperm)).
        apply in_seq. cbn [In] in Hx. rewrite in_app_iff, <- in_rev in Hx.
        rewrite in_seq in Hx. cbn [In] in Hx. subst pids. lia.
      + intros y Hy Hin. apply (Permutation_in _ Hperm), in_seq in Hin.
        specialize (Hok y Hy). subst n. lia.
    - apply (Permutation_NoDup (Permutation_sym Hperm)), seq_NoDup.
    - intros b Hb. apply (Permutation_in _ Hperm), in_seq in Hb.
      cbn [live In]. rewrite in_app_iff, <- in_rev, in_seq. cbn [In].
      subst pids. lia. }
  rewrite free_all_app in Hfa. unfold hbind in *.
  destruct (free_all (seq (S n) size) _) as [[] h1 | | ]; try discriminate.
  cbn [free_all] in Hfa. unfold hbind, hret in Hfa.
  destruct (free n h1) as [[] h2 | | ]; try discriminate.
  destruct (free pids h2) as [[] h3 | | ]; try discriminate.
  injection Hfa as ->. f_equal. f_equal. subst pids. lia.
Qed.

(** X11. On the path where [execute] returns, the array of pipes, the
    pair of descriptors of each pipe and the array of pids are each
    allocated once and freed once by [freePipesAndPids], for every
    number of stages: no block stays, none is freed twice, and the blocks
    that were live before are untouched. *)
Theorem execute_frees_pipes_and_pids (P : Prcs) (h : heap) :
  heap_ok h ->
  executeH P h
  = HOk tt (mkHeap (next_block h + Prcs_size P + 2) (live h)).
Proof.
  intros Hok. set (size := Prcs_size P). set (n := next_block h).
  unfold executeH, makePipesH. fold size.
  unfold hbind at 1. unfold hbind at 1. unfold malloc at 1.
  unfold hbind at 1. rewrite malloc_each_spec. cbn [next_block live].
  unfold hret at 1. unfold hbind at 1. unfold malloc at 1.
  cbn [next_block live]. fold n.
  unfold freePipesAndPids. cbn [fst snd].
  rewrite length_seq, Nat.leb_refl.
  rewrite firstn_all2 by (rewrite length_seq; lia).
  set (pids := (S n + size)%nat).
  assert (Hperm : Permutation (seq (S n) size ++ [n; pids])
                              (seq n (S (S size)))).
  { replace (S (S size)) with (S size + 1)%nat by lia.
    rewrite seq_app. cbn [seq app].
    replace (n + S size)%nat with pids by (subst pids; lia).
    apply Permutation_sym.
    apply (Permutation_middle (seq (S n) size) [pids] n). }
  assert (Hfa : free_all (seq (S n) size ++ [n; pids])
                  (mkHeap (S pids)
                          (pids :: rev (seq (S n) size) ++ n :: live h))
                = HOk tt (mkHeap (S pids) (live h))).
  { rewrite free_all_ok.
    - cbn [next_block live].
      replace (pids :: rev (seq (S n) size) ++ n :: live h)
        with ((pids :: rev (seq (S n) size) ++ [n]) ++ live h)
        by (cbn; rewrite <- app_assoc; reflexivity).
      rewrite filter_owned; [reflexivity | | ].
      + intros x Hx. apply (Permutation_in _ (Permutation_sym Hperm)).
        apply in_seq. cbn [In] in Hx. rewrite in_app_iff, <- in_rev in Hx.
        rewrite in_seq in Hx. cbn [In] in Hx. subst pids. lia.
      + intros y Hy Hin. apply (Permutation_in _ Hperm), in_seq in Hin.
        specialize (Hok y Hy). subst n. lia.
    - apply (Permutation_NoDup (Permutation_sym Hperm)), seq_NoDup.
    - intros b Hb. apply (Permutation_in _ Hperm), in_seq in Hb.
      cbn [live In]. rewrite in_app_iff, <- in_rev, in_seq. cbn [In].
      subst pids. lia. }
  rewrite free_all_app in Hfa. unfold hbind in *.
  destruct (free_all (seq (S n) size) _) as [[] h1 | | ]; try discriminate.
  cbn [free_all] in Hfa. unfold hbind, hret in Hfa.
  destruct (free n h1) as [[] h2 | | ]; try discriminate.
  destruct (free pids h2) as [[] h3 | | ]; try discriminate.
  injection Hfa as ->. f_equal. f_equal. subst pids. lia.
Qed.

(** X12. A round of the loop of [main] on a line that parses inside
    its blocks, when it comes back to the prompt or ends on exit, leaves
    no block behind: with or without a call of [execute], every block
    allocated during the round is freed exactly once before the round
    ends, the live blocks are those of before the round, and
    [currProcesses] is left cleared. Nothing is said of a line one of
    whose stores leaves its block. *)
Theorem main_round_leaves_no_block (input : list Z) (p : pipeline)
        (h : heap) :
  heap_ok h ->
  makeProcessesC input = Parsed p ->
  exists h',
    main_roundH input h = HOk (mkPrcs None 0) h'
    /\ live h' = live h
    /\ heap_ok h'.
Proof.
  intros Hok Hp.
  destruct (makeProcessesH_spec input p h Hok Hp)
    as (stages & total & Hrun & Hmk & Hblocks).
  set (P := mkPrcs (Some (next_block h, stages)) (length stages)) in *.
  set (h1 := mkHeap (S (S (next_block h) + total))
                    (rev (seq (next_block h) (S total)) ++ live h)) in *.
  assert (Hok1 : heap_ok h1).
  { replace h1 with (mkHeap (next_block h + S (S total))
                            (rev (seq (next_block h) (S total)) ++ live h)).
    - intros b. cbn [live next_block].
      rewrite in_app_iff, <- in_rev, in_seq.
      intros [H | H]; [lia | ]. specialize (Hok b H). lia.
    - subst h1. f_equal. lia. }
  assert (Hfree : forall hx,
             live hx = live h1 ->
             freeProcesses P hx
             = HOk (mkPrcs None 0) (mkHeap (next_block hx) (live h))).
  { intros hx Hx.
    apply (freeProcesses_owned stages (next_block h) total (live h));
      auto. }
  unfold main_roundH. unfold hbind at 1. rewrite Hrun.
  destruct (dispatch (pipeline_of P)).
  - unfold hbind, hret. rewrite (Hfree h1 eq_refl).
    eexists. split; [reflexivity | ]. split; [reflexivity | ].
    intros b Hb. cbn [live next_block] in *. specialize (Hok b Hb).
    subst h1. cbn [next_block]. lia.
  - unfold hbind, hret. rewrite (Hfree h1 eq_refl).
    eexists. split; [reflexivity | ]. split; [reflexivity | ].
    intros b Hb. cbn [live next_block] in *. specialize (Hok b Hb).
    subst h1. cbn [next_block]. lia.
  - unfold hbind. rewrite (executeH_returns P h1 Hok1).
    rewrite Hfree by reflexivity.
    eexists. split; [reflexivity | ]. split; [reflexivity | ].
    intros b Hb. cbn [live next_block] in *. specialize (Hok b Hb).
    subst h1. cbn [next_block]. lia.
  - unfold hbind, hret. rewrite (Hfree h1 eq_refl).
    eexists. split; [reflexivity | ]. split; [reflexivity | ].
    intros b Hb. cbn [live next_block] in *. specialize (Hok b Hb).
    subst h1. cbn [next_block]. lia.
Qed.

(** X13. On a line that parses inside its blocks, the child whose
    program is not found frees, before it calls exit, every block it
    inherited for the line and for the pipeline: the pipes, the pids and
    the whole of [currProcesses], each once. Nothing is said of a line
    one of whose stores leaves its block. *)
Theorem child_not_found_frees_all (input : list Z) (p : pipeline)
        (h : heap) :
  heap_ok h ->
  makeProcessesC input = Parsed p ->
  exists h',
    (P <-- makeProcessesH input ;; child_not_foundH P) h
    = HOk (mkPrcs None 0) h'
    /\ live h' = live h.
Proof.
  intros Hok Hp.
  destruct (makeProcessesH_spec input p h Hok Hp)
    as (stages & total & Hrun & Hmk & Hblocks).
  set (P := mkPrcs (Some (next_block h, stages)) (length stages)) in *.
  set (h1 := mkHeap (S (S (next_block h) + total))
                    (rev (seq (next_block h) (S total)) ++ live h)) in *.
  assert (Hok1 : heap_ok h1).
  { replace h1 with (mkHeap (next_block h + S (S total))
                            (rev (seq (next_block h) (S total)) ++ live h)).
    - intros b. cbn [live next_block].
      rewrite in_app_iff, <- in_rev, in_seq.
      intros [H | H]; [lia | ]. specialize (Hok b H). lia.
    - subst h1. f_equal. lia. }
  pose proof (executeH_returns P h1 Hok1) as Hex.
  unfold executeH in Hex.
  unfold hbind at 1. rewrite Hrun. unfold child_not_foundH.
  unfold hbind in *.
  destruct (makePipesH (Prcs_size P) h1) as [pipes h2 | | ];
    try discriminate.
  destruct (malloc h2) as [pids h3 | | ]; try discriminate.
  rewrite Hex.
  rewrite (freeProcesses_owned stages (next_block h) total (live h));
    auto.
  eexists. split; reflexivity.
Qed.

Lemma execute_frees_pipes_and_pids_witness :
  executeH (mkPrcs None 3) (mkHeap 0 [])
  = HOk tt (mkHeap (next_block (mkHeap 0 []) + Prcs_size (mkPrcs None 3) + 2)
                   (live (mkHeap 0 []))).
Proof.
  apply (execute_frees_pipes_and_pids (mkPrcs None 3) (mkHeap 0 [])).
  intros b Hb. destruct Hb.
Defined.

Lemma main_round_leaves_no_block_witness :
  exists h',
    main_roundH (line "echo hi | cat") (mkHeap 0 [])
    = HOk (mkPrcs None 0) h'
    /\ live h' = live (mkHeap 0 [])
    /\ heap_ok h'.
Proof.
  apply (main_round_leaves_no_block
           (line "echo hi | cat")
           [[chars "echo"; chars "hi"]; [chars "cat"]] (mkHeap 0 [])).
  - intros b Hb. destruct Hb.
  - vm_compute. reflexivity.
Defined.

Lemma child_not_found_frees_all_witness :
  exists h',
    (P <-- makeProcessesH (line "ls | nosuchprog123") ;;
     child_not_foundH P) (mkHeap 0 [])
    = HOk (mkPrcs None 0) h'
    /\ live h' = live (mkHeap 0 []).
Proof.
  apply (child_not_found_frees_all
           (line "ls | nosuchprog123")
           [[chars "ls"]; [chars "nosuchprog123"]] (mkHeap 0 [])).
  - intros b Hb. destruct Hb.
  - vm_compute. reflexivity.
Defined.
